(** * A growable sequence over raw memory: [RawMemory<T>] and [Vector<T>]

    Shallow embedding of [advanced-vector/vector.h].  The C++ code places and
    destroys objects by hand in a block obtained from [operator new]; the
    embedding therefore carries an explicit memory: a heap of blocks whose
    slots are either raw storage or a live object, a store of [Vector]
    objects addressed by [this], a countdown to the one operation (an element
    constructor or assignment, or an allocation) that is made to throw, and a
    log of the lifetime events that an instrumented element type would
    count.  A size or a capacity is a [nat].  The one place where the code
    computes with a count in [size_t] beyond comparing it is the byte count
    [n * sizeof(T)] that [Allocate] hands to [operator new]; a block that
    exists has a representable byte count, and the statements about a count
    chosen by the caller ([Reserve], [Resize], [Vector(size_t)],
    [RawMemory(size_t)]) are made for representable counts
    (see [representable]). *)

From stdpp Require Import base decidable option list gmap.

Set Default Proof Using "Type".

(** ** Element types

    What the container asks of [T] at compile time ([<type_traits>],
    [sizeof]) and the two values the embedding needs: the state a
    moved-from object is left in and the value [T()] yields. *)
Class Elem (T : Type) := {
  nothrow_move_constructible : bool;
  copy_constructible : bool;
  nothrow_move_assignable : bool;
  trivially_destructible : bool;
  sizeof : nat;
  moved_from : T → T;
  value_init : T
}.

(** The largest value of [size_t], and the counts [n] whose byte count
    [n * sizeof(T)] does not wrap around in it. *)
Definition SIZE_MAX : Z := (2 ^ 64 - 1)%Z.

Definition representable {T} `{!Elem T} (n : nat) : Prop :=
  (Z.of_nat n * Z.of_nat (sizeof (T:=T)) ≤ SIZE_MAX)%Z.

(** ** Memory *)

Inductive slot (T : Type) :=
  | Raw
  | Live (v : T).
Arguments Raw {T}.
Arguments Live {T} v.

(** [T*]: the block the pointer points into ([None] for [nullptr]) and the
    element offset inside it. *)
Record ptr := Ptr { base : option nat; off : nat }.

Definition nullptr : ptr := Ptr None 0.
Definition ptr_add (p : ptr) (k : nat) : ptr := Ptr (base p) (off p + k).
Definition ptr_sub (p : ptr) (k : nat) : ptr := Ptr (base p) (off p - k).
Infix "+ₚ" := ptr_add (at level 50, left associativity).
Infix "-ₚ" := ptr_sub (at level 50, left associativity).

Global Instance ptr_eq_dec : EqDecision ptr.
Proof. solve_decision. Defined.

Inductive event :=
  | EvAlloc (n : nat)       (* operator new for n elements *)
  | EvFree (live : nat)     (* operator delete of a block holding [live] objects *)
  | EvCtor                  (* T(args...) or T() *)
  | EvCopyCtor
  | EvMoveCtor
  | EvCopyAssign
  | EvMoveAssign
  | EvDtor                  (* destructor of a live object *)
  | EvStrayDtor (p : ptr)   (* destructor run on storage that holds no object *)
  | EvClobber.              (* placement new over a live object, which is lost *)

Global Instance event_eq_dec : EqDecision event.
Proof. solve_decision. Defined.

Inductive fault :=
  | NullDeref
  | Dangling
  | OutOfBounds
  | NoObjectThere
  | AssertFailed
  | BadRange
  | IllFormed
  | NoSuchVector.

(** [template <typename T> class RawMemory]: the fields. *)
Record RawMemory := mkRawMemory { buffer_ : option nat; capacity_ : nat }.

(** [template <typename T> class Vector]: the fields. *)
Record Vector := mkVector { data_ : RawMemory; size_ : nat }.

Record world (T : Type) := World {
  heap : gmap nat (list (slot T));   (* blocks handed out by operator new *)
  next_block : nat;                  (* the next block operator new hands out *)
  objs : gmap nat Vector;            (* Vector objects, by address *)
  next_obj : nat;                    (* the next address for a local Vector *)
  oracle : option nat;               (* [Some k]: of the operations that can throw,
                                        k succeed and the next one throws *)
  log : list event                   (* newest event first *)
}.
Arguments World {T}.
Arguments heap {T}.
Arguments next_block {T}.
Arguments objs {T}.
Arguments next_obj {T}.
Arguments oracle {T}.
Arguments log {T}.

(** Outcome of a call: it returns, an exception leaves it, or the call has
    no defined behaviour. *)
Inductive result (T A : Type) :=
  | Ok (a : A) (w : world T)
  | Throw (w : world T)
  | Fault (f : fault).
Arguments Ok {T A}.
Arguments Throw {T A}.
Arguments Fault {T A}.

Definition M (T A : Type) : Type := world T → result T A.

Global Instance M_ret {T} : MRet (M T) := λ A a w, Ok a w.
Global Instance M_bind {T} : MBind (M T) := λ A B f m w,
  match m w with
  | Ok a w' => f a w'
  | Throw w' => Throw w'
  | Fault e => Fault e
  end.

Section Memory.
Context {T : Type} `{!Elem T}.

Definition upd_heap (h : gmap nat (list (slot T))) (w : world T) : world T :=
  World h (next_block w) (objs w) (next_obj w) (oracle w) (log w).
Definition upd_objs (o : gmap nat Vector) (w : world T) : world T :=
  World (heap w) (next_block w) o (next_obj w) (oracle w) (log w).
Definition emit_w (e : event) (w : world T) : world T :=
  World (heap w) (next_block w) (objs w) (next_obj w) (oracle w) (e :: log w).

Definition fail {A} (f : fault) : M T A := λ _, Fault f.
Definition emit (e : event) : M T unit := λ w, Ok () (emit_w e w).

(** [on_throw m h] is [try { m } catch (...) { h; throw; }]; the same shape
    models the destructor of a local object running while the stack
    unwinds. *)
Definition on_throw {A} (m : M T A) (h : M T unit) : M T A := λ w,
  match m w with
  | Throw w' =>
      match h w' with
      | Ok _ w'' => Throw w''
      | Throw w'' => Throw w''
      | Fault e => Fault e
      end
  | r => r
  end.

(** An operation that can throw asks the oracle. *)
Definition may_throw : M T unit := λ w,
  match oracle w with
  | Some 0 => Throw (World (heap w) (next_block w) (objs w) (next_obj w) None (log w))
  | Some (S k) => Ok () (World (heap w) (next_block w) (objs w) (next_obj w) (Some k) (log w))
  | None => Ok () w
  end.
Definition may_throw_unless (nothrow : bool) : M T unit :=
  if nothrow then mret () else may_throw.

Definition slot_at (w : world T) (p : ptr) : option (slot T) :=
  b ← base p; blk ← heap w !! b; blk !! off p.

(** Reading the object [p] points to. *)
Definition load (p : ptr) : M T T := λ w,
  match slot_at w p with
  | Some (Live v) => Ok v w
  | _ => Fault NoObjectThere
  end.

(** Overwrite the slot [p] points to; the slot must lie inside its block. *)
Definition store (p : ptr) (s : slot T) : M T unit := λ w,
  match base p with
  | None => Fault NullDeref
  | Some b =>
      match heap w !! b with
      | None => Fault Dangling
      | Some blk =>
          if decide (off p < length blk)
          then Ok () (upd_heap (<[b := <[off p := s]> blk]> (heap w)) w)
          else Fault OutOfBounds
      end
  end.

(** The storing half of a placement new: an object over a live one is
    recorded, the old object is gone without its destructor. *)
Definition construct_at (ev : event) (p : ptr) (v : T) : M T unit := λ w,
  match slot_at w p with
  | Some Raw => (store p (Live v);; emit ev) w
  | Some (Live _) => (emit EvClobber;; store p (Live v);; emit ev) w
  | None => Fault OutOfBounds
  end.

(** The storing half of an assignment: the target must be an object. *)
Definition assign_at (ev : event) (p : ptr) (v : T) : M T unit := λ w,
  match slot_at w p with
  | Some (Live _) => (store p (Live v);; emit ev) w
  | _ => Fault NoObjectThere
  end.

(** [std::destroy_at(p)].  Where no object lives, in raw storage, past the
    block or at [nullptr], running the destructor of a type that has one
    to run is undefined; for a trivially destructible type the call does
    nothing, which is recorded. *)
Definition destroy_at (p : ptr) : M T unit := λ w,
  match slot_at w p with
  | Some (Live _) => (store p Raw;; emit EvDtor) w
  | _ => if trivially_destructible then emit (EvStrayDtor p) w
         else Fault NoObjectThere
  end.

(** [new (dst) T(src)] with [src] an lvalue. *)
Definition copy_construct (dst src : ptr) : M T unit :=
  if copy_constructible then
    v ← load src; may_throw;; construct_at EvCopyCtor dst v
  else fail IllFormed.

(** [new (dst) T(std::move(src))]. *)
Definition move_construct (dst src : ptr) : M T unit :=
  v ← load src;
  may_throw_unless nothrow_move_constructible;;
  construct_at EvMoveCtor dst v;;
  store src (Live (moved_from v)).

(** [dst[0] = src[0]]. *)
Definition copy_assign (dst src : ptr) : M T unit :=
  v ← load src; may_throw;; assign_at EvCopyAssign dst v.

(** [dst[0] = std::move(src[0])]. *)
Definition move_assign (dst src : ptr) : M T unit :=
  v ← load src;
  may_throw_unless nothrow_move_assignable;;
  assign_at EvMoveAssign dst v;;
  store src (Live (moved_from v)).

(** [new (dst) T()]. *)
Definition value_construct (dst : ptr) : M T unit :=
  may_throw;; construct_at EvCtor dst value_init.

End Memory.

(** ** The algorithms of [<memory>] and [<algorithm>] the container calls *)

Section Algorithms.
Context {T : Type} `{!Elem T}.

Definition assert (b : bool) : M T unit :=
  if b then mret () else fail AssertFailed.

(** [last - first] for two pointers into one block. *)
Definition distance (first last : ptr) : M T nat :=
  if decide (base first = base last ∧ off first ≤ off last)
  then mret (off last - off first)
  else fail BadRange.

(** [std::destroy_n(first, n)] *)
Fixpoint destroy_n (first : ptr) (n : nat) : M T unit :=
  match n with
  | 0 => mret ()
  | S n' => destroy_at first;; destroy_n (first +ₚ 1) n'
  end.

(** The loop shared by the [std::uninitialized_*_n] algorithms: construct
    at [cur] from [first]; when a construction throws, destroy
    [d_first, cur) front to back and rethrow. *)
Fixpoint uninitialized_loop (construct : ptr → ptr → M T unit)
    (first : ptr) (n : nat) (d_first cur : ptr) : M T unit :=
  match n with
  | 0 => mret ()
  | S n' =>
      on_throw (construct cur first) (destroy_n d_first (off cur - off d_first));;
      uninitialized_loop construct (first +ₚ 1) n' d_first (cur +ₚ 1)
  end.

(** [std::uninitialized_copy_n(first, n, d_first)] *)
Definition uninitialized_copy_n (first : ptr) (n : nat) (d_first : ptr) : M T unit :=
  uninitialized_loop copy_construct first n d_first d_first.

(** [std::uninitialized_move_n(first, n, d_first)] *)
Definition uninitialized_move_n (first : ptr) (n : nat) (d_first : ptr) : M T unit :=
  uninitialized_loop move_construct first n d_first d_first.

(** [std::uninitialized_value_construct_n(first, n)] *)
Definition uninitialized_value_construct_n (first : ptr) (n : nat) : M T unit :=
  uninitialized_loop (λ cur _, value_construct cur) first n first first.

(** [std::copy_n(first, n, d_first)] *)
Fixpoint copy_n (first : ptr) (n : nat) (d_first : ptr) : M T unit :=
  match n with
  | 0 => mret ()
  | S n' => copy_assign d_first first;; copy_n (first +ₚ 1) n' (d_first +ₚ 1)
  end.

(** [std::move(first, last, d_first)], the algorithm: front to back. *)
Fixpoint move_n (first : ptr) (n : nat) (d_first : ptr) : M T unit :=
  match n with
  | 0 => mret ()
  | S n' => move_assign d_first first;; move_n (first +ₚ 1) n' (d_first +ₚ 1)
  end.
Definition std_move (first last d_first : ptr) : M T unit :=
  n ← distance first last; move_n first n d_first.

(** [std::move_backward(first, last, d_last)]: back to front, the element
    before [last] is move-assigned to the slot before [d_last], and so on
    until [first] is reached. *)
Fixpoint move_backward_n (first : ptr) (n : nat) (d_last : ptr) : M T unit :=
  match n with
  | 0 => mret ()
  | S n' => move_assign (d_last -ₚ 1) (first +ₚ n');; move_backward_n first n' (d_last -ₚ 1)
  end.
Definition move_backward (first last d_last : ptr) : M T unit :=
  n ← distance first last; move_backward_n first n d_last.

End Algorithms.

(** ** [class RawMemory] *)

Section RawMemoryOps.
Context {T : Type} `{!Elem T}.

Definition is_live (s : slot T) : bool :=
  match s with Live _ => true | Raw => false end.

(** How many objects a block holds. *)
Definition live_count (blk : list (slot T)) : nat :=
  length (filter (λ s, is_live s) blk).

(** [operator new] once it has found the memory: a new block of raw slots. *)
Definition new_block (n : nat) : M T (option nat) := λ w,
  Ok (Some (next_block w))
     (World (<[next_block w := replicate n Raw]> (heap w)) (S (next_block w))
            (objs w) (next_obj w) (oracle w) (EvAlloc n :: log w)).

(** The byte count [n * sizeof(T)] that [Allocate] asks [operator new]
    for, computed in [size_t]. *)
Definition Allocate_bytes (n : nat) : Z :=
  ((Z.of_nat n * Z.of_nat sizeof) mod (SIZE_MAX + 1))%Z.

(** [static T* Allocate(size_t n)]: [operator new] may throw.  The block
    has its [n] slots, which is what [operator new(n * sizeof(T))] provides
    for a [representable] count [n], where [Allocate_bytes n] is
    [n * sizeof(T)]. *)
Definition Allocate (n : nat) : M T (option nat) :=
  if decide (n ≠ 0) then may_throw;; new_block n else mret None.

(** [static void Deallocate(T* buf)]: [operator delete]; nothing happens for
    [nullptr], and no destructor runs for what the block still holds. *)
Definition Deallocate (buf : option nat) : M T unit := λ w,
  match buf with
  | None => Ok () w
  | Some b =>
      match heap w !! b with
      | None => Fault Dangling
      | Some blk =>
          Ok () (World (delete b (heap w)) (next_block w) (objs w) (next_obj w)
                       (oracle w) (EvFree (live_count blk) :: log w))
      end
  end.

(** [explicit RawMemory(size_t capacity)] *)
Definition RawMemory_ctor (capacity : nat) : M T RawMemory :=
  buf ← Allocate capacity; mret (mkRawMemory buf capacity).

(** [RawMemory(RawMemory&& other)]: the new object and what is left of [other]. *)
Definition RawMemory_move_ctor (other : RawMemory) : RawMemory * RawMemory :=
  (mkRawMemory (buffer_ other) (capacity_ other), mkRawMemory None 0).

(** [RawMemory& operator=(RawMemory&& rhs)]; [same] says whether [this] and
    [rhs] are one object.  Returns the two objects afterwards. *)
Definition RawMemory_move_assign (same : bool) (self rhs : RawMemory)
    : M T (RawMemory * RawMemory) :=
  if same then mret (self, rhs)
  else
    Deallocate (buffer_ self);;
    mret (mkRawMemory (buffer_ rhs) (capacity_ rhs), mkRawMemory None 0).

(** [~RawMemory()] *)
Definition RawMemory_dtor (self : RawMemory) : M T unit :=
  Deallocate (buffer_ self).

(** [T* operator+(size_t offset)] *)
Definition RawMemory_plus (self : RawMemory) (offset : nat) : M T ptr :=
  assert (bool_decide (offset ≤ capacity_ self));;
  mret (Ptr (buffer_ self) offset).

(** [T& operator[](size_t index)], the reference as a pointer. *)
Definition RawMemory_at (self : RawMemory) (index : nat) : M T ptr :=
  assert (bool_decide (index < capacity_ self));;
  mret (Ptr (buffer_ self) index).

(** [void Swap(RawMemory& other)] *)
Definition RawMemory_Swap (self other : RawMemory) : RawMemory * RawMemory :=
  (mkRawMemory (buffer_ other) (capacity_ other),
   mkRawMemory (buffer_ self) (capacity_ self)).

(** [T* GetAddress()] *)
Definition GetAddress (self : RawMemory) : ptr := Ptr (buffer_ self) 0.

End RawMemoryOps.

(** ** [class Vector] *)

(** What [Emplace] is given to build the element from: an lvalue (copy
    construction), an rvalue (move construction), or other constructor
    arguments.  In each case [v] is the value the new element gets. *)
Inductive args (T : Type) :=
  | ByCopy (v : T)
  | ByMove (v : T)
  | ByArgs (v : T).
Arguments ByCopy {T} v.
Arguments ByMove {T} v.
Arguments ByArgs {T} v.

Definition args_value {T} (a : args T) : T :=
  match a with ByCopy v | ByMove v | ByArgs v => v end.

Definition args_event {T} (a : args T) : event :=
  match a with ByCopy _ => EvCopyCtor | ByMove _ => EvMoveCtor | ByArgs _ => EvCtor end.

Section VectorOps.
Context {T : Type} `{!Elem T}.

Definition get_vec (this : nat) : M T Vector := λ w,
  match objs w !! this with
  | Some v => Ok v w
  | None => Fault NoSuchVector
  end.
Definition put_vec (this : nat) (v : Vector) : M T unit := λ w,
  Ok () (upd_objs (<[this := v]> (objs w)) w).
Definition del_vec (this : nat) : M T unit := λ w,
  Ok () (upd_objs (delete this (objs w)) w).
Definition set_size (this : nat) (n : nat) : M T unit :=
  v ← get_vec this; put_vec this (mkVector (data_ v) n).
Definition set_data (this : nat) (d : RawMemory) : M T unit :=
  v ← get_vec this; put_vec this (mkVector d (size_ v)).

(** Storage for a local [Vector]. *)
Definition new_local : M T nat := λ w,
  Ok (next_obj w)
     (World (heap w) (next_block w) (objs w) (S (next_obj w)) (oracle w) (log w)).

(** [T(std::forward<Args>(args)...)] placed at [dst]. *)
Definition construct_from (dst : ptr) (a : args T) : M T unit :=
  match a with
  | ByCopy v =>
      if copy_constructible then may_throw;; construct_at EvCopyCtor dst v
      else fail IllFormed
  | ByMove v => may_throw_unless nothrow_move_constructible;; construct_at EvMoveCtor dst v
  | ByArgs v => may_throw;; construct_at EvCtor dst v
  end.

(** [T temp(std::forward<Args>(args)...)]: the same constructor for a local. *)
Definition construct_local (a : args T) : M T T :=
  match a with
  | ByCopy v => if copy_constructible then may_throw;; emit EvCopyCtor;; mret v
                else fail IllFormed
  | ByMove v => may_throw_unless nothrow_move_constructible;; emit EvMoveCtor;; mret v
  | ByArgs v => may_throw;; emit EvCtor;; mret v
  end.

(** A local [T] leaves scope: its destructor runs, also during unwinding. *)
Definition with_local_T {A} (body : M T A) : M T A :=
  r ← on_throw body (emit EvDtor); emit EvDtor;; mret r.

(** A local [RawMemory] leaves scope by an exception. *)
Definition unwinding_RawMemory {A} (d : RawMemory) (body : M T A) : M T A :=
  on_throw body (RawMemory_dtor d).

(** [Vector() noexcept = default] *)
Definition Vector_default (this : nat) : M T unit :=
  put_vec this (mkVector (mkRawMemory None 0) 0).

(** [size_t Size() const noexcept] *)
Definition Size (this : nat) : M T nat :=
  v ← get_vec this; mret (size_ v).

(** [size_t Capacity() const noexcept] *)
Definition Capacity (this : nat) : M T nat :=
  v ← get_vec this; mret (capacity_ (data_ v)).

(** [iterator begin() noexcept], [cbegin] *)
Definition begin_ (this : nat) : M T ptr :=
  v ← get_vec this; mret (GetAddress (data_ v)).
Definition cbegin (this : nat) : M T ptr := begin_ this.

(** [iterator end() noexcept], [cend] *)
Definition end_ (this : nat) : M T ptr :=
  b ← begin_ this; v ← get_vec this; mret (b +ₚ size_ v).
Definition cend (this : nat) : M T ptr := end_ this.

(** [T& operator[](size_t index) noexcept] *)
Definition Vector_at (this : nat) (index : nat) : M T ptr :=
  v ← get_vec this;
  assert (bool_decide (index < size_ v));;
  RawMemory_at (data_ v) index.

(** [explicit Vector(size_t size)] *)
Definition Vector_sized (this : nat) (size : nat) : M T unit :=
  d ← RawMemory_ctor size;
  put_vec this (mkVector d size);;
  on_throw (b ← begin_ this; uninitialized_value_construct_n b size)
           (RawMemory_dtor d;; del_vec this).

(** [Vector(const Vector& other)] *)
Definition Vector_copy_ctor (this other : nat) : M T unit :=
  o ← get_vec other;
  d ← RawMemory_ctor (size_ o);
  put_vec this (mkVector d (size_ o));;
  on_throw (ob ← begin_ other; b ← begin_ this; uninitialized_copy_n ob (size_ o) b)
           (RawMemory_dtor d;; del_vec this).

(** [Vector(Vector&& other) noexcept] *)
Definition Vector_move_ctor (this other : nat) : M T unit :=
  o ← get_vec other;
  let '(d, od) := RawMemory_move_ctor (data_ o) in
  put_vec other (mkVector od (size_ o));;
  put_vec this (mkVector d (size_ o));;
  set_size other 0.

(** [~Vector()] *)
Definition Vector_dtor (this : nat) : M T unit :=
  b ← begin_ this;
  v ← get_vec this;
  destroy_n b (size_ v);;
  RawMemory_dtor (data_ v);;
  del_vec this.

(** [void Swap(Vector& other) noexcept] *)
Definition Swap (this other : nat) : M T unit :=
  a ← get_vec this;
  b ← get_vec other;
  let '(da, db) := RawMemory_Swap (data_ a) (data_ b) in
  put_vec this (mkVector da (size_ a));;
  put_vec other (mkVector db (size_ b));;
  a ← get_vec this;
  b ← get_vec other;
  put_vec this (mkVector (data_ a) (size_ b));;
  b' ← get_vec other;
  put_vec other (mkVector (data_ b') (size_ a)).

(** [void SafetyMoveOrCopy(T* from, T* to, const size_t size)] *)
Definition SafetyMoveOrCopy (from to : ptr) (size : nat) : M T unit :=
  if nothrow_move_constructible || negb copy_constructible
  then uninitialized_move_n from size to
  else uninitialized_copy_n from size to.

(** [void Reserve(size_t new_capacity)] *)
Definition Reserve (this : nat) (new_capacity : nat) : M T unit :=
  v ← get_vec this;
  if decide (new_capacity ≤ capacity_ (data_ v)) then mret ()
  else
    new_data ← RawMemory_ctor new_capacity;
    unwinding_RawMemory new_data (
      b ← begin_ this;
      SafetyMoveOrCopy b (GetAddress new_data) (size_ v);;
      destroy_n b (size_ v));;
    let '(d, new_data) := RawMemory_Swap (data_ v) new_data in
    set_data this d;;
    RawMemory_dtor new_data.

(** [void Resize(size_t new_size)] *)
Definition Resize (this : nat) (new_size : nat) : M T unit :=
  v ← get_vec this;
  (if decide (new_size < size_ v) then
     b ← begin_ this; destroy_n (b +ₚ new_size) (size_ v - new_size)
   else if decide (size_ v < new_size) then
     Reserve this new_size;;
     b ← begin_ this;
     uninitialized_value_construct_n (b +ₚ size_ v) (new_size - size_ v)
   else mret ());;
  set_size this new_size.

(** [void PopBack() noexcept] *)
Definition PopBack (this : nat) : M T unit :=
  v ← get_vec this;
  if decide (size_ v ≠ 0) then
    b ← begin_ this;
    destroy_n (b +ₚ (size_ v - 1)) 1;;
    set_size this (size_ v - 1)
  else mret ().

(** [void EmplaceWithRelocate(const size_t index, Args&&... args)] *)
Definition EmplaceWithRelocate (this : nat) (index : nat) (a : args T) : M T unit :=
  v ← get_vec this;
  new_data ← RawMemory_ctor (if decide (size_ v = 0) then 1 else size_ v * 2);
  unwinding_RawMemory new_data (
    construct_from (GetAddress new_data +ₚ index) a;;
    b ← begin_ this;
    on_throw (SafetyMoveOrCopy b (GetAddress new_data) index)
             (destroy_n (GetAddress new_data +ₚ index) 1);;
    on_throw (SafetyMoveOrCopy (b +ₚ index) (GetAddress new_data +ₚ index +ₚ 1)
                               (size_ v - index))
             (destroy_n (GetAddress new_data) (index + 1));;
    destroy_n b (size_ v));;
  let '(d, new_data) := RawMemory_Swap (data_ v) new_data in
  set_data this d;;
  RawMemory_dtor new_data.

(** [void EmplaceWithoutRelocate(const size_t index, Args&&... args)] *)
Definition EmplaceWithoutRelocate (this : nat) (index : nat) (a : args T) : M T unit :=
  v ← get_vec this;
  if decide (index ≠ size_ v) then
    temp ← construct_local a;
    with_local_T (
      b ← begin_ this;
      last ← RawMemory_at (data_ v) (size_ v - 1);
      move_construct (b +ₚ size_ v) last;;
      on_throw (e ← end_ this; move_backward (b +ₚ index) (e -ₚ 1) e)
               (destroy_n (b +ₚ size_ v) 1);;
      dst ← RawMemory_at (data_ v) index;
      may_throw_unless nothrow_move_assignable;;
      assign_at EvMoveAssign dst temp)
  else
    b ← begin_ this;
    construct_from (b +ₚ index) a.

(** [iterator Emplace(const_iterator pos, Args&&... args)] *)
Definition Emplace (this : nat) (pos : ptr) (a : args T) : M T ptr :=
  cb ← cbegin this;
  index ← distance cb pos;
  v ← get_vec this;
  assert (bool_decide (index ≤ size_ v));;
  (if decide (size_ v = capacity_ (data_ v))
   then EmplaceWithRelocate this index a
   else EmplaceWithoutRelocate this index a);;
  v ← get_vec this;
  set_size this (S (size_ v));;
  b ← begin_ this;
  mret (b +ₚ index).

(** [T& EmplaceBack(Args&&... args)] *)
Definition EmplaceBack (this : nat) (a : args T) : M T ptr :=
  e ← end_ this; Emplace this e a.

(** [void PushBack(const T& value)] and [void PushBack(T&& value)] *)
Definition PushBack (this : nat) (value : T) : M T unit :=
  EmplaceBack this (ByCopy value);; mret ().
Definition PushBack_rvalue (this : nat) (value : T) : M T unit :=
  EmplaceBack this (ByMove value);; mret ().

(** [iterator Insert(const_iterator pos, const T& value)] and
    [iterator Insert(const_iterator pos, T&& value)] *)
Definition Insert (this : nat) (pos : ptr) (value : T) : M T ptr :=
  Emplace this pos (ByCopy value).
Definition Insert_rvalue (this : nat) (pos : ptr) (value : T) : M T ptr :=
  Emplace this pos (ByMove value).

(** [iterator Erase(const_iterator pos)] *)
Definition Erase (this : nat) (pos : ptr) : M T ptr :=
  cb ← cbegin this;
  index ← distance cb pos;
  b ← begin_ this;
  e ← end_ this;
  std_move (b +ₚ index +ₚ 1) e (b +ₚ index);;
  v ← get_vec this;
  destroy_n (b +ₚ size_ v) 1;;
  set_size this (size_ v - 1);;
  b ← begin_ this;
  mret (b +ₚ index).

(** [Vector& operator=(const Vector& rhs)] *)
Definition Vector_copy_assign (this rhs : nat) : M T unit :=
  if decide (this ≠ rhs) then
    r ← get_vec rhs;
    v ← get_vec this;
    if decide (capacity_ (data_ v) < size_ r) then
      temp ← new_local;
      Vector_copy_ctor temp rhs;;
      Swap this temp;;
      Vector_dtor temp
    else
      rb ← begin_ rhs;
      b ← begin_ this;
      copy_n rb (size_ v `min` size_ r) b;;
      (if decide (size_ r < size_ v) then
         destroy_n (b +ₚ size_ r) (size_ v - size_ r)
       else if decide (size_ v < size_ r) then
         Reserve this (size_ r);;
         rb ← begin_ rhs;
         b ← begin_ this;
         uninitialized_copy_n (rb +ₚ size_ v) (size_ r - size_ v) (b +ₚ size_ v)
       else mret ());;
      set_size this (size_ r)
  else mret ().

(** [Vector& operator=(Vector&& rhs) noexcept] *)
Definition Vector_move_assign (this rhs : nat) : M T unit :=
  if decide (this ≠ rhs) then
    v ← get_vec this;
    r ← get_vec rhs;
    '(d, rd) ← RawMemory_move_assign false (data_ v) (data_ r);
    put_vec rhs (mkVector rd (size_ r));;
    put_vec this (mkVector d (size_ v));;
    r ← get_vec rhs;
    set_size this (size_ r);;
    set_size rhs 0
  else mret ().

(** The live elements of a [Vector], read off the memory: slots
    [0, size_) of its block, when each of them holds an object. *)
Definition contents (w : world T) (this : nat) : option (list T) :=
  v ← objs w !! this;
  mapM (λ i, match slot_at w (GetAddress (data_ v) +ₚ i) with
             | Some (Live x) => Some x
             | _ => None
             end) (seq 0 (size_ v)).

End VectorOps.

(** ** Invariant and bookkeeping *)

Section Invariant.
Context {T : Type} `{!Elem T}.

(** The block of a vector of capacity [cap] whose live elements are [l]:
    objects in [0, size), raw storage in [size, capacity). *)
Definition slots_of (l : list T) (cap : nat) : list (slot T) :=
  (Live <$> l) ++ replicate (cap - length l) Raw.

(** No block lives at or beyond the allocator's next address. *)
Definition heap_fresh (w : world T) : Prop :=
  ∀ b, next_block w ≤ b → heap w !! b = None.

(** The object at [this] is a well-formed vector with buffer [buf],
    capacity [cap] and live elements [l]. *)
Record vec_inv (w : world T) (this : nat) (buf : option nat) (cap : nat)
    (l : list T) : Prop := {
  inv_obj : objs w !! this = Some (mkVector (mkRawMemory buf cap) (length l));
  inv_len : length l ≤ cap;
  inv_blk : match buf with
            | Some b => heap w !! b = Some (slots_of l cap)
            | None => cap = 0
            end;
  inv_fresh : heap_fresh w
}.

(** The injected failure falls within the next [n] operations that can throw. *)
Definition fails_within (orc : option nat) (n : nat) : option nat :=
  match orc with
  | Some k => if decide (k < n) then Some k else None
  | None => None
  end.

(** The countdown after [n] operations that could have thrown and did not. *)
Definition tick (n : nat) (orc : option nat) : option nat := (λ k, k - n) <$> orc.

(** What an operation costs the countdown when the type may promise it
    never throws. *)
Definition ticks_unless (nothrow : bool) (n : nat) : nat := if nothrow then 0 else n.

(** What the constructor of the new element costs the countdown. *)
Definition args_ticks (a : args T) : nat :=
  match a with
  | ByMove _ => ticks_unless nothrow_move_constructible 1
  | _ => 1
  end.

(** [ByCopy] needs a copy constructor. *)
Definition args_ok (a : args T) : Prop :=
  match a with ByCopy _ => copy_constructible = true | _ => True end.

(** The constructor [SafetyMoveOrCopy] selects. *)
Definition relocation_event : event :=
  if nothrow_move_constructible || negb copy_constructible then EvMoveCtor else EvCopyCtor.

(** Bookkeeping over a stretch of the log. *)
Definition is_ctor (e : event) : bool :=
  match e with EvCtor | EvCopyCtor | EvMoveCtor => true | _ => false end.
Definition is_dtor (e : event) : bool :=
  match e with EvDtor => true | _ => false end.
Definition count (f : event → bool) (evs : list event) : nat :=
  length (filter (λ e, f e) evs).

(** No [Vector] lives at or beyond the next address for locals. *)
Definition objs_fresh (w : world T) : Prop := ∀ a, next_obj w ≤ a → objs w !! a = None.

(** The same blocks are allocated in both worlds. *)
Definition same_blocks (w w' : world T) : Prop :=
  ∀ b, is_Some (heap w' !! b) ↔ is_Some (heap w !! b).

(** The heap once a buffer has been handed back, and what the log shows. *)
Definition released (buf : option nat) (h : gmap nat (list (slot T))) : gmap nat (list (slot T)) :=
  match buf with Some b => delete b h | None => h end.

Definition release_log (buf : option nat) (live : nat) : list event :=
  match buf with Some _ => [EvFree live] | None => [] end.

(** What relocation leaves behind in the old block. *)
Definition left_behind (v : T) : T :=
  if nothrow_move_constructible || negb copy_constructible then moved_from v else v.

(** The object left in the last slot of a range shifted one slot toward
    the front, [x] being what the slot before the range held. *)
Definition shifted_last (x : T) (vs : list T) : T :=
  default x (moved_from <$> last vs).

(** The object left in the first slot of a range shifted one slot toward
    the back, [y] being what the slot after the range held. *)
Definition shifted_head (y : T) (vs : list T) : T :=
  default y (moved_from <$> head vs).

(** The capacity [EmplaceWithRelocate] asks for. *)
Definition grown_capacity (n : nat) : nat := if decide (n = 0) then 1 else n * 2.

(** Operations that can throw in the relocating path, in order: the
    allocation, the new element's constructor, the relocation of the
    prefix, the relocation of the suffix. *)
Definition relocate_ticks (a : args T) (n1 n2 : nat) : nat :=
  1 + (args_ticks a + (ticks_unless nothrow_move_constructible n1
                       + ticks_unless nothrow_move_constructible n2)).

(** Operations that can throw in the in-place path, for [n2] elements
    behind the position: the constructor alone at the end; otherwise the
    constructor of the temporary, the move construction of the new last
    element, the assignments of the shift and the assignment of the
    temporary. *)
Definition inplace_ticks (a : args T) (n2 : nat) : nat :=
  match n2 with
  | 0 => args_ticks a
  | S m => args_ticks a + (ticks_unless nothrow_move_constructible 1
             + (ticks_unless nothrow_move_assignable m
                + ticks_unless nothrow_move_assignable 1))
  end.

(** What the in-place path logs when nothing throws. *)
Definition inplace_log (a : args T) (n2 : nat) : list event :=
  match n2 with
  | 0 => [args_event a]
  | S m => EvDtor :: EvMoveAssign :: replicate m EvMoveAssign ++ [EvMoveCtor; args_event a]
  end.

(** Operations that can throw in [Emplace], on the path the capacity selects. *)
Definition emplace_ticks (a : args T) (n1 n2 cap : nat) : nat :=
  if decide (n1 + n2 = cap) then relocate_ticks a n1 n2 else inplace_ticks a n2.

(** The allocator's next address after a call left by the exception of
    operation [k]: unchanged when the allocation itself failed. *)
Definition next_block_after (k : nat) (nb : nat) : nat :=
  match k with 0 => nb | S _ => S nb end.

(** What the log gains when [Reserve] is left by an exception thrown by
    the operation numbered [k]: nothing when the allocation fails;
    otherwise [k - 1] copies were made and destroyed again and the new
    block, empty, was released. *)
Definition Reserve_unwind_log (new_capacity k : nat) : list event :=
  match k with
  | 0 => []
  | S j => EvFree 0 :: replicate j EvDtor ++ replicate j EvCopyCtor ++ [EvAlloc new_capacity]
  end.

(** What the log gains when [EmplaceWithRelocate] is left by an exception
    thrown by the operation numbered [k], for a type that relocates by
    copy: nothing when the allocation fails; the release of the new block
    when the new element's constructor throws; when copy [j] of the prefix
    throws, the [j] copies and then the new element are destroyed; when
    copy [j] of the suffix throws, its [j] copies and then the prefix and
    the new element are destroyed.  The new block is released empty. *)
Definition EmplaceWithRelocate_unwind_log (a : args T) (n1 n2 k : nat) : list event :=
  let cap' := grown_capacity (n1 + n2) in
  if decide (k = 0) then []
  else if decide (k < 1 + args_ticks a) then [EvFree 0; EvAlloc cap']
  else if decide (k < 1 + args_ticks a + n1) then
    let j := k - (1 + args_ticks a) in
    EvFree 0 :: EvDtor :: replicate j EvDtor ++ replicate j EvCopyCtor
      ++ [args_event a; EvAlloc cap']
  else
    let j := k - (1 + args_ticks a + n1) in
    EvFree 0 :: replicate (n1 + 1) EvDtor ++ replicate j EvDtor ++ replicate j EvCopyCtor
      ++ replicate n1 EvCopyCtor ++ [args_event a; EvAlloc cap'].

End Invariant.

(** ** Element types used in the examples *)

(** [int]: nothing throws, a moved-from [int] keeps its value, there is no
    destructor to run. *)
Global Instance int_elem : Elem Z := {|
  nothrow_move_constructible := true;
  copy_constructible := true;
  nothrow_move_assignable := true;
  trivially_destructible := true;
  sizeof := 4;
  moved_from := id;
  value_init := 0%Z
|}.

(** An instrumented element: copyable, none of its operations is
    [noexcept], so it is relocated by copy. *)
Inductive Tracked := tracked (id : nat).

Global Instance Tracked_elem : Elem Tracked := {|
  nothrow_move_constructible := false;
  copy_constructible := true;
  nothrow_move_assignable := false;
  trivially_destructible := false;
  sizeof := 4;
  moved_from := id;
  value_init := tracked 0
|}.

(** A move-only element whose move constructor is not [noexcept]; moving
    from it leaves [token 0] behind. *)
Inductive MoveOnly := token (id : nat).

Global Instance MoveOnly_elem : Elem MoveOnly := {|
  nothrow_move_constructible := false;
  copy_constructible := false;
  nothrow_move_assignable := false;
  trivially_destructible := false;
  sizeof := 4;
  moved_from := λ _, token 0;
  value_init := token 0
|}.

(** A world holding one vector, at address [0] with its block at [0]. *)
Definition world_of {T} (l : list T) (cap : nat) (orc : option nat) : world T :=
  World (<[ 0 := slots_of l cap ]> ∅) 1
        (<[ 0 := mkVector (mkRawMemory (Some 0) cap) (length l) ]> ∅) 1 orc [].

(** A world holding two vectors, at addresses [0] and [1] with their blocks
    at [0] and [1]. *)
Definition world_of2 {T} (l0 : list T) (cap0 : nat) (l1 : list T) (cap1 : nat)
    (orc : option nat) : world T :=
  World (<[ 1 := slots_of l1 cap1 ]> (<[ 0 := slots_of l0 cap0 ]> ∅)) 2
        (<[ 1 := mkVector (mkRawMemory (Some 1) cap1) (length l1) ]>
           (<[ 0 := mkVector (mkRawMemory (Some 0) cap0) (length l0) ]> ∅)) 2 orc [].

(** The empty world, and the scenario of three [PushBack] calls on a
    default-constructed vector at address [0]. *)
Definition empty_world {T} : world T := World ∅ 0 ∅ 1 None [].

Definition state_after {T A} (m : M T A) (w : world T) : option (world T) :=
  match m w with Ok _ w' => Some w' | _ => None end.

Definition push_1 : M Z unit := Vector_default 0;; PushBack 0 1%Z.
Definition push_12 : M Z unit := push_1;; PushBack 0 2%Z.
Definition push_123 : M Z unit := push_12;; PushBack 0 3%Z.

(** The vector at [this] has no more elements than capacity. *)
Definition size_within_capacity {T} (w : world T) (this : nat) : bool :=
  match objs w !! this with
  | Some v => bool_decide (size_ v ≤ capacity_ (data_ v))
  | None => false
  end.

(** [Insert] at index [p], then [Erase] at index [p]. *)
Definition insert_then_erase {T} `{!Elem T} (this p : nat) (value : T) : M T ptr :=
  b ← begin_ this;
  Insert this (b +ₚ p) value;;
  b ← begin_ this;
  Erase this (b +ₚ p).

(** The same with [Insert(pos, T&&)], and with [Emplace] of any arguments. *)
Definition insert_rvalue_then_erase {T} `{!Elem T} (this p : nat) (value : T)
    : M T ptr :=
  b ← begin_ this;
  Insert_rvalue this (b +ₚ p) value;;
  b ← begin_ this;
  Erase this (b +ₚ p).

Definition emplace_then_erase {T} `{!Elem T} (this p : nat) (a : args T) : M T ptr :=
  b ← begin_ this;
  Emplace this (b +ₚ p) a;;
  b ← begin_ this;
  Erase this (b +ₚ p).

(** ** Accounting for the remaining operations *)

Section Accounting.
Context {T : Type} `{!Elem T}.

(** Operations that can throw in [Vector(size_t)] and [Vector(const
    Vector&)] for [n] elements: the allocation, performed only when
    [n] is not zero, and one constructor per element. *)
Definition alloc_ticks (n : nat) : nat :=
  match n with 0 => 0 | S _ => 1 end.
Definition construction_ticks (n : nat) : nat := alloc_ticks n + n.

(** The buffer [RawMemory(n)] obtains when the allocator's next address is [nb]. *)
Definition allocated (n nb : nat) : option nat :=
  match n with 0 => None | S _ => Some nb end.

(** The allocator's next address after [RawMemory(n)]. *)
Definition next_block_alloc (n nb : nat) : nat :=
  match n with 0 => nb | S _ => S nb end.

(** What [RawMemory(n)] logs. *)
Definition alloc_log (n : nat) : list event :=
  match n with 0 => [] | S _ => [EvAlloc n] end.

(** What the log gains when a constructor of [n] elements is left by an
    exception thrown by the operation numbered [k]: nothing when the
    allocation fails; otherwise the [k - 1] elements constructed by [ctor]
    were destroyed again and the block was released empty. *)
Definition ctor_unwind_log (ctor : event) (n k : nat) : list event :=
  match k with
  | 0 => []
  | S j => EvFree 0 :: replicate j EvDtor ++ replicate j ctor ++ [EvAlloc n]
  end.

(** [PushBack(const T&)] of each value of [vs] in turn. *)
Fixpoint push_all (this : nat) (vs : list T) : M T unit :=
  match vs with
  | [] => mret ()
  | v :: vs' => PushBack this v;; push_all this vs'
  end.

(** Operations that can throw in [Reserve(new_capacity)] on a vector of
    [len] elements and capacity [cap]: none when the capacity suffices,
    otherwise the allocation and the relocation of each element. *)
Definition Reserve_ticks (cap len new_capacity : nat) : nat :=
  if decide (new_capacity ≤ cap) then 0
  else 1 + ticks_unless nothrow_move_constructible len.

(** Operations that can throw in a growing [Resize(new_size)]: those of
    [Reserve] and one value-initialisation per new element. *)
Definition Resize_ticks (cap len new_size : nat) : nat :=
  Reserve_ticks cap len new_size + (new_size - len).

(** Move assignments in a stretch of the log. *)
Definition is_move_assign (e : event) : bool :=
  match e with EvMoveAssign => true | _ => false end.
End Accounting.

(** * Proofs *)

(** Lists of slots put in one shape: appends to the right, maps pushed in. *)
Ltac list_norm :=
  repeat first
    [ rewrite <-(assoc_L (++)) | rewrite <-app_comm_cons | rewrite fmap_app
    | rewrite fmap_cons | rewrite fmap_nil | rewrite app_nil_l | rewrite app_nil_r ].

(** The byte count of [Allocate] is the one of [n] objects exactly for the
    representable counts. *)
Lemma Allocate_bytes_representable {T} `{!Elem T} (n : nat) :
  representable (T:=T) n ↔ Allocate_bytes (T:=T) n = (Z.of_nat n * Z.of_nat (sizeof (T:=T)))%Z.
Proof.
  unfold representable, Allocate_bytes, SIZE_MAX. split.
  - intros Hle. apply Z.mod_small. lia.
  - intros Heq.
    pose proof (Z.mod_pos_bound (Z.of_nat n * Z.of_nat (sizeof (T:=T))) (2 ^ 64 - 1 + 1)
                  ltac:(lia)) as Hb.
    rewrite Heq in Hb. lia.
Qed.

(** ** Running the primitives *)

Section MemoryLemmas.
Context {T : Type} `{!Elem T}.
Implicit Types (h : gmap nat (list (slot T))) (o : gmap nat Vector)
  (orc : option nat) (lg : list event) (blk pre post : list (slot T))
  (l vs : list T).

Lemma bind_run {A B} (m : M T A) (f : A → M T B) (w : world T) :
  (m ≫= f) w = match m w with
               | Ok a w' => f a w'
               | Throw w' => Throw w'
               | Fault e => Fault e
               end.
Proof. reflexivity. Qed.

Lemma ret_run {A} (a : A) (w : world T) : (mret a : M T A) w = Ok a w.
Proof. reflexivity. Qed.

(** *** The countdown *)

Lemma fails_within_0 orc : fails_within orc 0 = None.
Proof. unfold fails_within. destruct orc as [k|]; [|done]. case_decide; [lia|done]. Qed.

Lemma tick_0 orc : tick 0 orc = orc.
Proof. destruct orc as [k|]; simpl; [|done]. by rewrite Nat.sub_0_r. Qed.

Lemma tick_tick n m orc : tick n (tick m orc) = tick (m + n) orc.
Proof. destruct orc as [k|]; simpl; [|done]. f_equal. lia. Qed.

Lemma fails_within_None orc n m :
  fails_within orc (n + m) = None →
  fails_within orc n = None ∧ fails_within (tick n orc) m = None.
Proof.
  unfold fails_within, tick. destruct orc as [k|]; [|done].
  cbn [fmap option_fmap option_map]. repeat case_decide; try done; lia.
Qed.

Lemma fails_within_split orc n m :
  fails_within orc (n + m) =
    match fails_within orc n with
    | Some k => Some k
    | None => (λ k, n + k) <$> fails_within (tick n orc) m
    end.
Proof.
  unfold fails_within, tick. destruct orc as [k|]; [|done].
  cbn [fmap option_fmap option_map].
  repeat case_decide; cbn [fmap option_fmap option_map]; try done; try lia.
  f_equal. lia.
Qed.

Lemma fails_within_lt orc n k : fails_within orc n = Some k → k < n ∧ orc = Some k.
Proof.
  unfold fails_within. destruct orc as [j|]; [|done]. case_decide; [|done].
  intros [= ->]. done.
Qed.

Lemma may_throw_run h nb o no orc lg :
  may_throw (World h nb o no orc lg) =
    match fails_within orc 1 with
    | None => Ok () (World h nb o no (tick 1 orc) lg)
    | Some _ => Throw (World h nb o no None lg)
    end.
Proof.
  unfold fails_within, may_throw, tick.
  destruct orc as [[|k]|]; cbn [oracle heap next_block objs next_obj log fmap option_fmap option_map];
    try done; case_decide; try done; try lia.
  do 2 f_equal. f_equal. lia.
Qed.

Lemma may_throw_unless_run nothrow h nb o no orc lg :
  may_throw_unless nothrow (World h nb o no orc lg) =
    match fails_within orc (ticks_unless nothrow 1) with
    | None => Ok () (World h nb o no (tick (ticks_unless nothrow 1) orc) lg)
    | Some _ => Throw (World h nb o no None lg)
    end.
Proof.
  destruct nothrow; simpl.
  - by rewrite fails_within_0, tick_0.
  - apply may_throw_run.
Qed.

(** *** Single slots *)

Lemma slot_at_run h nb o no orc lg b i :
  slot_at (World h nb o no orc lg) (Ptr (Some b) i) = h !! b ≫= (.!! i).
Proof. reflexivity. Qed.

Lemma load_run h nb o no orc lg b i blk v :
  h !! b = Some blk → blk !! i = Some (Live v) →
  load (Ptr (Some b) i) (World h nb o no orc lg) = Ok v (World h nb o no orc lg).
Proof. intros Hb Hi. unfold load. rewrite slot_at_run, Hb. simpl. by rewrite Hi. Qed.

Lemma store_run h nb o no orc lg b i blk s :
  h !! b = Some blk → i < length blk →
  store (Ptr (Some b) i) s (World h nb o no orc lg)
  = Ok () (World (<[b := <[i := s]> blk]> h) nb o no orc lg).
Proof. intros Hb Hi. unfold store. simpl. rewrite Hb. by rewrite decide_True. Qed.

Lemma construct_at_run ev h nb o no orc lg b i blk v :
  h !! b = Some blk → blk !! i = Some Raw →
  construct_at ev (Ptr (Some b) i) v (World h nb o no orc lg)
  = Ok () (World (<[b := <[i := Live v]> blk]> h) nb o no orc (ev :: lg)).
Proof.
  intros Hb Hi. unfold construct_at. rewrite slot_at_run, Hb. simpl. rewrite Hi.
  rewrite bind_run. erewrite store_run by eauto using lookup_lt_Some. done.
Qed.

Lemma assign_at_run ev h nb o no orc lg b i blk x v :
  h !! b = Some blk → blk !! i = Some (Live x) →
  assign_at ev (Ptr (Some b) i) v (World h nb o no orc lg)
  = Ok () (World (<[b := <[i := Live v]> blk]> h) nb o no orc (ev :: lg)).
Proof.
  intros Hb Hi. unfold assign_at. rewrite slot_at_run, Hb. simpl. rewrite Hi.
  rewrite bind_run. erewrite store_run by eauto using lookup_lt_Some. done.
Qed.

Lemma destroy_at_run h nb o no orc lg b i blk x :
  h !! b = Some blk → blk !! i = Some (Live x) →
  destroy_at (Ptr (Some b) i) (World h nb o no orc lg)
  = Ok () (World (<[b := <[i := Raw]> blk]> h) nb o no orc (EvDtor :: lg)).
Proof.
  intros Hb Hi. unfold destroy_at. rewrite slot_at_run, Hb. simpl. rewrite Hi.
  rewrite bind_run. erewrite store_run by eauto using lookup_lt_Some. done.
Qed.

(** The destructor call on storage that holds no object: nothing to do for
    a trivially destructible type, undefined for any other. *)
Lemma destroy_at_stray (w : world T) p :
  trivially_destructible = true →
  (∀ x, slot_at w p ≠ Some (Live x)) →
  destroy_at p w = Ok () (emit_w (EvStrayDtor p) w).
Proof.
  intros Ht Hp. unfold destroy_at. rewrite Ht.
  destruct (slot_at w p) as [[|x]|] eqn:E; try done. by destruct (Hp x).
Qed.

Lemma destroy_at_no_object (w : world T) p :
  trivially_destructible = false →
  (∀ x, slot_at w p ≠ Some (Live x)) →
  destroy_at p w = Fault NoObjectThere.
Proof.
  intros Ht Hp. unfold destroy_at. rewrite Ht.
  destruct (slot_at w p) as [[|x]|] eqn:E; try done. by destruct (Hp x).
Qed.

Lemma insert_middle {A} (l1 l2 : list A) (x y : A) i :
  i = length l1 → <[i := y]> (l1 ++ x :: l2) = l1 ++ y :: l2.
Proof.
  intros ->. rewrite insert_app_r_alt by lia. by rewrite Nat.sub_diag.
Qed.

Lemma replicate_snoc_app {A} n (x : A) (k : list A) :
  replicate n x ++ x :: k = x :: replicate n x ++ k.
Proof. induction n as [|n IH]; simpl; [done|]. by rewrite IH. Qed.

(** *** [destroy_n] over a range of objects *)

Lemma destroy_n_run vs : ∀ h nb o no orc lg b i pre post,
  h !! b = Some (pre ++ (Live <$> vs) ++ post) → i = length pre →
  destroy_n (Ptr (Some b) i) (length vs) (World h nb o no orc lg)
  = Ok () (World (<[b := pre ++ replicate (length vs) Raw ++ post]> h) nb o no orc
                 (replicate (length vs) EvDtor ++ lg)).
Proof.
  induction vs as [|v vs IH]; intros h nb o no orc lg b i pre post Hb ->; simpl.
  - rewrite ret_run. by rewrite insert_id.
  - rewrite fmap_cons in Hb. simpl in Hb. rewrite bind_run.
    erewrite destroy_at_run; [|exact Hb|by apply list_lookup_middle].
    change (Ptr (Some b) (length pre) +ₚ 1) with (Ptr (Some b) (length pre + 1)).
    rewrite (IH _ _ _ _ _ _ _ _ (pre ++ [Raw]) post).
    + rewrite insert_insert_eq, <-(assoc_L (++)). simpl.
      by rewrite replicate_snoc_app.
    + rewrite lookup_insert_eq. f_equal.
      rewrite <-(assoc_L (++)). simpl.
      by rewrite insert_middle.
    + rewrite length_app. simpl. lia.
Qed.

(** *** Element operations *)

Lemma copy_construct_run h nb o no orc lg bs i sblk v bd j dblk :
  copy_constructible = true →
  h !! bs = Some sblk → sblk !! i = Some (Live v) →
  h !! bd = Some dblk → dblk !! j = Some Raw →
  copy_construct (Ptr (Some bd) j) (Ptr (Some bs) i) (World h nb o no orc lg) =
    match fails_within orc 1 with
    | None => Ok () (World (<[bd := <[j := Live v]> dblk]> h) nb o no (tick 1 orc)
                           (EvCopyCtor :: lg))
    | Some _ => Throw (World h nb o no None lg)
    end.
Proof.
  intros Hc Hs Hi Hd Hj. unfold copy_construct. rewrite Hc.
  rewrite bind_run. erewrite load_run by eauto.
  rewrite bind_run, may_throw_run.
  destruct (fails_within orc 1); [done|].
  by erewrite construct_at_run by eauto.
Qed.

Lemma move_construct_run h nb o no orc lg bs i sblk v bd j dblk :
  bs ≠ bd →
  h !! bs = Some sblk → sblk !! i = Some (Live v) →
  h !! bd = Some dblk → dblk !! j = Some Raw →
  move_construct (Ptr (Some bd) j) (Ptr (Some bs) i) (World h nb o no orc lg) =
    match fails_within orc (ticks_unless nothrow_move_constructible 1) with
    | None => Ok () (World (<[bs := <[i := Live (moved_from v)]> sblk]>
                              (<[bd := <[j := Live v]> dblk]> h)) nb o no
                           (tick (ticks_unless nothrow_move_constructible 1) orc)
                           (EvMoveCtor :: lg))
    | Some _ => Throw (World h nb o no None lg)
    end.
Proof.
  intros Hne Hs Hi Hd Hj. unfold move_construct.
  rewrite bind_run. erewrite load_run by eauto.
  rewrite bind_run, may_throw_unless_run.
  destruct (fails_within orc _); [done|].
  rewrite bind_run. erewrite construct_at_run by eauto.
  erewrite store_run; [done| |by eauto using lookup_lt_Some].
  by rewrite lookup_insert_ne.
Qed.

(** *** The uninitialized algorithms between two blocks *)

Lemma uninitialized_copy_loop_run bs bd nb o no dpre dpost spost vs :
  ∀ h orc lg spre soff done i,
  copy_constructible = true → bs ≠ bd →
  h !! bs = Some (spre ++ (Live <$> vs) ++ spost) → soff = length spre →
  h !! bd = Some (dpre ++ (Live <$> done) ++ replicate (length vs) Raw ++ dpost) →
  i = length dpre →
  uninitialized_loop copy_construct (Ptr (Some bs) soff) (length vs)
    (Ptr (Some bd) i) (Ptr (Some bd) (i + length done)) (World h nb o no orc lg) =
    match fails_within orc (length vs) with
    | None =>
        Ok () (World (<[bd := dpre ++ (Live <$> (done ++ vs)) ++ dpost]> h) nb o no
                     (tick (length vs) orc) (replicate (length vs) EvCopyCtor ++ lg))
    | Some k =>
        Throw (World (<[bd := dpre ++ replicate (length done + length vs) Raw ++ dpost]> h)
                     nb o no None
                     (replicate (length done + k) EvDtor ++ replicate k EvCopyCtor ++ lg))
    end.
Proof.
  induction vs as [|v vs IH]; intros h orc lg spre soff done i Hc Hne Hs -> Hd ->.
  - simpl. rewrite fails_within_0, ret_run, tick_0.
    simpl in Hd. rewrite app_nil_r. by rewrite insert_id.
  - cbn [length uninitialized_loop]. rewrite bind_run.
    simpl in Hs, Hd. unfold on_throw.
    erewrite copy_construct_run; [|done|exact Hs|by apply list_lookup_middle|exact Hd|].
    2:{ rewrite (assoc_L (++)). apply list_lookup_middle. by rewrite length_app, length_fmap. }
    change (S (length vs)) with (1 + length vs).
    rewrite (fails_within_split orc 1 (length vs)).
    destruct (fails_within orc 1) as [k|] eqn:Hf.
    + apply fails_within_lt in Hf as [Hk ->]. assert (k = 0) as -> by lia.
      cbn [off]. replace (length dpre + length done - length dpre) with (length done) by lia.
      erewrite destroy_n_run; [|exact Hd|done].
      do 2 f_equal.
      * f_equal. rewrite replicate_add. by rewrite <-(assoc_L (++)).
      * by rewrite Nat.add_0_r.
    + change (Ptr (Some bs) (length spre) +ₚ 1) with (Ptr (Some bs) (length spre + 1)).
      change (Ptr (Some bd) (length dpre + length done) +ₚ 1)
        with (Ptr (Some bd) (length dpre + length done + 1)).
      replace (length dpre + length done + 1) with (length dpre + length (done ++ [v]))
        by (rewrite length_app; simpl; lia).
      rewrite (IH _ _ _ (spre ++ [Live v]) _ (done ++ [v])); try done.
      * destruct (fails_within (tick 1 orc) (length vs)) as [k|]; cbn [fmap option_fmap option_map].
        -- do 2 f_equal.
           ++ by rewrite insert_insert_eq, length_app, <-Nat.add_assoc.
           ++ rewrite length_app. cbn [length].
              replace (length done + 1 + k) with (length done + (1 + k)) by lia.
              f_equal. by rewrite replicate_snoc_app.
        -- do 2 f_equal.
           ++ by rewrite insert_insert_eq, <-(assoc_L (++)).
           ++ by rewrite tick_tick.
           ++ by rewrite replicate_snoc_app.
      * rewrite lookup_insert_ne by done. by rewrite <-(assoc_L (++)).
      * rewrite length_app. simpl. lia.
      * rewrite lookup_insert_eq. f_equal.
        rewrite (assoc_L (++) dpre), insert_middle
          by (rewrite length_app, length_fmap; lia).
        rewrite fmap_app. by rewrite <-!(assoc_L (++)).
Qed.
End MemoryLemmas.

(** ** Relocation between two blocks *)

Section RelocationLemmas.
Context {T : Type} `{!Elem T}.
Implicit Types (h : gmap nat (list (slot T))) (o : gmap nat Vector)
  (orc : option nat) (lg : list event) (blk pre post : list (slot T))
  (l vs : list T).

Lemma ticks_unless_add b n m :
  ticks_unless b (n + m) = ticks_unless b n + ticks_unless b m.
Proof. by destruct b. Qed.

Lemma ticks_unless_le b n : ticks_unless b n ≤ n.
Proof. destruct b; simpl; lia. Qed.

Lemma uninitialized_move_loop_run bs bd nb o no dpre dpost spost vs :
  ∀ h orc lg spre soff done i,
  bs ≠ bd →
  h !! bs = Some (spre ++ (Live <$> vs) ++ spost) → soff = length spre →
  h !! bd = Some (dpre ++ (Live <$> done) ++ replicate (length vs) Raw ++ dpost) →
  i = length dpre →
  fails_within orc (ticks_unless nothrow_move_constructible (length vs)) = None →
  uninitialized_loop move_construct (Ptr (Some bs) soff) (length vs)
    (Ptr (Some bd) i) (Ptr (Some bd) (i + length done)) (World h nb o no orc lg) =
    Ok () (World (<[bs := spre ++ (Live <$> (moved_from <$> vs)) ++ spost]>
                    (<[bd := dpre ++ (Live <$> (done ++ vs)) ++ dpost]> h)) nb o no
                 (tick (ticks_unless nothrow_move_constructible (length vs)) orc)
                 (replicate (length vs) EvMoveCtor ++ lg)).
Proof.
  induction vs as [|v vs IH]; intros h orc lg spre soff done i Hne Hs -> Hd -> Hf.
  - simpl. rewrite ret_run. replace (ticks_unless _ 0) with 0 by by destruct nothrow_move_constructible.
    rewrite tick_0. simpl in Hs, Hd. rewrite app_nil_r.
    rewrite (insert_id _ bs); [by rewrite insert_id|by rewrite lookup_insert_ne].
  - cbn [length uninitialized_loop]. rewrite bind_run.
    simpl in Hs, Hd. cbn [length] in Hf. unfold on_throw.
    change (S (length vs)) with (1 + length vs) in Hf |- *.
    rewrite ticks_unless_add in Hf |- *.
    apply fails_within_None in Hf as [Hf1 Hf2].
    erewrite move_construct_run; [|done|exact Hs|by apply list_lookup_middle|exact Hd|].
    2:{ rewrite (assoc_L (++)). apply list_lookup_middle. by rewrite length_app, length_fmap. }
    rewrite Hf1.
    change (Ptr (Some bs) (length spre) +ₚ 1) with (Ptr (Some bs) (length spre + 1)).
    change (Ptr (Some bd) (length dpre + length done) +ₚ 1)
      with (Ptr (Some bd) (length dpre + length done + 1)).
    replace (length dpre + length done + 1) with (length dpre + length (done ++ [v]))
      by (rewrite length_app; simpl; lia).
    rewrite (IH _ _ _ (spre ++ [Live (moved_from v)]) _ (done ++ [v])); try done.
    + do 2 f_equal.
      * rewrite (insert_insert_ne _ bd bs) by done.
        rewrite !insert_insert_eq.
        by rewrite <-!(assoc_L (++)).
      * by rewrite tick_tick.
      * by rewrite replicate_snoc_app.
    + rewrite lookup_insert_eq. f_equal.
      rewrite insert_middle by done. by rewrite <-(assoc_L (++)).
    + rewrite length_app. simpl. lia.
    + rewrite lookup_insert_ne by done. rewrite lookup_insert_eq. f_equal.
      rewrite (assoc_L (++) dpre), insert_middle
        by (rewrite length_app, length_fmap; lia).
      rewrite fmap_app. by rewrite <-!(assoc_L (++)).
Qed.

(** [SafetyMoveOrCopy] into raw storage of another block, when nothing throws. *)
Lemma SafetyMoveOrCopy_run h nb o no orc lg bs bd spre spost dpre dpost vs soff i :
  bs ≠ bd →
  h !! bs = Some (spre ++ (Live <$> vs) ++ spost) → soff = length spre →
  h !! bd = Some (dpre ++ replicate (length vs) Raw ++ dpost) → i = length dpre →
  fails_within orc (ticks_unless nothrow_move_constructible (length vs)) = None →
  SafetyMoveOrCopy (Ptr (Some bs) soff) (Ptr (Some bd) i) (length vs)
    (World h nb o no orc lg) =
    Ok () (World (<[bs := spre ++ (Live <$> (left_behind <$> vs)) ++ spost]>
                    (<[bd := dpre ++ (Live <$> vs) ++ dpost]> h)) nb o no
                 (tick (ticks_unless nothrow_move_constructible (length vs)) orc)
                 (replicate (length vs) relocation_event ++ lg)).
Proof.
  intros Hne Hs -> Hd -> Hf.
  unfold SafetyMoveOrCopy, left_behind, relocation_event.
  destruct (nothrow_move_constructible || negb copy_constructible) eqn:Hsel.
  - unfold uninitialized_move_n.
    replace (Ptr (Some bd) (length dpre)) with (Ptr (Some bd) (length dpre + length (@nil T))) at 2
      by (simpl; by rewrite Nat.add_0_r).
    by rewrite (uninitialized_move_loop_run bs bd nb o no dpre dpost spost vs h orc lg spre _ []).
  - apply orb_false_iff in Hsel as [Hn Hc]. apply negb_false_iff in Hc.
    unfold uninitialized_copy_n.
    replace (Ptr (Some bd) (length dpre)) with (Ptr (Some bd) (length dpre + length (@nil T))) at 2
      by (simpl; by rewrite Nat.add_0_r).
    rewrite (uninitialized_copy_loop_run bs bd nb o no dpre dpost spost vs h orc lg spre _ []);
      try done.
    rewrite Hn in Hf |- *. simpl in Hf |- *. rewrite Hf.
    do 2 f_equal.
    rewrite (insert_id _ bs); [done|]. rewrite lookup_insert_ne by done.
    rewrite Hs. change (λ v : T, v) with (@id T). by rewrite list_fmap_id.
Qed.

(** [SafetyMoveOrCopy] when a construction throws and the type can be
    copied or cannot throw on move: the copies made so far are destroyed,
    nothing else has changed. *)
Lemma SafetyMoveOrCopy_fail h nb o no orc lg bs bd spre spost dpre dpost vs soff i k :
  nothrow_move_constructible || copy_constructible = true →
  bs ≠ bd →
  h !! bs = Some (spre ++ (Live <$> vs) ++ spost) → soff = length spre →
  h !! bd = Some (dpre ++ replicate (length vs) Raw ++ dpost) → i = length dpre →
  fails_within orc (ticks_unless nothrow_move_constructible (length vs)) = Some k →
  SafetyMoveOrCopy (Ptr (Some bs) soff) (Ptr (Some bd) i) (length vs)
    (World h nb o no orc lg) =
    Throw (World h nb o no None (replicate k EvDtor ++ replicate k EvCopyCtor ++ lg)).
Proof.
  intros Hstrong Hne Hs -> Hd -> Hf.
  destruct nothrow_move_constructible eqn:Hn.
  { simpl in Hf. by rewrite fails_within_0 in Hf. }
  simpl in Hstrong, Hf. unfold SafetyMoveOrCopy. rewrite Hn, Hstrong. simpl.
  unfold uninitialized_copy_n.
  replace (Ptr (Some bd) (length dpre)) with (Ptr (Some bd) (length dpre + length (@nil T))) at 2
    by (simpl; by rewrite Nat.add_0_r).
  rewrite (uninitialized_copy_loop_run bs bd nb o no dpre dpost spost vs h orc lg spre _ []);
    try done.
  rewrite Hf. simpl. by rewrite insert_id.
Qed.
End RelocationLemmas.

(** ** Shifting a range inside one block *)

Section ShiftLemmas.
Context {T : Type} `{!Elem T}.
Implicit Types (h : gmap nat (list (slot T))) (o : gmap nat Vector)
  (orc : option nat) (lg : list event) (blk pre post : list (slot T))
  (l vs : list T).

Lemma move_assign_run h nb o no orc lg b blk i j v x :
  h !! b = Some blk → blk !! i = Some (Live v) → blk !! j = Some (Live x) →
  move_assign (Ptr (Some b) j) (Ptr (Some b) i) (World h nb o no orc lg) =
    match fails_within orc (ticks_unless nothrow_move_assignable 1) with
    | None => Ok () (World (<[b := <[i := Live (moved_from v)]> (<[j := Live v]> blk)]> h)
                           nb o no (tick (ticks_unless nothrow_move_assignable 1) orc)
                           (EvMoveAssign :: lg))
    | Some _ => Throw (World h nb o no None lg)
    end.
Proof.
  intros Hb Hi Hj. unfold move_assign.
  rewrite bind_run. erewrite load_run by eauto.
  rewrite bind_run, may_throw_unless_run.
  destruct (fails_within orc _); [done|].
  rewrite bind_run. erewrite assign_at_run by eauto.
  erewrite store_run; [|apply lookup_insert_eq|].
  - by rewrite insert_insert_eq.
  - rewrite length_insert. eauto using lookup_lt_Some.
Qed.

Lemma move_construct_same_run h nb o no orc lg b blk i j v :
  h !! b = Some blk → blk !! i = Some (Live v) → blk !! j = Some Raw →
  move_construct (Ptr (Some b) j) (Ptr (Some b) i) (World h nb o no orc lg) =
    match fails_within orc (ticks_unless nothrow_move_constructible 1) with
    | None => Ok () (World (<[b := <[i := Live (moved_from v)]> (<[j := Live v]> blk)]> h)
                           nb o no (tick (ticks_unless nothrow_move_constructible 1) orc)
                           (EvMoveCtor :: lg))
    | Some _ => Throw (World h nb o no None lg)
    end.
Proof.
  intros Hb Hi Hj. unfold move_construct.
  rewrite bind_run. erewrite load_run by eauto.
  rewrite bind_run, may_throw_unless_run.
  destruct (fails_within orc _); [done|].
  rewrite bind_run. erewrite construct_at_run by eauto.
  erewrite store_run; [|apply lookup_insert_eq|].
  - by rewrite insert_insert_eq.
  - rewrite length_insert. eauto using lookup_lt_Some.
Qed.

Lemma shifted_last_cons x v vs :
  shifted_last x (v :: vs) = shifted_last (moved_from v) vs.
Proof.
  unfold shifted_last. destruct vs as [|t vs]; [done|].
  rewrite last_cons_cons.
  destruct (last (t :: vs)) eqn:E; [done|]. by apply last_None in E.
Qed.

Lemma shifted_head_snoc y vs z :
  shifted_head y (vs ++ [z]) = shifted_head (moved_from z) vs.
Proof. unfold shifted_head. destruct vs; reflexivity. Qed.

(** [std::move] of a range onto the slot before it. *)
Lemma move_n_run b nb o no post vs : ∀ h orc lg pre x i,
  h !! b = Some (pre ++ Live x :: (Live <$> vs) ++ post) → i = length pre →
  match fails_within orc (ticks_unless nothrow_move_assignable (length vs)) with
  | None =>
      move_n (Ptr (Some b) (i + 1)) (length vs) (Ptr (Some b) i) (World h nb o no orc lg)
      = Ok () (World (<[b := pre ++ (Live <$> vs) ++ Live (shifted_last x vs) :: post]> h)
                     nb o no
                     (tick (ticks_unless nothrow_move_assignable (length vs)) orc)
                     (replicate (length vs) EvMoveAssign ++ lg))
  | Some _ =>
      ∃ w', move_n (Ptr (Some b) (i + 1)) (length vs) (Ptr (Some b) i)
              (World h nb o no orc lg) = Throw w'
  end.
Proof.
  induction vs as [|v vs IH]; intros h orc lg pre x i Hb ->.
  - replace (ticks_unless _ _) with 0 by by destruct nothrow_move_assignable.
    rewrite fails_within_0, tick_0. simpl. rewrite ret_run. by rewrite insert_id.
  - cbn [length move_n]. change (S (length vs)) with (1 + length vs).
    rewrite ticks_unless_add, fails_within_split. rewrite bind_run.
    rewrite fmap_cons, <-app_comm_cons in Hb.
    erewrite move_assign_run; [|exact Hb| |by apply list_lookup_middle].
    2:{ rewrite cons_middle, (assoc_L (++)). apply list_lookup_middle.
        rewrite length_app. simpl. lia. }
    destruct (fails_within orc (ticks_unless nothrow_move_assignable 1)) as [k|]; [by eauto|].
    change (Ptr (Some b) (length pre + 1) +ₚ 1) with (Ptr (Some b) (length pre + 1 + 1)).
    change (Ptr (Some b) (length pre) +ₚ 1) with (Ptr (Some b) (length pre + 1)).
    specialize (IH (<[b:=<[length pre + 1:=Live (moved_from v)]>
                          (<[length pre:=Live v]>
                             (pre ++ Live x :: Live v :: (Live <$> vs) ++ post))]> h)
                   (tick (ticks_unless nothrow_move_assignable 1) orc)
                   (EvMoveAssign :: lg) (pre ++ [Live v]) (moved_from v) (length pre + 1)).
    destruct (fails_within (tick _ orc) _) as [k|]; cbn [fmap option_fmap option_map].
    + apply IH; [|rewrite length_app; simpl; lia].
      rewrite lookup_insert_eq. f_equal.
      rewrite insert_middle by done.
      rewrite cons_middle, (assoc_L (++)), insert_middle by (rewrite length_app; simpl; lia).
      by rewrite <-(assoc_L (++)).
    + rewrite IH; [|rewrite lookup_insert_eq|rewrite length_app; simpl; lia].
      * do 2 f_equal.
        -- rewrite insert_insert_eq. f_equal. rewrite <-(assoc_L (++)). simpl.
           by rewrite shifted_last_cons.
        -- by rewrite tick_tick.
        -- by rewrite replicate_snoc_app.
      * f_equal. rewrite insert_middle by done.
        rewrite cons_middle, (assoc_L (++)), insert_middle by (rewrite length_app; simpl; lia).
        by rewrite <-(assoc_L (++)).
Qed.

(** [std::move_backward] of a range onto the slot after it. *)
Lemma move_backward_n_run b nb o no pre vs : ∀ h orc lg post y i j,
  h !! b = Some (pre ++ (Live <$> vs) ++ Live y :: post) →
  i = length pre → j = length pre + length vs + 1 →
  match fails_within orc (ticks_unless nothrow_move_assignable (length vs)) with
  | None =>
      move_backward_n (Ptr (Some b) i) (length vs) (Ptr (Some b) j) (World h nb o no orc lg)
      = Ok () (World (<[b := pre ++ Live (shifted_head y vs) :: (Live <$> vs) ++ post]> h)
                     nb o no
                     (tick (ticks_unless nothrow_move_assignable (length vs)) orc)
                     (replicate (length vs) EvMoveAssign ++ lg))
  | Some _ =>
      ∃ w', move_backward_n (Ptr (Some b) i) (length vs) (Ptr (Some b) j)
              (World h nb o no orc lg) = Throw w'
  end.
Proof.
  induction vs as [|z vs IH] using rev_ind; intros h orc lg post y i j Hb -> ->.
  - replace (ticks_unless _ _) with 0 by by destruct nothrow_move_assignable.
    rewrite fails_within_0, tick_0. simpl. rewrite ret_run. by rewrite insert_id.
  - rewrite length_app. cbn [length]. rewrite (Nat.add_comm (length vs) 1).
    cbn [Nat.add move_backward_n].
    change (S (length vs)) with (1 + length vs).
    rewrite ticks_unless_add, fails_within_split. rewrite bind_run.
    rewrite fmap_app, <-(assoc_L (++)) in Hb.
    change (Live <$> [z]) with [Live z] in Hb. rewrite <-app_comm_cons in Hb.
    change ([] ++ Live y :: post) with (Live y :: post) in Hb.
    change (Ptr (Some b) (length pre + (1 + length vs) + 1) -ₚ 1)
      with (Ptr (Some b) (length pre + (1 + length vs) + 1 - 1)).
    change (Ptr (Some b) (length pre) +ₚ length vs)
      with (Ptr (Some b) (length pre + length vs)).
    replace (length pre + (1 + length vs) + 1 - 1) with (length pre + length vs + 1) by lia.
    erewrite move_assign_run; [|exact Hb| |].
    2:{ rewrite (assoc_L (++)). apply list_lookup_middle.
        by rewrite length_app, length_fmap. }
    2:{ rewrite (cons_middle (Live z)), !(assoc_L (++)). apply list_lookup_middle.
        rewrite !length_app, length_fmap. simpl. lia. }
    destruct (fails_within orc (ticks_unless nothrow_move_assignable 1)) as [k|]; [by eauto|].
    specialize (IH (<[b:=<[length pre + length vs:=Live (moved_from z)]>
                          (<[length pre + length vs + 1:=Live z]>
                             (pre ++ (Live <$> vs) ++ Live z :: Live y :: post))]> h)
                   (tick (ticks_unless nothrow_move_assignable 1) orc)
                   (EvMoveAssign :: lg) (Live z :: post) (moved_from z)
                   (length pre) (length pre + length vs + 1)).
    assert (<[length pre + length vs:=Live (moved_from z)]>
              (<[length pre + length vs + 1:=Live z]>
                 (pre ++ (Live <$> vs) ++ Live z :: Live y :: post))
            = pre ++ (Live <$> vs) ++ Live (moved_from z) :: Live z :: post) as Hblk.
    { rewrite (cons_middle (Live z)), !(assoc_L (++)).
      rewrite insert_middle by (rewrite !length_app, length_fmap; simpl; lia).
      rewrite <-(assoc_L (++) _ [Live z]). simpl.
      by rewrite insert_middle by (rewrite !length_app, length_fmap; simpl; lia). }
    destruct (fails_within (tick _ orc) _) as [k|]; cbn [fmap option_fmap option_map].
    + apply IH; [|done..]. rewrite lookup_insert_eq. by rewrite Hblk.
    + rewrite IH; [|rewrite lookup_insert_eq; by rewrite Hblk|done..].
      do 2 f_equal.
      * rewrite insert_insert_eq. f_equal. rewrite shifted_head_snoc.
        rewrite fmap_app. by rewrite <-(assoc_L (++)).
      * by rewrite tick_tick.
      * by rewrite replicate_snoc_app.
Qed.
Lemma move_n_throws b nb o no post vs : ∀ h orc lg pre x i k,
  h !! b = Some (pre ++ Live x :: (Live <$> vs) ++ post) → i = length pre →
  fails_within orc (ticks_unless nothrow_move_assignable (length vs)) = Some k →
  ∃ x' vs' lg', length vs' = length vs
    ∧ move_n (Ptr (Some b) (i + 1)) (length vs) (Ptr (Some b) i) (World h nb o no orc lg)
      = Throw (World (<[b := pre ++ Live x' :: (Live <$> vs') ++ post]> h) nb o no None lg').
Proof.
  induction vs as [|v vs IH]; intros h orc lg pre x i k Hb -> Hf.
  - replace (ticks_unless _ _) with 0 in Hf by by destruct nothrow_move_assignable.
    by rewrite fails_within_0 in Hf.
  - cbn [length move_n] in Hf |- *. change (S (length vs)) with (1 + length vs) in Hf.
    rewrite ticks_unless_add, fails_within_split in Hf. rewrite bind_run.
    rewrite fmap_cons, <-app_comm_cons in Hb.
    erewrite move_assign_run; [|exact Hb| |by apply list_lookup_middle].
    2:{ rewrite cons_middle, (assoc_L (++)). apply list_lookup_middle.
        rewrite length_app. simpl. lia. }
    destruct (fails_within orc (ticks_unless nothrow_move_assignable 1)) as [k1|].
    + exists x, (v :: vs), lg. split; [done|]. do 2 f_equal. by rewrite insert_id.
    + destruct (fails_within (tick _ orc) _) as [k2|] eqn:Hf2; [|done].
      change (Ptr (Some b) (length pre + 1) +ₚ 1) with (Ptr (Some b) (length pre + 1 + 1)).
      change (Ptr (Some b) (length pre) +ₚ 1) with (Ptr (Some b) (length pre + 1)).
      destruct (IH (<[b:=<[length pre + 1:=Live (moved_from v)]>
                          (<[length pre:=Live v]>
                             (pre ++ Live x :: Live v :: (Live <$> vs) ++ post))]> h)
                   (tick (ticks_unless nothrow_move_assignable 1) orc)
                   (EvMoveAssign :: lg) (pre ++ [Live v]) (moved_from v) (length pre + 1) k2)
        as (x' & vs' & lg' & Hlen & Hrun); [|rewrite length_app; simpl; lia|done|].
      { rewrite lookup_insert_eq. f_equal. rewrite insert_middle by done.
        rewrite cons_middle, (assoc_L (++)), insert_middle by (rewrite length_app; simpl; lia).
        by rewrite <-(assoc_L (++)). }
      rewrite Hrun. exists v, (x' :: vs'), lg'. split; [simpl; lia|].
      do 2 f_equal. rewrite insert_insert_eq. f_equal. by rewrite <-(assoc_L (++)).
Qed.

Lemma move_backward_n_throws b nb o no pre vs : ∀ h orc lg post y i j k,
  h !! b = Some (pre ++ (Live <$> vs) ++ Live y :: post) →
  i = length pre → j = length pre + length vs + 1 →
  fails_within orc (ticks_unless nothrow_move_assignable (length vs)) = Some k →
  ∃ vs' y' lg', length vs' = length vs
    ∧ move_backward_n (Ptr (Some b) i) (length vs) (Ptr (Some b) j) (World h nb o no orc lg)
      = Throw (World (<[b := pre ++ (Live <$> vs') ++ Live y' :: post]> h) nb o no None lg').
Proof.
  induction vs as [|z vs IH] using rev_ind; intros h orc lg post y i j k Hb -> -> Hf.
  - replace (ticks_unless _ _) with 0 in Hf by by destruct nothrow_move_assignable.
    by rewrite fails_within_0 in Hf.
  - rewrite length_app in Hf |- *. cbn [length] in Hf |- *.
    rewrite (Nat.add_comm (length vs) 1) in Hf |- *.
    cbn [Nat.add move_backward_n].
    change (S (length vs)) with (1 + length vs) in Hf |- *.
    rewrite ticks_unless_add, fails_within_split in Hf. rewrite bind_run.
    rewrite fmap_app, <-(assoc_L (++)) in Hb.
    change (Live <$> [z]) with [Live z] in Hb. rewrite <-app_comm_cons in Hb.
    change ([] ++ Live y :: post) with (Live y :: post) in Hb.
    change (Ptr (Some b) (length pre + (1 + length vs) + 1) -ₚ 1)
      with (Ptr (Some b) (length pre + (1 + length vs) + 1 - 1)).
    change (Ptr (Some b) (length pre) +ₚ length vs)
      with (Ptr (Some b) (length pre + length vs)).
    replace (length pre + (1 + length vs) + 1 - 1) with (length pre + length vs + 1) by lia.
    erewrite move_assign_run; [|exact Hb| |].
    2:{ rewrite (assoc_L (++)). apply list_lookup_middle.
        by rewrite length_app, length_fmap. }
    2:{ rewrite (cons_middle (Live z)), !(assoc_L (++)). apply list_lookup_middle.
        rewrite !length_app, length_fmap. simpl. lia. }
    destruct (fails_within orc (ticks_unless nothrow_move_assignable 1)) as [k1|].
    + exists (vs ++ [z]), y, lg. split; [rewrite length_app; simpl; lia|]. do 2 f_equal.
      rewrite insert_id; [done|]. rewrite Hb. f_equal.
      rewrite fmap_app, <-(assoc_L (++)). done.
    + destruct (fails_within (tick _ orc) _) as [k2|] eqn:Hf2; [|done].
      assert (<[length pre + length vs:=Live (moved_from z)]>
                (<[length pre + length vs + 1:=Live z]>
                   (pre ++ (Live <$> vs) ++ Live z :: Live y :: post))
              = pre ++ (Live <$> vs) ++ Live (moved_from z) :: Live z :: post) as Hblk.
      { rewrite (cons_middle (Live z)), !(assoc_L (++)).
        rewrite insert_middle by (rewrite !length_app, length_fmap; simpl; lia).
        rewrite <-(assoc_L (++) _ [Live z]). simpl.
        by rewrite insert_middle by (rewrite !length_app, length_fmap; simpl; lia). }
      destruct (IH (<[b:=<[length pre + length vs:=Live (moved_from z)]>
                          (<[length pre + length vs + 1:=Live z]>
                             (pre ++ (Live <$> vs) ++ Live z :: Live y :: post))]> h)
                   (tick (ticks_unless nothrow_move_assignable 1) orc)
                   (EvMoveAssign :: lg) (Live z :: post) (moved_from z)
                   (length pre) (length pre + length vs + 1) k2)
        as (vs' & y' & lg' & Hlen & Hrun); [|done..|].
      { rewrite lookup_insert_eq. by rewrite Hblk. }
      rewrite Hrun. exists (vs' ++ [y']), z, lg'. split.
      { rewrite !length_app. cbn [length]. lia. }
      do 2 f_equal. rewrite insert_insert_eq. f_equal.
      rewrite fmap_app, <-(assoc_L (++)). done.
Qed.

End ShiftLemmas.

(** ** Growth: [Reserve] *)

Section GrowthLemmas.
Context {T : Type} `{!Elem T}.
Implicit Types (h : gmap nat (list (slot T))) (o : gmap nat Vector)
  (orc : option nat) (lg : list event) (blk pre post : list (slot T))
  (l vs : list T) (w : world T).

Lemma live_count_app blk1 blk2 :
  live_count (blk1 ++ blk2) = live_count blk1 + live_count blk2.
Proof. unfold live_count. by rewrite filter_app, length_app. Qed.

Lemma live_count_raw n : live_count (replicate n (@Raw T)) = 0.
Proof. induction n as [|n IH]; [done|]. exact IH. Qed.

Lemma live_count_live l : live_count (Live <$> l) = length l.
Proof.
  induction l as [|x l IH]; [done|]. unfold live_count in *. rewrite fmap_cons.
  rewrite filter_cons_True by done. simpl. by rewrite IH.
Qed.

Lemma slots_of_length l cap : length l ≤ cap → length (slots_of l cap) = cap.
Proof. intros. unfold slots_of. rewrite length_app, length_fmap, length_replicate. lia. Qed.

Lemma slots_of_nil cap : slots_of [] cap = replicate cap (@Raw T).
Proof. unfold slots_of. simpl. by rewrite Nat.sub_0_r. Qed.

Lemma Deallocate_run h nb o no orc lg buf blk :
  match buf with Some b => h !! b = Some blk | None => True end →
  Deallocate buf (World h nb o no orc lg)
  = Ok () (World (released buf h) nb o no orc (release_log buf (live_count blk) ++ lg)).
Proof. intros Hb. destruct buf as [b|]; [|done]. unfold Deallocate. simpl. by rewrite Hb. Qed.

Lemma Allocate_run h nb o no orc lg n :
  n ≠ 0 →
  Allocate n (World h nb o no orc lg) =
    match fails_within orc 1 with
    | None => Ok (Some nb) (World (<[nb := replicate n Raw]> h) (S nb) o no (tick 1 orc)
                                  (EvAlloc n :: lg))
    | Some _ => Throw (World h nb o no None lg)
    end.
Proof.
  intros Hn. unfold Allocate. rewrite decide_True by done.
  rewrite bind_run, may_throw_run. by destruct (fails_within orc 1).
Qed.

Lemma get_vec_run h nb o no orc lg this v :
  o !! this = Some v → get_vec this (World h nb o no orc lg) = Ok v (World h nb o no orc lg).
Proof. intros Ho. unfold get_vec. simpl. by rewrite Ho. Qed.

Lemma set_data_run h nb o no orc lg this v d :
  o !! this = Some v →
  set_data this d (World h nb o no orc lg)
  = Ok () (World h nb (<[this := mkVector d (size_ v)]> o) no orc lg).
Proof. intros Ho. unfold set_data. rewrite bind_run. by erewrite get_vec_run. Qed.

Lemma set_size_run h nb o no orc lg this v n :
  o !! this = Some v →
  set_size this n (World h nb o no orc lg)
  = Ok () (World h nb (<[this := mkVector (data_ v) n]> o) no orc lg).
Proof. intros Ho. unfold set_size. rewrite bind_run. by erewrite get_vec_run. Qed.

Lemma begin_run h nb o no orc lg this v :
  o !! this = Some v →
  begin_ this (World h nb o no orc lg) = Ok (Ptr (buffer_ (data_ v)) 0) (World h nb o no orc lg).
Proof. intros Ho. unfold begin_. rewrite bind_run. by erewrite get_vec_run. Qed.

Lemma end_run h nb o no orc lg this v :
  o !! this = Some v →
  end_ this (World h nb o no orc lg)
  = Ok (Ptr (buffer_ (data_ v)) (size_ v)) (World h nb o no orc lg).
Proof.
  intros Ho. unfold end_. rewrite bind_run. erewrite begin_run by done.
  rewrite bind_run. by erewrite get_vec_run.
Qed.

Lemma SafetyMoveOrCopy_0 from to w : SafetyMoveOrCopy from to 0 w = Ok () w.
Proof.
  unfold SafetyMoveOrCopy.
  by destruct (nothrow_move_constructible || negb copy_constructible).
Qed.

Lemma ticks_unless_0 b : ticks_unless b 0 = 0.
Proof. by destruct b. Qed.

(** *** [Reserve] *)

Lemma Reserve_noop w this v new_capacity :
  objs w !! this = Some v → new_capacity ≤ capacity_ (data_ v) →
  Reserve this new_capacity w = Ok () w.
Proof.
  intros Ho Hle. destruct w as [h nb o no orc lg]. simpl in Ho.
  unfold Reserve. rewrite bind_run. erewrite get_vec_run by done.
  by rewrite decide_True.
Qed.

Lemma Reserve_run w this buf cap l new_capacity :
  vec_inv w this buf cap l → cap < new_capacity →
  fails_within (oracle w) (1 + ticks_unless nothrow_move_constructible (length l)) = None →
  Reserve this new_capacity w =
    Ok () (World (<[next_block w := slots_of l new_capacity]> (released buf (heap w)))
                 (S (next_block w))
                 (<[this := mkVector (mkRawMemory (Some (next_block w)) new_capacity)
                                     (length l)]> (objs w))
                 (next_obj w)
                 (tick (1 + ticks_unless nothrow_move_constructible (length l)) (oracle w))
                 (release_log buf 0 ++ replicate (length l) EvDtor
                    ++ replicate (length l) relocation_event
                    ++ EvAlloc new_capacity :: log w)).
Proof.
  intros [Ho Hlen Hblk Hfresh] Hcap Hf. destruct w as [h nb o no orc lg].
  unfold heap_fresh in Hfresh. simpl in *.
  apply (fails_within_None _ 1) in Hf as [Hf1 Hf2].
  unfold Reserve. rewrite bind_run. erewrite get_vec_run by done.
  cbn [data_ capacity_ size_]. rewrite decide_False by lia.
  rewrite bind_run. unfold RawMemory_ctor. rewrite bind_run.
  rewrite Allocate_run by lia. rewrite Hf1. rewrite ret_run.
  rewrite bind_run. unfold unwinding_RawMemory, on_throw.
  rewrite bind_run. erewrite begin_run by done. unfold GetAddress. cbn [data_ buffer_].
  rewrite bind_run.
  assert (Hnb : h !! nb = None) by (apply Hfresh; lia).
  destruct buf as [b|].
  - assert (b ≠ nb) as Hne by (intros ->; congruence).
    erewrite (SafetyMoveOrCopy_run _ _ _ _ _ _ b nb [] (replicate (cap - length l) Raw)
                [] (replicate (new_capacity - length l) Raw) l); try done.
    2:{ by rewrite lookup_insert_ne. }
    2:{ rewrite lookup_insert_eq. simpl. f_equal. rewrite <-replicate_add. f_equal. lia. }
    rewrite <-(length_fmap left_behind l) at 1 2.
    erewrite (destroy_n_run _ _ _ _ _ _ _ b 0 []); [|by rewrite lookup_insert_eq|done].
    rewrite insert_insert_eq.
    unfold RawMemory_Swap. cbn [buffer_ capacity_].
    rewrite bind_run. erewrite set_data_run by done. cbn [size_].
    unfold RawMemory_dtor. cbn [buffer_].
    erewrite (Deallocate_run _ _ _ _ _ _ (Some b)); [|by rewrite lookup_insert_eq].
    rewrite !app_nil_l, live_count_app, !live_count_raw, !length_fmap.
    unfold released, slots_of. do 2 f_equal.
    + rewrite delete_insert_eq, insert_insert_eq. by rewrite delete_insert_ne.
    + by rewrite tick_tick.
  - subst cap. assert (l = []) as -> by (destruct l; [done|simpl in Hlen; lia]).
    cbn [length]. rewrite SafetyMoveOrCopy_0. cbn [destroy_n]. rewrite ret_run.
    unfold RawMemory_Swap. cbn [buffer_ capacity_].
    rewrite bind_run. erewrite set_data_run by done.
    rewrite slots_of_nil, ticks_unless_0. simpl. done.
Qed.

Lemma fails_within_1 orc k : fails_within orc 1 = Some k → k = 0.
Proof. intros Hk. apply fails_within_lt in Hk. lia. Qed.

Lemma Reserve_fail w this buf cap l new_capacity k :
  nothrow_move_constructible || copy_constructible = true →
  vec_inv w this buf cap l → cap < new_capacity →
  fails_within (oracle w) (1 + ticks_unless nothrow_move_constructible (length l)) = Some k →
  Reserve this new_capacity w =
    Throw (World (heap w) (next_block_after k (next_block w)) (objs w) (next_obj w) None
                 (Reserve_unwind_log new_capacity k ++ log w)).
Proof.
  intros Hstrong [Ho Hlen Hblk Hfresh] Hcap Hf. destruct w as [h nb o no orc lg].
  unfold heap_fresh in Hfresh. cbn [heap next_block objs next_obj oracle log] in *.
  rewrite fails_within_split in Hf.
  unfold Reserve. rewrite bind_run. erewrite get_vec_run by done.
  cbn [data_ capacity_ size_]. rewrite decide_False by lia.
  rewrite bind_run. unfold RawMemory_ctor. rewrite bind_run.
  rewrite Allocate_run by lia.
  destruct (fails_within orc 1) as [k0|] eqn:Hf1.
  { apply fails_within_1 in Hf1 as ->. by injection Hf as <-. }
  rewrite ret_run.
  destruct (fails_within (tick 1 orc) _) as [j|] eqn:Hf2; [|done].
  injection Hf as <-.
  rewrite bind_run. unfold unwinding_RawMemory, on_throw.
  rewrite bind_run. erewrite begin_run by done. unfold GetAddress. cbn [data_ buffer_].
  rewrite bind_run.
  assert (Hnb : h !! nb = None) by (apply Hfresh; lia).
  destruct buf as [b|].
  - assert (b ≠ nb) as Hne by (intros ->; congruence).
    erewrite (SafetyMoveOrCopy_fail _ _ _ _ _ _ b nb [] (replicate (cap - length l) Raw)
                [] (replicate (new_capacity - length l) Raw) l); try done.
    2:{ by rewrite lookup_insert_ne. }
    2:{ rewrite lookup_insert_eq. simpl. f_equal. rewrite <-replicate_add. f_equal. lia. }
    unfold RawMemory_dtor. cbn [buffer_].
    erewrite (Deallocate_run _ _ _ _ _ _ (Some nb)); [|by rewrite lookup_insert_eq].
    rewrite live_count_raw. unfold released. rewrite delete_insert_id by done.
    simpl. by rewrite <-!(assoc_L (++)).
  - subst cap. assert (l = []) as -> by (destruct l; [done|simpl in Hlen; lia]).
    simpl in Hf2. by rewrite ticks_unless_0, fails_within_0 in Hf2.
Qed.
End GrowthLemmas.

(** ** Growth: the relocating path of [Emplace] *)

Section RelocatingEmplace.
Context {T : Type} `{!Elem T}.
Implicit Types (h : gmap nat (list (slot T))) (o : gmap nat Vector)
  (orc : option nat) (lg : list event) (blk pre post : list (slot T))
  (l vs : list T) (w : world T).

Lemma grown_capacity_gt n : n < grown_capacity n.
Proof. unfold grown_capacity. case_decide; lia. Qed.

Lemma live_count_cons_raw blk : live_count (Raw :: blk) = live_count blk.
Proof. unfold live_count. rewrite filter_cons_False; [done|]. simpl. tauto. Qed.

Lemma construct_from_run h nb o no orc lg b i blk a :
  args_ok a → h !! b = Some blk → blk !! i = Some Raw →
  construct_from (Ptr (Some b) i) a (World h nb o no orc lg) =
    match fails_within orc (args_ticks a) with
    | None => Ok () (World (<[b := <[i := Live (args_value a)]> blk]> h) nb o no
                           (tick (args_ticks a) orc) (args_event a :: lg))
    | Some _ => Throw (World h nb o no None lg)
    end.
Proof.
  intros Hok Hb Hi. destruct a as [v|v|v]; simpl in *.
  - rewrite Hok. rewrite bind_run, may_throw_run.
    destruct (fails_within orc 1); [done|]. by erewrite construct_at_run.
  - rewrite bind_run, may_throw_unless_run.
    destruct (fails_within orc _); [done|]. by erewrite construct_at_run.
  - rewrite bind_run, may_throw_run.
    destruct (fails_within orc 1); [done|]. by erewrite construct_at_run.
Qed.

Lemma EmplaceWithRelocate_run w this buf l1 l2 a :
  vec_inv w this buf (length (l1 ++ l2)) (l1 ++ l2) → args_ok a →
  fails_within (oracle w) (relocate_ticks a (length l1) (length l2)) = None →
  EmplaceWithRelocate this (length l1) a w =
    Ok () (World
      (<[next_block w := slots_of (l1 ++ args_value a :: l2)
                                  (grown_capacity (length (l1 ++ l2)))]>
         (released buf (heap w)))
      (S (next_block w))
      (<[this := mkVector (mkRawMemory (Some (next_block w))
                                       (grown_capacity (length (l1 ++ l2))))
                          (length (l1 ++ l2))]> (objs w))
      (next_obj w)
      (tick (relocate_ticks a (length l1) (length l2)) (oracle w))
      (release_log buf 0 ++ replicate (length (l1 ++ l2)) EvDtor
         ++ replicate (length l2) relocation_event
         ++ replicate (length l1) relocation_event
         ++ args_event a :: EvAlloc (grown_capacity (length (l1 ++ l2))) :: log w)).
Proof.
  intros [Ho Hlen Hblk Hfresh] Hok Hf. destruct w as [h nb o no orc lg].
  unfold heap_fresh in Hfresh. cbn [heap next_block objs next_obj oracle log] in *.
  unfold relocate_ticks in *.
  apply fails_within_None in Hf as [Hf1 Hf].
  apply fails_within_None in Hf as [Hf2 Hf].
  apply fails_within_None in Hf as [Hf3 Hf4].
  set (n := length (l1 ++ l2)) in *. set (cap' := grown_capacity n).
  assert (Hn : n = length l1 + length l2) by (unfold n; by rewrite length_app).
  assert (Hcap' : n < cap') by apply grown_capacity_gt.
  assert (Hnb : h !! nb = None) by (apply Hfresh; lia).
  unfold EmplaceWithRelocate. rewrite bind_run. erewrite get_vec_run by done.
  cbn [data_ capacity_ size_ buffer_]. fold (grown_capacity n). fold cap'.
  rewrite bind_run. unfold RawMemory_ctor. rewrite bind_run.
  rewrite Allocate_run by lia. rewrite Hf1, ret_run.
  rewrite bind_run. unfold unwinding_RawMemory, on_throw at 1.
  rewrite bind_run. unfold GetAddress, ptr_add. cbn [buffer_ base off]. rewrite !Nat.add_0_l.
  erewrite construct_from_run; [|done|apply lookup_insert_eq|].
  2:{ apply lookup_replicate_2. lia. }
  rewrite Hf2. rewrite insert_insert_eq.
  rewrite insert_replicate_lt by lia.
  rewrite bind_run. erewrite begin_run by done. cbn [data_ buffer_].
  destruct buf as [b|].
  - assert (b ≠ nb) as Hne by (intros ->; congruence).
    unfold slots_of in Hblk. rewrite Nat.sub_diag in Hblk. simpl in Hblk.
    rewrite app_nil_r, fmap_app in Hblk.
    rewrite bind_run. unfold on_throw.
    (* the prefix *)
    erewrite (SafetyMoveOrCopy_run _ _ _ _ _ _ b nb [] (Live <$> l2)
                [] (Live (args_value a) :: replicate (cap' - S (length l1)) Raw) l1);
      [|done|by rewrite lookup_insert_ne|done|by rewrite lookup_insert_eq|done|done].
    rewrite !app_nil_l.
    (* the suffix *)
    rewrite bind_run.
    replace (n - length l1) with (length l2) by lia.
    erewrite (SafetyMoveOrCopy_run _ _ _ _ _ _ b nb (Live <$> (left_behind <$> l1)) []
                ((Live <$> l1) ++ [Live (args_value a)])
                (replicate (cap' - S n) Raw) l2);
      [|done|by rewrite lookup_insert_eq, app_nil_r|by rewrite !length_fmap| |
        rewrite length_app, length_fmap; simpl; lia|done].
    2:{ rewrite lookup_insert_ne, lookup_insert_eq by done. f_equal.
        rewrite <-(assoc_L (++)). simpl. do 2 f_equal.
        rewrite <-replicate_add. f_equal. lia. }
    (* the old elements *)
    rewrite app_nil_r, <-fmap_app, <-fmap_app.
    replace n with (length (left_behind <$> l1 ++ l2)) at 1 by by rewrite length_fmap.
    erewrite (destroy_n_run _ _ _ _ _ _ _ b 0 [] []);
      [|by rewrite lookup_insert_eq, app_nil_r|done].
    rewrite length_fmap. fold n.
    unfold RawMemory_Swap. cbn [buffer_ capacity_].
    rewrite bind_run. erewrite set_data_run by done. cbn [size_].
    unfold RawMemory_dtor. cbn [buffer_].
    erewrite (Deallocate_run _ _ _ _ _ _ (Some b)); [|by rewrite lookup_insert_eq].
    rewrite !app_nil_l, app_nil_r, live_count_raw.
    do 2 f_equal.
    + unfold released. apply map_eq. intros i.
      destruct (decide (i = b)) as [->|Hib]; [by rewrite lookup_delete_eq, lookup_insert_ne, lookup_delete_eq|].
      rewrite lookup_delete_ne by done. rewrite !(lookup_insert_ne _ b i) by done.
      destruct (decide (i = nb)) as [->|Hinb].
      * rewrite !lookup_insert_eq. f_equal. unfold slots_of.
        replace (length (l1 ++ args_value a :: l2)) with (S n)
          by (rewrite length_app; simpl; lia).
        rewrite fmap_app, fmap_cons, <-!(assoc_L (++)). done.
      * rewrite !lookup_insert_ne by done. by rewrite lookup_delete_ne.
    + by rewrite !tick_tick.
  - assert (n = 0) as Hn0 by lia.
    assert (l1 = []) as -> by (destruct l1; [done|simpl in Hn; lia]).
    assert (l2 = []) as -> by (destruct l2; [done|simpl in Hn; lia]).
    cbn [length app] in *. unfold cap', grown_capacity. rewrite Hn0.
    rewrite bind_run. unfold on_throw. rewrite SafetyMoveOrCopy_0.
    rewrite bind_run. cbn [ptr_add Nat.sub base off]. rewrite SafetyMoveOrCopy_0.
    cbn [destroy_n]. rewrite ret_run.
    unfold RawMemory_Swap. cbn [buffer_ capacity_].
    rewrite bind_run. erewrite set_data_run by done.
    rewrite !ticks_unless_0. simpl. rewrite !tick_tick. do 2 f_equal. f_equal. lia.
Qed.

Lemma EmplaceWithRelocate_fail w this buf l1 l2 a k :
  nothrow_move_constructible || copy_constructible = true →
  vec_inv w this buf (length (l1 ++ l2)) (l1 ++ l2) → args_ok a →
  fails_within (oracle w) (relocate_ticks a (length l1) (length l2)) = Some k →
  EmplaceWithRelocate this (length l1) a w =
    Throw (World (heap w) (next_block_after k (next_block w)) (objs w) (next_obj w) None
                 (EmplaceWithRelocate_unwind_log a (length l1) (length l2) k ++ log w)).
Proof.
  intros Hstrong [Ho Hlen Hblk Hfresh] Hok Hf. destruct w as [h nb o no orc lg].
  unfold heap_fresh in Hfresh. cbn [heap next_block objs next_obj oracle log] in *.
  unfold relocate_ticks in *.
  set (n := length (l1 ++ l2)) in *. set (cap' := grown_capacity n).
  assert (Hn : n = length l1 + length l2) by (unfold n; by rewrite length_app).
  assert (Hcap' : n < cap') by apply grown_capacity_gt.
  assert (Hnb : h !! nb = None) by (apply Hfresh; lia).
  assert (Hta : args_ticks a ≤ 1).
  { destruct a; simpl; try lia. apply ticks_unless_le. }
  unfold EmplaceWithRelocate_unwind_log. rewrite <-Hn. fold cap'.
  unfold EmplaceWithRelocate. rewrite bind_run. erewrite get_vec_run by done.
  cbn [data_ capacity_ size_ buffer_]. fold (grown_capacity n). fold cap'.
  rewrite bind_run. unfold RawMemory_ctor. rewrite bind_run.
  rewrite Allocate_run by lia.
  rewrite fails_within_split in Hf.
  destruct (fails_within orc 1) as [k0|] eqn:Hf1.
  { apply fails_within_1 in Hf1 as ->. injection Hf as <-. by rewrite decide_True. }
  rewrite ret_run.
  rewrite bind_run. unfold unwinding_RawMemory, on_throw at 1.
  rewrite bind_run. unfold GetAddress, ptr_add. cbn [buffer_ base off]. rewrite !Nat.add_0_l.
  erewrite construct_from_run; [|done|apply lookup_insert_eq|].
  2:{ apply lookup_replicate_2. lia. }
  rewrite fails_within_split in Hf.
  destruct (fails_within (tick 1 orc) (args_ticks a)) as [k1|] eqn:Hf2.
  { apply fails_within_lt in Hf2 as [Hk1 _]. injection Hf as <-.
    unfold RawMemory_dtor. cbn [buffer_].
    erewrite (Deallocate_run _ _ _ _ _ _ (Some nb)); [|by rewrite lookup_insert_eq].
    rewrite live_count_raw. unfold released. rewrite delete_insert_id by done.
    rewrite decide_False, decide_True by lia. done. }
  rewrite insert_insert_eq.
  rewrite insert_replicate_lt by lia.
  rewrite bind_run. erewrite begin_run by done. cbn [data_ buffer_].
  rewrite fails_within_split in Hf.
  destruct nothrow_move_constructible eqn:Hnmc.
  { simpl in Hf. rewrite !fails_within_0 in Hf. done. }
  simpl in Hstrong. cbn [ticks_unless] in Hf.
  destruct buf as [b|].
  - assert (b ≠ nb) as Hne by (intros ->; congruence).
    unfold slots_of in Hblk. rewrite Nat.sub_diag in Hblk. simpl in Hblk.
    rewrite app_nil_r, fmap_app in Hblk.
    rewrite bind_run. unfold on_throw.
    destruct (fails_within (tick (args_ticks a) (tick 1 orc)) (length l1)) as [j|] eqn:Hf3.
    + (* a copy of the prefix throws *)
      pose proof (fails_within_lt _ _ _ Hf3) as [Hj _]. injection Hf as <-.
      erewrite (SafetyMoveOrCopy_fail _ _ _ _ _ _ b nb [] (Live <$> l2)
                [] (Live (args_value a) :: replicate (cap' - S (length l1)) Raw) l1);
        [|by rewrite Hnmc|done|by rewrite lookup_insert_ne|done|by rewrite lookup_insert_eq|
          done|by rewrite Hnmc].
      cbn [destroy_n]. rewrite bind_run.
      erewrite destroy_at_run;
        [|apply lookup_insert_eq|apply list_lookup_middle; by rewrite length_replicate].
      rewrite ret_run, insert_insert_eq, insert_middle by by rewrite length_replicate.
      unfold RawMemory_dtor. cbn [buffer_].
      erewrite (Deallocate_run _ _ _ _ _ _ (Some nb)); [|by rewrite lookup_insert_eq].
      rewrite live_count_app, live_count_cons_raw, !live_count_raw.
      unfold released. rewrite delete_insert_id by done.
      rewrite decide_False, decide_False, decide_True by lia.
      replace (1 + (args_ticks a + j) - (1 + args_ticks a)) with j by lia.
      simpl. by rewrite <-!(assoc_L (++)).
    + (* a copy of the suffix throws *)
      destruct (fails_within _ (length l2)) as [j|] eqn:Hf4; [|done].
      pose proof (fails_within_lt _ _ _ Hf4) as [Hj _]. injection Hf as <-.
      erewrite (SafetyMoveOrCopy_run _ _ _ _ _ _ b nb [] (Live <$> l2)
                [] (Live (args_value a) :: replicate (cap' - S (length l1)) Raw) l1);
        [|done|by rewrite lookup_insert_ne|done|by rewrite lookup_insert_eq|done|
          by rewrite Hnmc].
      rewrite !app_nil_l. rewrite Hnmc. cbn [ticks_unless].
      rewrite bind_run.
      replace (n - length l1) with (length l2) by lia.
      erewrite (SafetyMoveOrCopy_fail _ _ _ _ _ _ b nb (Live <$> (left_behind <$> l1)) []
                ((Live <$> l1) ++ [Live (args_value a)])
                (replicate (cap' - S n) Raw) l2);
        [|by rewrite Hnmc|done|by rewrite lookup_insert_eq, app_nil_r|by rewrite !length_fmap| |
          rewrite length_app, length_fmap; simpl; lia|by rewrite Hnmc].
      2:{ rewrite lookup_insert_ne, lookup_insert_eq by done. f_equal.
          rewrite <-(assoc_L (++)). simpl. do 2 f_equal.
          rewrite <-replicate_add. f_equal. lia. }
      replace (length l1 + 1) with (length (l1 ++ [args_value a]))
        by (rewrite length_app; simpl; lia).
      erewrite (destroy_n_run _ _ _ _ _ _ _ nb 0 [] (replicate (cap' - S (length l1)) Raw));
        [| |done].
      2:{ rewrite lookup_insert_ne, lookup_insert_eq by done. f_equal.
          rewrite fmap_app. simpl. by rewrite <-(assoc_L (++)). }
      unfold RawMemory_dtor. cbn [buffer_].
      erewrite (Deallocate_run _ _ _ _ _ _ (Some nb)); [|by rewrite lookup_insert_eq].
      rewrite !app_nil_l, live_count_app, !live_count_raw.
      unfold released. rewrite delete_insert_eq.
      rewrite decide_False, decide_False, decide_False by lia.
      replace (1 + (args_ticks a + (length l1 + j)) - (1 + args_ticks a + length l1))
        with j by lia.
      do 2 f_equal.
      * apply map_eq. intros i. unfold relocation_event, left_behind.
        rewrite Hnmc, Hstrong. simpl.
        change (λ v : T, v) with (@id T). rewrite list_fmap_id.
        destruct (decide (i = nb)) as [->|Hi]; [by rewrite lookup_delete_eq|].
        rewrite lookup_delete_ne by done.
        destruct (decide (i = b)) as [->|Hib].
        -- by rewrite lookup_insert_eq.
        -- by rewrite lookup_insert_ne, lookup_insert_ne, lookup_insert_ne.
      * unfold relocation_event. rewrite Hnmc, Hstrong. simpl.
        rewrite length_app. simpl. by rewrite <-!(assoc_L (++)).
  - assert (n = 0) as Hn0 by lia.
    assert (l1 = []) as -> by (destruct l1; [done|simpl in Hn; lia]).
    assert (l2 = []) as -> by (destruct l2; [done|simpl in Hn; lia]).
    cbn [length] in Hf. by rewrite !fails_within_0 in Hf.
Qed.
End RelocatingEmplace.

(** ** The in-place path of [Emplace] *)

Section InPlaceEmplace.
Context {T : Type} `{!Elem T}.
Implicit Types (h : gmap nat (list (slot T))) (o : gmap nat Vector)
  (orc : option nat) (lg : list event) (blk pre post : list (slot T))
  (l vs : list T) (w : world T).

Lemma on_throw_run {A} (m : M T A) (hd : M T unit) w :
  on_throw m hd w =
    match m w with
    | Throw w' =>
        match hd w' with
        | Ok _ w'' => Throw w''
        | Throw w'' => Throw w''
        | Fault e => Fault e
        end
    | r => r
    end.
Proof. reflexivity. Qed.

Lemma assert_run (c : bool) w : c = true → (assert c : M T unit) w = Ok () w.
Proof. by intros ->. Qed.

Lemma RawMemory_at_run d index w :
  index < capacity_ d → RawMemory_at d index w = Ok (Ptr (buffer_ d) index) w.
Proof.
  intros Hi. unfold RawMemory_at. rewrite bind_run, assert_run; [done|].
  by apply bool_decide_eq_true_2.
Qed.

Lemma distance_run (p q : ptr) w :
  base p = base q → off p ≤ off q → distance p q w = Ok (off q - off p) w.
Proof. intros Hb Ho. unfold distance. by rewrite decide_True. Qed.

Lemma construct_local_run h nb o no orc lg a :
  args_ok a →
  construct_local a (World h nb o no orc lg) =
    match fails_within orc (args_ticks a) with
    | None => Ok (args_value a) (World h nb o no (tick (args_ticks a) orc) (args_event a :: lg))
    | Some _ => Throw (World h nb o no None lg)
    end.
Proof.
  intros Hok. destruct a as [v|v|v]; simpl in *.
  - rewrite Hok. rewrite bind_run, may_throw_run. by destruct (fails_within orc 1).
  - rewrite bind_run, may_throw_unless_run. by destruct (fails_within orc _).
  - rewrite bind_run, may_throw_run. by destruct (fails_within orc 1).
Qed.

Lemma slots_of_lookup_raw l cap i :
  length l ≤ i → i < cap → slots_of l cap !! i = Some Raw.
Proof.
  intros Hl Hc. unfold slots_of. rewrite lookup_app_r by by rewrite length_fmap.
  rewrite length_fmap. apply lookup_replicate_2. lia.
Qed.

Lemma slots_of_snoc l v cap :
  length l < cap → <[length l := Live v]> (slots_of l cap) = slots_of (l ++ [v]) cap.
Proof.
  intros Hl. unfold slots_of.
  replace (cap - length l) with (S (cap - length (l ++ [v])))
    by (rewrite length_app; simpl; lia).
  simpl. rewrite insert_middle by by rewrite length_fmap.
  rewrite fmap_app. simpl. by rewrite <-(assoc_L (++)).
Qed.

Lemma EmplaceWithoutRelocate_run w this b cap l1 l2 a :
  vec_inv w this (Some b) cap (l1 ++ l2) → length (l1 ++ l2) < cap → args_ok a →
  match fails_within (oracle w) (inplace_ticks a (length l2)) with
  | None =>
      EmplaceWithoutRelocate this (length l1) a w =
        Ok () (World (<[b := slots_of (l1 ++ args_value a :: l2) cap]> (heap w))
                     (next_block w) (objs w) (next_obj w)
                     (tick (inplace_ticks a (length l2)) (oracle w))
                     (inplace_log a (length l2) ++ log w))
  | Some _ => ∃ w', EmplaceWithoutRelocate this (length l1) a w = Throw w'
  end.
Proof.
  intros [Ho Hlen Hblk Hfresh] Hcap Hok. destruct w as [h nb o no orc lg].
  cbn [heap next_block objs next_obj oracle log] in *.
  unfold EmplaceWithoutRelocate. rewrite bind_run. erewrite get_vec_run by done.
  cbn [data_ capacity_ size_ buffer_].
  destruct l2 as [|z l2 _] using rev_ind.
  - rewrite app_nil_r in *. rewrite decide_False by (intros ?; done).
    rewrite bind_run. erewrite begin_run by done. cbn [data_ buffer_].
    unfold ptr_add. cbn [base off length inplace_ticks inplace_log]. rewrite Nat.add_0_l.
    erewrite construct_from_run; [|done|exact Hblk|by apply slots_of_lookup_raw].
    destruct (fails_within orc (args_ticks a)); [by eexists|].
    by rewrite slots_of_snoc.
  - rewrite decide_True by (rewrite !length_app; simpl; lia).
    rewrite (length_app l2), Nat.add_comm. cbn [length Nat.add inplace_ticks inplace_log].
    rewrite bind_run, construct_local_run by done.
    rewrite fails_within_split.
    destruct (fails_within orc (args_ticks a)) as [k|]; [by eexists|].
    unfold with_local_T. rewrite bind_run, on_throw_run.
    rewrite bind_run. erewrite begin_run by done. cbn [data_ buffer_].
    rewrite bind_run, RawMemory_at_run by (cbn [capacity_]; lia). cbn [buffer_].
    unfold ptr_add. cbn [base off]. rewrite !Nat.add_0_l.
    set (n := length (l1 ++ l2 ++ [z])) in *.
    assert (Hn : n = length l1 + length l2 + 1)
      by (unfold n; rewrite !length_app; simpl; lia).
    assert (Hb0 : slots_of (l1 ++ l2 ++ [z]) cap
                  = ((Live <$> l1) ++ (Live <$> l2)) ++ Live z :: Raw :: replicate (cap - n - 1) Raw).
    { unfold slots_of. fold n. rewrite !fmap_app, <-!(assoc_L (++)).
      replace (cap - n) with (S (cap - n - 1)) at 1 by lia. done. }
    rewrite Hb0 in Hblk.
    rewrite bind_run.
    erewrite move_construct_same_run; [|exact Hblk| |].
    2:{ apply list_lookup_middle. rewrite length_app, !length_fmap. lia. }
    2:{ rewrite (cons_middle (Live z)), (assoc_L (++)). apply list_lookup_middle.
        rewrite !length_app, !length_fmap. simpl. lia. }
    rewrite fails_within_split.
    destruct (fails_within (tick (args_ticks a) orc) _) as [k|]; [by eexists|].
    cbn [fmap option_fmap option_map].
    rewrite (cons_middle (Live z)), (assoc_L (++) _ [Live z]).
    rewrite insert_middle by (rewrite !length_app, !length_fmap; simpl; lia).
    rewrite <-(assoc_L (++) _ [Live z]). cbn [app].
    rewrite insert_middle by (rewrite !length_app, !length_fmap; simpl; lia).
    rewrite <-(assoc_L (++)).
    rewrite bind_run, on_throw_run.
    rewrite bind_run. erewrite end_run by done. cbn [data_ buffer_ size_].
    unfold move_backward. rewrite bind_run, distance_run by (cbn [base off ptr_sub]; done || lia).
    unfold ptr_sub. cbn [base off].
    replace (n - 1 - length l1) with (length l2) by lia.
    pose proof (move_backward_n_run b nb o no (Live <$> l1) l2
                  (<[b := (Live <$> l1) ++ (Live <$> l2)
                           ++ Live (moved_from z) :: Live z :: replicate (cap - n - 1) Raw]> h)
                  (tick (ticks_unless nothrow_move_constructible 1) (tick (args_ticks a) orc))
                  (EvMoveCtor :: args_event a :: lg)
                  (Live z :: replicate (cap - n - 1) Raw) (moved_from z)
                  (length l1) n) as Hmb.
    rewrite lookup_insert_eq, length_fmap in Hmb.
    specialize (Hmb eq_refl eq_refl Hn).
    rewrite fails_within_split.
    destruct (fails_within (tick _ (tick _ orc)) (ticks_unless nothrow_move_assignable (length l2)))
      as [k|] eqn:Hf3.
    { clear Hmb.
      destruct (move_backward_n_throws b nb o no (Live <$> l1) l2
                  (<[b := (Live <$> l1) ++ (Live <$> l2)
                           ++ Live (moved_from z) :: Live z :: replicate (cap - n - 1) Raw]> h)
                  (tick (ticks_unless nothrow_move_constructible 1) (tick (args_ticks a) orc))
                  (EvMoveCtor :: args_event a :: lg)
                  (Live z :: replicate (cap - n - 1) Raw) (moved_from z)
                  (length l1) n k) as (vs' & y' & lg' & Hlen' & ->);
        [by rewrite lookup_insert_eq|by rewrite length_fmap|rewrite length_fmap; lia|done|].
      rewrite insert_insert_eq.
      erewrite (destroy_n_run [z] _ _ _ _ _ _ b n
                  ((Live <$> l1) ++ (Live <$> vs') ++ [Live y']));
        [by eexists| |rewrite !length_app, !length_fmap; simpl; lia].
      rewrite lookup_insert_eq. f_equal. by rewrite <-!(assoc_L (++)). }
    cbn [fmap option_fmap option_map].
    rewrite Hmb. rewrite insert_insert_eq.
    rewrite bind_run, RawMemory_at_run by (cbn [capacity_]; lia). cbn [buffer_].
    rewrite bind_run, may_throw_unless_run.
    destruct (fails_within _ (ticks_unless nothrow_move_assignable 1)) as [k|]; [by eexists|].
    cbn [fmap option_fmap option_map].
    erewrite assign_at_run; [|apply lookup_insert_eq|apply list_lookup_middle; by rewrite length_fmap].
    rewrite bind_run. unfold emit at 1. rewrite ret_run.
    unfold emit_w. cbn [heap next_block objs next_obj oracle log].
    do 2 f_equal.
    + rewrite insert_insert_eq. f_equal.
      rewrite insert_middle by by rewrite length_fmap.
      unfold slots_of. fold n.
      replace (length (l1 ++ args_value a :: l2 ++ [z])) with (S n)
        by (rewrite !length_app; simpl; rewrite length_app; simpl; lia).
      replace (cap - S n) with (cap - n - 1) by lia.
      by list_norm.
    + by rewrite !tick_tick.
    + by rewrite <-!(assoc_L (++)).
Qed.
End InPlaceEmplace.

(** ** Move constructors that throw *)

Section ThrowingMoves.
Context {T : Type} `{!Elem T}.
Implicit Types (h : gmap nat (list (slot T))) (o : gmap nat Vector)
  (orc : option nat) (lg : list event) (blk pre post : list (slot T))
  (l vs : list T) (w : world T).

Lemma same_blocks_refl w : same_blocks w w.
Proof. by intros b. Qed.

Lemma same_blocks_trans w1 w2 w3 :
  same_blocks w1 w2 → same_blocks w2 w3 → same_blocks w1 w3.
Proof. intros H12 H23 b. by rewrite (H23 b), (H12 b). Qed.

Lemma same_blocks_insert h nb o no orc lg nb' o' no' orc' lg' b blk blk' :
  h !! b = Some blk →
  same_blocks (World h nb o no orc lg) (World (<[b := blk']> h) nb' o' no' orc' lg').
Proof.
  intros Hb b'. simpl. destruct (decide (b' = b)) as [->|].
  - rewrite lookup_insert_eq, Hb. split; eauto.
  - by rewrite lookup_insert_ne.
Qed.

(** A move construction between two blocks that throws part of the way:
    the call is left by the exception, with the same blocks allocated. *)
Lemma uninitialized_move_loop_throws bs bd nb o no dpre dpost spost vs :
  ∀ h orc lg spre soff done i k,
  bs ≠ bd →
  h !! bs = Some (spre ++ (Live <$> vs) ++ spost) → soff = length spre →
  h !! bd = Some (dpre ++ (Live <$> done) ++ replicate (length vs) Raw ++ dpost) →
  i = length dpre →
  fails_within orc (ticks_unless nothrow_move_constructible (length vs)) = Some k →
  ∃ h' lg',
    uninitialized_loop move_construct (Ptr (Some bs) soff) (length vs)
      (Ptr (Some bd) i) (Ptr (Some bd) (i + length done)) (World h nb o no orc lg)
    = Throw (World h' nb o no None lg')
    ∧ same_blocks (World h nb o no orc lg) (World h' nb o no None lg')
    ∧ h' !! bd = Some (dpre ++ replicate (length done + length vs) Raw ++ dpost).
Proof.
  induction vs as [|v vs IH]; intros h orc lg spre soff done i k Hne Hs -> Hd -> Hf.
  - simpl in Hf. by rewrite ticks_unless_0, fails_within_0 in Hf.
  - cbn [length uninitialized_loop]. rewrite bind_run.
    rewrite fmap_cons, <-app_comm_cons in Hs.
    cbn [length] in Hf, Hd. rewrite replicate_S, <-app_comm_cons in Hd.
    change (S (length vs)) with (1 + length vs) in Hf.
    rewrite ticks_unless_add, fails_within_split in Hf.
    rewrite on_throw_run.
    erewrite move_construct_run; [|done|exact Hs|by apply list_lookup_middle|exact Hd|].
    2:{ rewrite (assoc_L (++)). apply list_lookup_middle. by rewrite length_app, length_fmap. }
    destruct (fails_within orc (ticks_unless nothrow_move_constructible 1)) as [k1|].
    + cbn [off]. replace (length dpre + length done - length dpre) with (length done) by lia.
      erewrite destroy_n_run; [|exact Hd|done].
      eexists _, _. split; [done|]. split; [by eapply same_blocks_insert|].
      rewrite lookup_insert_eq. f_equal. rewrite replicate_add. cbn [replicate].
      by rewrite <-(assoc_L (++)).
    + destruct (fails_within (tick _ orc) _) as [k2|] eqn:Hf2; [|done].
      change (Ptr (Some bs) (length spre) +ₚ 1) with (Ptr (Some bs) (length spre + 1)).
      change (Ptr (Some bd) (length dpre + length done) +ₚ 1)
        with (Ptr (Some bd) (length dpre + length done + 1)).
      replace (length dpre + length done + 1) with (length dpre + length (done ++ [v]))
        by (rewrite length_app; simpl; lia).
      edestruct (IH (<[bs:=<[length spre:=Live (moved_from v)]>
                           (spre ++ Live v :: (Live <$> vs) ++ spost)]>
                      (<[bd:=<[length dpre + length done:=Live v]>
                               (dpre ++ (Live <$> done) ++ Raw :: replicate (length vs) Raw ++ dpost)]>
                         h))
                    (tick (ticks_unless nothrow_move_constructible 1) orc)
                    (EvMoveCtor :: lg)
                    (spre ++ [Live (moved_from v)]) (length spre + 1) (done ++ [v])
                    (length dpre) k2) as (h' & lg' & -> & Hsame & Hbd); try done.
      * rewrite lookup_insert_eq. f_equal.
        rewrite insert_middle by done. by rewrite <-(assoc_L (++)).
      * rewrite length_app. simpl. lia.
      * rewrite lookup_insert_ne by done. rewrite lookup_insert_eq. f_equal.
        rewrite (assoc_L (++) dpre), insert_middle
          by (rewrite length_app, length_fmap; lia).
        rewrite fmap_app. by rewrite <-!(assoc_L (++)).
      * eexists _, _. split; [done|]. split.
        -- intros b. rewrite (Hsame b). simpl.
           destruct (decide (b = bs)) as [->|]; [rewrite lookup_insert_eq, Hs; split; eauto|].
           rewrite lookup_insert_ne by done.
           destruct (decide (b = bd)) as [->|]; [rewrite lookup_insert_eq, Hd; split; eauto|].
           by rewrite lookup_insert_ne.
        -- rewrite Hbd, length_app. cbn [length].
           by replace (length done + 1 + length vs) with (length done + S (length vs)) by lia.
Qed.

(** [SafetyMoveOrCopy] with the failure inside it, for any element type. *)
Lemma SafetyMoveOrCopy_throws h nb o no orc lg bs bd spre spost dpre dpost vs soff i k :
  bs ≠ bd →
  h !! bs = Some (spre ++ (Live <$> vs) ++ spost) → soff = length spre →
  h !! bd = Some (dpre ++ replicate (length vs) Raw ++ dpost) → i = length dpre →
  fails_within orc (ticks_unless nothrow_move_constructible (length vs)) = Some k →
  ∃ h' lg',
    SafetyMoveOrCopy (Ptr (Some bs) soff) (Ptr (Some bd) i) (length vs)
      (World h nb o no orc lg) = Throw (World h' nb o no None lg')
    ∧ same_blocks (World h nb o no orc lg) (World h' nb o no None lg')
    ∧ h' !! bd = Some (dpre ++ replicate (length vs) Raw ++ dpost).
Proof.
  intros Hne Hs -> Hd -> Hf.
  destruct (nothrow_move_constructible || copy_constructible) eqn:Hstrong.
  - erewrite SafetyMoveOrCopy_fail by done. eexists _, _. split; [done|].
    split; [by intros b|done].
  - apply orb_false_iff in Hstrong as [Hn Hc].
    unfold SafetyMoveOrCopy. rewrite Hn, Hc. simpl. unfold uninitialized_move_n.
    destruct (uninitialized_move_loop_throws bs bd nb o no dpre dpost spost vs h orc lg
                spre (length spre) [] (length dpre) k) as (h' & lg' & Hrun & Hsame & Hbd);
      try done.
    cbn [length] in Hrun. rewrite Nat.add_0_r in Hrun. eauto.
Qed.

Lemma Deallocate_total b w :
  is_Some (heap w !! b) → ∃ w', Deallocate (Some b) w = Ok () w'.
Proof. intros [blk Hb]. unfold Deallocate. rewrite Hb. by eexists. Qed.

(** The relocating path with the failure inside it, for any element type:
    the call is left by the exception. *)
Lemma EmplaceWithRelocate_throws w this buf l1 l2 a k :
  vec_inv w this buf (length (l1 ++ l2)) (l1 ++ l2) → args_ok a →
  fails_within (oracle w) (relocate_ticks a (length l1) (length l2)) = Some k →
  ∃ w', EmplaceWithRelocate this (length l1) a w = Throw w'.
Proof.
  intros [Ho Hlen Hblk Hfresh] Hok Hf. destruct w as [h nb o no orc lg].
  unfold heap_fresh in Hfresh. cbn [heap next_block objs next_obj oracle log] in *.
  unfold relocate_ticks in *.
  set (n := length (l1 ++ l2)) in *. set (cap' := grown_capacity n).
  assert (Hn : n = length l1 + length l2) by (unfold n; by rewrite length_app).
  assert (Hcap' : n < cap') by apply grown_capacity_gt.
  assert (Hnb : h !! nb = None) by (apply Hfresh; lia).
  unfold EmplaceWithRelocate. rewrite bind_run. erewrite get_vec_run by done.
  cbn [data_ capacity_ size_ buffer_]. fold (grown_capacity n). fold cap'.
  rewrite bind_run. unfold RawMemory_ctor. rewrite bind_run.
  rewrite Allocate_run by lia.
  rewrite fails_within_split in Hf.
  destruct (fails_within orc 1) as [k0|] eqn:Hf1; [by eexists|].
  rewrite ret_run.
  rewrite bind_run. unfold unwinding_RawMemory. rewrite on_throw_run.
  rewrite bind_run. unfold GetAddress, ptr_add. cbn [buffer_ base off]. rewrite !Nat.add_0_l.
  erewrite construct_from_run; [|done|apply lookup_insert_eq|].
  2:{ apply lookup_replicate_2. lia. }
  rewrite fails_within_split in Hf.
  destruct (fails_within (tick 1 orc) (args_ticks a)) as [k1|] eqn:Hf2.
  { unfold RawMemory_dtor. cbn [buffer_].
    erewrite (Deallocate_run _ _ _ _ _ _ (Some nb)); [|by rewrite lookup_insert_eq].
    by eexists. }
  rewrite insert_insert_eq.
  rewrite insert_replicate_lt by lia.
  rewrite bind_run. erewrite begin_run by done. cbn [data_ buffer_].
  rewrite fails_within_split in Hf.
  destruct buf as [b|].
  - assert (b ≠ nb) as Hne by (intros ->; congruence).
    unfold slots_of in Hblk. rewrite Nat.sub_diag in Hblk. simpl in Hblk.
    rewrite app_nil_r, fmap_app in Hblk.
    rewrite bind_run, on_throw_run.
    destruct (fails_within (tick (args_ticks a) (tick 1 orc))
                (ticks_unless nothrow_move_constructible (length l1))) as [j|] eqn:Hf3.
    + destruct (SafetyMoveOrCopy_throws
                  (<[nb:=replicate (length l1) Raw ++ Live (args_value a)
                           :: replicate (cap' - S (length l1)) Raw]> h)
                  (S nb) o no (tick (args_ticks a) (tick 1 orc))
                  (args_event a :: EvAlloc cap' :: lg) b nb [] (Live <$> l2)
                  [] (Live (args_value a) :: replicate (cap' - S (length l1)) Raw) l1 0 0 j)
        as (h1 & lg1 & -> & H1 & Hb1); try done.
      { by rewrite lookup_insert_ne. }
      { by rewrite lookup_insert_eq. }
      rewrite app_nil_l in Hb1.
      erewrite (destroy_n_run [args_value a] _ _ _ _ _ _ nb (length l1)
                  (replicate (length l1) Raw));
        [|exact Hb1|by rewrite length_replicate].
      unfold RawMemory_dtor. cbn [buffer_].
      erewrite (Deallocate_run _ _ _ _ _ _ (Some nb)); [|by rewrite lookup_insert_eq].
      by eexists.
    + destruct (fails_within _ (ticks_unless nothrow_move_constructible (length l2)))
        as [j|] eqn:Hf4; [|done].
      erewrite (SafetyMoveOrCopy_run _ _ _ _ _ _ b nb [] (Live <$> l2)
                [] (Live (args_value a) :: replicate (cap' - S (length l1)) Raw) l1);
        [|done|by rewrite lookup_insert_ne|done|by rewrite lookup_insert_eq|done|done].
      rewrite !app_nil_l. rewrite bind_run, on_throw_run.
      replace (n - length l1) with (length l2) by lia.
      cbn [base off]. rewrite Nat.add_0_l.
      destruct (SafetyMoveOrCopy_throws
                  (<[b:=(Live <$> (left_behind <$> l1)) ++ (Live <$> l2)]>
                     (<[nb:=(Live <$> l1) ++ Live (args_value a)
                              :: replicate (cap' - S (length l1)) Raw]>
                        (<[nb:=replicate (length l1) Raw ++ Live (args_value a)
                                 :: replicate (cap' - S (length l1)) Raw]> h)))
                  (S nb) o no
                  (tick (ticks_unless nothrow_move_constructible (length l1))
                     (tick (args_ticks a) (tick 1 orc)))
                  (replicate (length l1) relocation_event ++ args_event a :: EvAlloc cap' :: lg)
                  b nb (Live <$> (left_behind <$> l1)) []
                  ((Live <$> l1) ++ [Live (args_value a)])
                  (replicate (cap' - S n) Raw) l2 (length l1) (length l1 + 1) j)
        as (h1 & lg1 & -> & H1 & Hb1); try done.
      { by rewrite lookup_insert_eq, app_nil_r. }
      { by rewrite !length_fmap. }
      { rewrite lookup_insert_ne, lookup_insert_eq by done. f_equal.
        rewrite <-(assoc_L (++)). simpl. do 2 f_equal.
        rewrite <-replicate_add. f_equal. lia. }
      { rewrite length_app, length_fmap. simpl. lia. }
      replace (length l1 + 1) with (length (l1 ++ [args_value a]))
        by (rewrite length_app; simpl; lia).
      erewrite (destroy_n_run (l1 ++ [args_value a]) _ _ _ _ _ _ nb 0 []);
        [| |done].
      2:{ rewrite Hb1. f_equal. by rewrite fmap_app. }
      unfold RawMemory_dtor. cbn [buffer_].
      erewrite (Deallocate_run _ _ _ _ _ _ (Some nb)); [|by rewrite lookup_insert_eq].
      by eexists.
  - assert (n = 0) as Hn0 by lia.
    assert (l1 = []) as -> by (destruct l1; [done|simpl in Hn; lia]).
    assert (l2 = []) as -> by (destruct l2; [done|simpl in Hn; lia]).
    cbn [length] in Hf. by rewrite !ticks_unless_0, !fails_within_0 in Hf.
Qed.
End ThrowingMoves.

(** ** [Emplace] and [Erase] on a well-formed vector *)

Section EmplaceErase.
Context {T : Type} `{!Elem T}.
Implicit Types (h : gmap nat (list (slot T))) (o : gmap nat Vector)
  (orc : option nat) (lg : list event) (blk pre post : list (slot T))
  (l vs : list T) (w : world T).

(** *** Reading a vector back *)

Lemma slot_at_block w b j i blk :
  heap w !! b = Some blk → slot_at w (Ptr (Some b) j +ₚ i) = blk !! (j + i).
Proof. intros Hb. unfold slot_at. simpl. by rewrite Hb. Qed.

Lemma contents_from w b rest l : ∀ pre,
  heap w !! b = Some (pre ++ (Live <$> l) ++ rest) →
  mapM (λ i, match slot_at w (Ptr (Some b) 0 +ₚ i) with
             | Some (Live x) => Some x
             | _ => None
             end) (seq (length pre) (length l)) = Some l.
Proof.
  induction l as [|x l IH]; intros pre Hb; [done|].
  cbn [length seq mapM].
  erewrite slot_at_block by done. rewrite Nat.add_0_l.
  rewrite fmap_cons, <-app_comm_cons, list_lookup_middle by done.
  cbn [mbind option_bind].
  specialize (IH (pre ++ [Live x])). rewrite length_app in IH. cbn [length] in IH.
  rewrite Nat.add_1_r in IH. rewrite IH; [done|].
  rewrite Hb. by list_norm.
Qed.

Lemma contents_run w this buf cap l rest :
  objs w !! this = Some (mkVector (mkRawMemory buf cap) (length l)) →
  match buf with
  | Some b => heap w !! b = Some ((Live <$> l) ++ rest)
  | None => l = []
  end →
  contents w this = Some l.
Proof.
  intros Ho Hb. unfold contents. rewrite Ho. cbn [mbind option_bind size_ data_ GetAddress buffer_].
  destruct buf as [b|]; [|by subst].
  by apply (contents_from w b rest l []).
Qed.

Lemma vec_inv_contents w this buf cap l :
  vec_inv w this buf cap l → contents w this = Some l.
Proof.
  intros [Ho Hlen Hblk _]. eapply contents_run; [done|].
  destruct buf as [b|]; [done|]. subst. destruct l; [done|simpl in Hlen; lia].
Qed.

(** *** [Emplace] *)

Lemma Emplace_run w this buf cap l1 l2 a :
  vec_inv w this buf cap (l1 ++ l2) → args_ok a →
  match fails_within (oracle w) (emplace_ticks a (length l1) (length l2) cap) with
  | None =>
      ∃ w' buf' cap',
        Emplace this (Ptr buf (length l1)) a w = Ok (Ptr buf' (length l1)) w'
        ∧ vec_inv w' this buf' cap' (l1 ++ args_value a :: l2)
        ∧ cap' = (if decide (length l1 + length l2 = cap)
                  then grown_capacity cap else cap)
        ∧ buf' = (if decide (length l1 + length l2 = cap)
                  then Some (next_block w) else buf)
        ∧ oracle w' = tick (emplace_ticks a (length l1) (length l2) cap) (oracle w)
        ∧ next_obj w' = next_obj w
        ∧ (∀ other, other ≠ this → objs w' !! other = objs w !! other)
  | Some _ => ∃ w', Emplace this (Ptr buf (length l1)) a w = Throw w'
  end.
Proof.
  intros Hinv Hok. pose proof Hinv as [Ho Hlen Hblk Hfresh].
  assert (Hn : length (l1 ++ l2) = length l1 + length l2) by by rewrite length_app.
  unfold emplace_ticks, Emplace, cbegin.
  destruct (decide (length l1 + length l2 = cap)) as [Hfull|Hroom].
  - (* relocating *)
    rewrite <-Hfull, <-Hn in Hinv.
    destruct (fails_within (oracle w) _) as [k|] eqn:Hf.
    + destruct (EmplaceWithRelocate_throws w this buf l1 l2 a k Hinv Hok Hf) as [w' Hw'].
      destruct w as [h nb o no orc lg]. cbn [heap next_block objs next_obj oracle log] in *.
      rewrite bind_run. erewrite begin_run by done. cbn [data_ buffer_].
      rewrite bind_run, distance_run by (cbn [base off]; done || lia). cbn [off].
      rewrite Nat.sub_0_r.
      rewrite bind_run. erewrite get_vec_run by done. cbn [size_ data_ capacity_].
      rewrite bind_run, assert_run by (apply bool_decide_eq_true_2; lia).
      rewrite decide_True by lia.
      rewrite bind_run, Hw'. by eexists.
    + pose proof (EmplaceWithRelocate_run w this buf l1 l2 a Hinv Hok Hf) as Hrun.
      destruct w as [h nb o no orc lg]. cbn [heap next_block objs next_obj oracle log] in *.
      rewrite bind_run. erewrite begin_run by done. cbn [data_ buffer_].
      rewrite bind_run, distance_run by (cbn [base off]; done || lia). cbn [off].
      rewrite Nat.sub_0_r.
      rewrite bind_run. erewrite get_vec_run by done. cbn [size_ data_ capacity_].
      rewrite bind_run, assert_run by (apply bool_decide_eq_true_2; lia).
      rewrite decide_True by lia.
      rewrite bind_run, Hrun.
      rewrite bind_run. erewrite get_vec_run by apply lookup_insert_eq.
      rewrite bind_run. erewrite set_size_run by apply lookup_insert_eq.
      rewrite bind_run. erewrite begin_run by apply lookup_insert_eq.
      cbn [data_ buffer_ size_]. rewrite insert_insert_eq.
      eexists _, _, _. split; [unfold ptr_add; cbn [base off]; by rewrite Nat.add_0_l|].
      split; [|repeat split].
      * assert (Hcapn : length (l1 ++ l2) = cap) by lia.
        split; cbn [heap next_block objs next_obj oracle log]; rewrite ?Hcapn.
        -- rewrite lookup_insert_eq. do 2 f_equal. rewrite length_app. simpl. lia.
        -- rewrite length_app. simpl. pose proof (grown_capacity_gt cap). lia.
        -- by rewrite lookup_insert_eq.
        -- intros b' Hb'. cbn [heap next_block] in *. rewrite lookup_insert_ne by lia.
           unfold released. destruct buf as [b|].
           ++ destruct (decide (b' = b)) as [->|]; [by rewrite lookup_delete_eq|].
              rewrite lookup_delete_ne by done. apply Hfresh. simpl. lia.
           ++ apply Hfresh. simpl. lia.
      * intros other Hother. cbn [objs]. by rewrite lookup_insert_ne.
  - (* in place *)
    assert (Hlt : length (l1 ++ l2) < cap) by lia.
    destruct buf as [b|]; [|lia].
    pose proof (EmplaceWithoutRelocate_run w this b cap l1 l2 a Hinv Hlt Hok) as Hrun.
    destruct w as [h nb o no orc lg]. cbn [heap next_block objs next_obj oracle log] in *.
    rewrite bind_run. erewrite begin_run by done. cbn [data_ buffer_].
    rewrite bind_run, distance_run by (cbn [base off]; done || lia). cbn [off].
    rewrite Nat.sub_0_r.
    rewrite bind_run. erewrite get_vec_run by done. cbn [size_ data_ capacity_].
    rewrite bind_run, assert_run by (apply bool_decide_eq_true_2; lia).
    rewrite decide_False by lia. rewrite bind_run.
    destruct (fails_within orc _) as [k|].
    + destruct Hrun as [w' ->]. by eexists.
    + rewrite Hrun.
      rewrite bind_run. erewrite get_vec_run by done.
      rewrite bind_run. erewrite set_size_run by done.
      rewrite bind_run. erewrite begin_run by apply lookup_insert_eq.
      cbn [data_ buffer_ size_].
      eexists _, _, _. split; [unfold ptr_add; cbn [base off]; by rewrite Nat.add_0_l|].
      split; [|repeat split].
      * split; cbn [heap next_block objs next_obj oracle log].
        -- rewrite lookup_insert_eq. do 3 f_equal. rewrite !length_app. simpl. lia.
        -- rewrite length_app. simpl. lia.
        -- by rewrite lookup_insert_eq.
        -- intros b' Hb'. cbn [heap next_block] in *.
           destruct (decide (b' = b)) as [->|].
           ++ specialize (Hfresh b Hb'). simpl in Hfresh. congruence.
           ++ rewrite lookup_insert_ne by done. by apply Hfresh.
      * intros other Hother. cbn [objs]. by rewrite lookup_insert_ne.
Qed.

(** *** [Erase] *)

(** [Erase] at index [length l1] of [l1 ++ x :: l2], for a trivially
    destructible type: the elements behind [x] are move-assigned one slot
    toward the front and the size drops by one; the destructor call is
    made on the slot at index [size], which holds no object, and the slot
    at index [size - 1] keeps its moved-from object. *)
Lemma Erase_run w this b cap l1 x l2 :
  trivially_destructible = true →
  vec_inv w this (Some b) cap (l1 ++ x :: l2) →
  match fails_within (oracle w) (ticks_unless nothrow_move_assignable (length l2)) with
  | None =>
      Erase this (Ptr (Some b) (length l1)) w =
        Ok (Ptr (Some b) (length l1))
           (World (<[b := (Live <$> (l1 ++ l2)) ++ Live (shifted_last x l2)
                           :: replicate (cap - length (l1 ++ x :: l2)) Raw]> (heap w))
                  (next_block w)
                  (<[this := mkVector (mkRawMemory (Some b) cap) (length (l1 ++ l2))]> (objs w))
                  (next_obj w)
                  (tick (ticks_unless nothrow_move_assignable (length l2)) (oracle w))
                  (EvStrayDtor (Ptr (Some b) (length (l1 ++ x :: l2)))
                     :: replicate (length l2) EvMoveAssign ++ log w))
  | Some _ => ∃ w', Erase this (Ptr (Some b) (length l1)) w = Throw w'
  end.
Proof.
  intros Htriv [Ho Hlen Hblk Hfresh]. destruct w as [h nb o no orc lg].
  cbn [heap next_block objs next_obj oracle log] in *.
  set (n := length (l1 ++ x :: l2)) in *.
  assert (Hn : n = length l1 + S (length l2)) by (unfold n; by rewrite length_app).
  unfold Erase, cbegin.
  rewrite bind_run. erewrite begin_run by done. cbn [data_ buffer_].
  rewrite bind_run, distance_run by (cbn [base off]; done || lia). cbn [off].
  rewrite Nat.sub_0_r.
  rewrite bind_run. erewrite begin_run by done. cbn [data_ buffer_].
  rewrite bind_run. erewrite end_run by done. cbn [data_ buffer_ size_].
  rewrite bind_run. unfold std_move. rewrite bind_run.
  unfold ptr_add. cbn [base off]. rewrite Nat.add_0_l.
  rewrite distance_run by (cbn [base off]; done || lia). cbn [off].
  replace (n - (length l1 + 1)) with (length l2) by lia.
  unfold slots_of in Hblk. fold n in Hblk.
  rewrite fmap_app, fmap_cons, <-(assoc_L (++)), <-app_comm_cons in Hblk.
  pose proof (move_n_run b nb o no (replicate (cap - n) Raw) l2 h orc lg (Live <$> l1) x
                (length l1)) as Hmv.
  specialize (Hmv Hblk).
  rewrite length_fmap in Hmv. specialize (Hmv eq_refl).
  destruct (fails_within orc _) as [k|].
  { destruct Hmv as [w' ->]. by eexists. }
  rewrite Hmv.
  rewrite bind_run. erewrite get_vec_run by done. cbn [size_].
  rewrite bind_run. cbn [destroy_n]. rewrite bind_run.
  rewrite destroy_at_stray; [|done|].
  2:{ intros y. erewrite (slot_at_block _ b 0 n) by apply lookup_insert_eq.
      rewrite Nat.add_0_l, (assoc_L (++)).
      rewrite lookup_app_r by (rewrite length_app, !length_fmap; lia).
      rewrite length_app, !length_fmap.
      replace (n - (length l1 + length l2)) with 1 by lia. simpl.
      destruct (cap - n); done. }
  rewrite ret_run. unfold emit_w. cbn [heap next_block objs next_obj oracle log].
  rewrite bind_run. erewrite set_size_run by done. cbn [data_].
  rewrite bind_run. erewrite begin_run by apply lookup_insert_eq. cbn [data_ buffer_].
  rewrite ret_run. rewrite Nat.add_0_l.
  do 2 f_equal.
  - f_equal. rewrite fmap_app. by rewrite <-(assoc_L (++)).
  - do 2 f_equal. rewrite length_app. lia.
Qed.

(** The same call for a type with a destructor to run: once the shift is
    done the destructor is called on the slot at index [size], where no
    object lives. *)
Lemma Erase_no_object w this b cap l1 x l2 :
  trivially_destructible = false →
  vec_inv w this (Some b) cap (l1 ++ x :: l2) →
  fails_within (oracle w) (ticks_unless nothrow_move_assignable (length l2)) = None →
  Erase this (Ptr (Some b) (length l1)) w = Fault NoObjectThere.
Proof.
  intros Htriv [Ho Hlen Hblk Hfresh] Hf. destruct w as [h nb o no orc lg].
  cbn [heap next_block objs next_obj oracle log] in *.
  set (n := length (l1 ++ x :: l2)) in *.
  assert (Hn : n = length l1 + S (length l2)) by (unfold n; by rewrite length_app).
  unfold Erase, cbegin.
  rewrite bind_run. erewrite begin_run by done. cbn [data_ buffer_].
  rewrite bind_run, distance_run by (cbn [base off]; done || lia). cbn [off].
  rewrite Nat.sub_0_r.
  rewrite bind_run. erewrite begin_run by done. cbn [data_ buffer_].
  rewrite bind_run. erewrite end_run by done. cbn [data_ buffer_ size_].
  rewrite bind_run. unfold std_move. rewrite bind_run.
  unfold ptr_add. cbn [base off]. rewrite Nat.add_0_l.
  rewrite distance_run by (cbn [base off]; done || lia). cbn [off].
  replace (n - (length l1 + 1)) with (length l2) by lia.
  unfold slots_of in Hblk. fold n in Hblk.
  rewrite fmap_app, fmap_cons, <-(assoc_L (++)), <-app_comm_cons in Hblk.
  pose proof (move_n_run b nb o no (replicate (cap - n) Raw) l2 h orc lg (Live <$> l1) x
                (length l1)) as Hmv.
  specialize (Hmv Hblk).
  rewrite length_fmap in Hmv. specialize (Hmv eq_refl).
  rewrite Hf in Hmv. rewrite Hmv.
  rewrite bind_run. erewrite get_vec_run by done. cbn [size_].
  rewrite bind_run. cbn [destroy_n]. rewrite bind_run.
  rewrite destroy_at_no_object; [done|done|].
  { intros y. erewrite (slot_at_block _ b 0 n) by apply lookup_insert_eq.
      rewrite Nat.add_0_l, (assoc_L (++)).
      rewrite lookup_app_r by (rewrite length_app, !length_fmap; lia).
      rewrite length_app, !length_fmap.
      replace (n - (length l1 + length l2)) with 1 by lia. simpl.
      destruct (cap - n); done. }
Qed.

End EmplaceErase.

(** ** Whole vectors: copy, swap, destruction, move *)

Section WholeVectors.
Context {T : Type} `{!Elem T}.
Implicit Types (h : gmap nat (list (slot T))) (o : gmap nat Vector)
  (orc : option nat) (lg : list event) (blk pre post : list (slot T))
  (l vs : list T) (w : world T).

Lemma live_count_slots_of l cap : live_count (slots_of l cap) = length l.
Proof. unfold slots_of. rewrite live_count_app, live_count_live, live_count_raw. lia. Qed.

Lemma put_vec_run h nb o no orc lg this v :
  put_vec this v (World h nb o no orc lg) = Ok () (World h nb (<[this := v]> o) no orc lg).
Proof. reflexivity. Qed.

Lemma del_vec_run h nb o no orc lg this :
  del_vec this (World h nb o no orc lg) = Ok () (World h nb (delete this o) no orc lg).
Proof. reflexivity. Qed.

(** *** Copy construction *)

Lemma Vector_copy_ctor_run h nb o no orc lg this other rb rcap lr :
  copy_constructible = true → lr ≠ [] → o !! this = None →
  o !! other = Some (mkVector (mkRawMemory (Some rb) rcap) (length lr)) →
  h !! rb = Some (slots_of lr rcap) → h !! nb = None →
  fails_within orc (1 + length lr) = None →
  Vector_copy_ctor this other (World h nb o no orc lg) =
    Ok () (World (<[nb := slots_of lr (length lr)]> h) (S nb)
                 (<[this := mkVector (mkRawMemory (Some nb) (length lr)) (length lr)]> o) no
                 (tick (1 + length lr) orc)
                 (replicate (length lr) EvCopyCtor ++ EvAlloc (length lr) :: lg)).
Proof.
  intros Hc Hlr Hthis Ho Hrb Hnb Hf.
  apply fails_within_None in Hf as [Hf1 Hf2].
  assert (length lr ≠ 0) by (destruct lr; [done|simpl; lia]).
  assert (rb ≠ nb) as Hne by (intros ->; congruence).
  assert (this ≠ other) as Hto by (intros ->; congruence).
  unfold Vector_copy_ctor. rewrite bind_run. erewrite get_vec_run by done. cbn [size_].
  rewrite bind_run. unfold RawMemory_ctor. rewrite bind_run, Allocate_run by done.
  rewrite Hf1, ret_run. rewrite bind_run, put_vec_run.
  rewrite on_throw_run, bind_run.
  erewrite begin_run by (by rewrite lookup_insert_ne). cbn [data_ buffer_].
  rewrite bind_run. erewrite begin_run by apply lookup_insert_eq. cbn [data_ buffer_].
  unfold uninitialized_copy_n.
  pose proof (uninitialized_copy_loop_run rb nb (S nb)
                (<[this:=mkVector (mkRawMemory (Some nb) (length lr)) (length lr)]> o) no
                [] [] (replicate (rcap - length lr) Raw) lr
                (<[nb:=replicate (length lr) Raw]> h) (tick 1 orc) (EvAlloc (length lr) :: lg)
                [] 0 [] 0 Hc Hne) as Hcp.
  rewrite lookup_insert_ne, lookup_insert_eq in Hcp by done.
  rewrite !app_nil_l, !app_nil_r in Hcp. cbn [fmap list_fmap app length] in Hcp.
  rewrite Nat.add_0_r in Hcp.
  rewrite Hcp by done. rewrite Hf2.
  do 2 f_equal.
  + rewrite insert_insert_eq. f_equal. unfold slots_of. by rewrite Nat.sub_diag, app_nil_r.
  + by rewrite tick_tick.
Qed.

Lemma Vector_copy_ctor_fail h nb o no orc lg this other rb rcap lr k :
  copy_constructible = true → lr ≠ [] → o !! this = None →
  o !! other = Some (mkVector (mkRawMemory (Some rb) rcap) (length lr)) →
  h !! rb = Some (slots_of lr rcap) → h !! nb = None →
  fails_within orc (1 + length lr) = Some k →
  Vector_copy_ctor this other (World h nb o no orc lg) =
    Throw (World h (next_block_after k nb) o no None
                 (Reserve_unwind_log (length lr) k ++ lg)).
Proof.
  intros Hc Hlr Hthis Ho Hrb Hnb Hf.
  rewrite fails_within_split in Hf.
  assert (length lr ≠ 0) by (destruct lr; [done|simpl; lia]).
  assert (rb ≠ nb) as Hne by (intros ->; congruence).
  assert (this ≠ other) as Hto by (intros ->; congruence).
  unfold Vector_copy_ctor. rewrite bind_run. erewrite get_vec_run by done. cbn [size_].
  rewrite bind_run. unfold RawMemory_ctor. rewrite bind_run, Allocate_run by done.
  destruct (fails_within orc 1) as [k0|] eqn:Hf1.
  { apply fails_within_1 in Hf1 as ->. by injection Hf as <-. }
  destruct (fails_within (tick 1 orc) (length lr)) as [j|] eqn:Hf2; [|done].
  injection Hf as <-.
  rewrite ret_run. rewrite bind_run, put_vec_run.
  rewrite on_throw_run, bind_run.
  erewrite begin_run by (by rewrite lookup_insert_ne). cbn [data_ buffer_].
  rewrite bind_run. erewrite begin_run by apply lookup_insert_eq. cbn [data_ buffer_].
  unfold uninitialized_copy_n.
  pose proof (uninitialized_copy_loop_run rb nb (S nb)
                (<[this:=mkVector (mkRawMemory (Some nb) (length lr)) (length lr)]> o) no
                [] [] (replicate (rcap - length lr) Raw) lr
                (<[nb:=replicate (length lr) Raw]> h) (tick 1 orc) (EvAlloc (length lr) :: lg)
                [] 0 [] 0 Hc Hne) as Hcp.
  rewrite lookup_insert_ne, lookup_insert_eq in Hcp by done.
  rewrite !app_nil_l, !app_nil_r in Hcp. cbn [fmap list_fmap app length] in Hcp.
  rewrite Nat.add_0_r in Hcp.
  rewrite Hcp by done. rewrite Hf2.
  rewrite bind_run. unfold RawMemory_dtor. cbn [buffer_].
  erewrite (Deallocate_run _ _ _ _ _ _ (Some nb)); [|by rewrite lookup_insert_eq].
  rewrite del_vec_run, live_count_raw. unfold released.
  rewrite insert_insert_eq, delete_insert_id, delete_insert_id by done.
  simpl. by list_norm.
Qed.

(** *** [Swap] and destruction *)

Lemma Swap_run h nb o no orc lg this other a b :
  this ≠ other → o !! this = Some a → o !! other = Some b →
  Swap this other (World h nb o no orc lg) =
    Ok () (World h nb (<[other := a]> (<[this := b]> o)) no orc lg).
Proof.
  intros Hne Ha Hb. unfold Swap.
  rewrite bind_run. erewrite get_vec_run by done.
  rewrite bind_run. erewrite get_vec_run by done.
  unfold RawMemory_Swap.
  rewrite bind_run, put_vec_run. rewrite bind_run, put_vec_run.
  rewrite bind_run. erewrite get_vec_run by (rewrite lookup_insert_ne, lookup_insert_eq; done).
  rewrite bind_run. erewrite get_vec_run by apply lookup_insert_eq.
  rewrite bind_run, put_vec_run.
  rewrite bind_run. erewrite get_vec_run by (rewrite lookup_insert_ne, lookup_insert_eq; done).
  rewrite put_vec_run. cbn [data_ size_ buffer_ capacity_].
  do 2 f_equal. apply map_eq. intros i.
  destruct (decide (i = other)) as [->|]; [rewrite !lookup_insert_eq; by destruct a as [[]]|].
  rewrite !(lookup_insert_ne _ other i) by done.
  destruct (decide (i = this)) as [->|]; [rewrite !lookup_insert_eq; by destruct b as [[]]|].
  by rewrite !lookup_insert_ne.
Qed.

Lemma Vector_dtor_run h nb o no orc lg this buf cap l :
  o !! this = Some (mkVector (mkRawMemory buf cap) (length l)) →
  match buf with Some b => h !! b = Some (slots_of l cap) | None => l = [] end →
  Vector_dtor this (World h nb o no orc lg) =
    Ok () (World (released buf h) nb (delete this o) no orc
                 (release_log buf 0 ++ replicate (length l) EvDtor ++ lg)).
Proof.
  intros Ho Hb. unfold Vector_dtor.
  rewrite bind_run. erewrite begin_run by done. cbn [data_ buffer_].
  rewrite bind_run. erewrite get_vec_run by done. cbn [data_ size_].
  rewrite bind_run. destruct buf as [b|].
  - erewrite (destroy_n_run l _ _ _ _ _ _ b 0 []); [|exact Hb|done].
    rewrite bind_run. unfold RawMemory_dtor. cbn [buffer_].
    erewrite (Deallocate_run _ _ _ _ _ _ (Some b)); [|by rewrite lookup_insert_eq].
    rewrite del_vec_run, app_nil_l, live_count_app, !live_count_raw.
    unfold released. by rewrite delete_insert_eq.
  - subst l. reflexivity.
Qed.

(** *** Copy assignment, when the right-hand side does not fit *)

Lemma new_local_run h nb o no orc lg :
  new_local (World h nb o no orc lg) = Ok no (World h nb o (S no) orc lg).
Proof. reflexivity. Qed.

Lemma Vector_copy_assign_run w this rhs buf cap l rbuf rcap lr :
  copy_constructible = true → this ≠ rhs →
  vec_inv w this buf cap l → vec_inv w rhs rbuf rcap lr → objs_fresh w →
  cap < length lr →
  fails_within (oracle w) (1 + length lr) = None →
  Vector_copy_assign this rhs w =
    Ok () (World (<[next_block w := slots_of lr (length lr)]> (released buf (heap w)))
                 (S (next_block w))
                 (<[this := mkVector (mkRawMemory (Some (next_block w)) (length lr))
                                     (length lr)]> (objs w))
                 (S (next_obj w))
                 (tick (1 + length lr) (oracle w))
                 (release_log buf 0 ++ replicate (length l) EvDtor
                    ++ replicate (length lr) EvCopyCtor ++ EvAlloc (length lr) :: log w)).
Proof.
  intros Hc Hne [Ho Hlen Hblk Hfresh] [Hor Hrlen Hrblk _] Hofresh Hcap Hf.
  destruct w as [h nb o no orc lg]. unfold heap_fresh, objs_fresh in *.
  cbn [heap next_block objs next_obj oracle log] in *.
  assert (Hlr : lr ≠ []) by (intros ->; simpl in Hcap; lia).
  destruct rbuf as [rb|]; [|subst rcap; lia].
  assert (Hnb : h !! nb = None) by (apply Hfresh; lia).
  assert (Hno : o !! no = None) by (apply Hofresh; lia).
  assert (no ≠ this) by (intros ->; congruence).
  assert (no ≠ rhs) by (intros ->; congruence).
  unfold Vector_copy_assign. rewrite decide_True by done.
  rewrite bind_run. erewrite get_vec_run by done.
  rewrite bind_run. erewrite get_vec_run by done.
  cbn [size_ data_ capacity_]. rewrite decide_True by lia.
  rewrite bind_run, new_local_run.
  rewrite bind_run. erewrite Vector_copy_ctor_run by done.
  rewrite bind_run. erewrite Swap_run;
    [|done|by rewrite lookup_insert_ne|by rewrite lookup_insert_eq].
  erewrite (Vector_dtor_run _ _ _ _ _ _ no buf cap l); [|by rewrite lookup_insert_eq|].
  2:{ destruct buf as [b|]; [|destruct l; [done|simpl in Hlen; lia]].
      rewrite lookup_insert_ne; [done|]. intros <-. congruence. }
  do 2 f_equal.
  - unfold released. destruct buf as [b|]; [|done].
    rewrite delete_insert_ne; [done|]. intros <-. congruence.
  - apply map_eq. intros i.
    destruct (decide (i = no)) as [->|].
    { rewrite lookup_delete_eq, lookup_insert_ne by done. by rewrite Hno. }
    rewrite lookup_delete_ne, lookup_insert_ne by done.
    destruct (decide (i = this)) as [->|]; [by rewrite !lookup_insert_eq|].
    by rewrite !lookup_insert_ne.
Qed.

Lemma Vector_copy_assign_fail w this rhs buf cap l rbuf rcap lr k :
  copy_constructible = true → this ≠ rhs →
  vec_inv w this buf cap l → vec_inv w rhs rbuf rcap lr → objs_fresh w →
  cap < length lr →
  fails_within (oracle w) (1 + length lr) = Some k →
  Vector_copy_assign this rhs w =
    Throw (World (heap w) (next_block_after k (next_block w)) (objs w) (S (next_obj w)) None
                 (Reserve_unwind_log (length lr) k ++ log w)).
Proof.
  intros Hc Hne [Ho Hlen Hblk Hfresh] [Hor Hrlen Hrblk _] Hofresh Hcap Hf.
  destruct w as [h nb o no orc lg]. unfold heap_fresh, objs_fresh in *.
  cbn [heap next_block objs next_obj oracle log] in *.
  assert (Hlr : lr ≠ []) by (intros ->; simpl in Hcap; lia).
  destruct rbuf as [rb|]; [|subst rcap; lia].
  assert (Hnb : h !! nb = None) by (apply Hfresh; lia).
  assert (Hno : o !! no = None) by (apply Hofresh; lia).
  unfold Vector_copy_assign. rewrite decide_True by done.
  rewrite bind_run. erewrite get_vec_run by done.
  rewrite bind_run. erewrite get_vec_run by done.
  cbn [size_ data_ capacity_]. rewrite decide_True by lia.
  rewrite bind_run, new_local_run.
  rewrite bind_run. by erewrite Vector_copy_ctor_fail.
Qed.

(** *** Moving a vector *)

Lemma Vector_move_ctor_run w this other v :
  this ≠ other → objs w !! other = Some v →
  Vector_move_ctor this other w =
    Ok () (World (heap w) (next_block w)
                 (<[other := mkVector (mkRawMemory None 0) 0]> (<[this := v]> (objs w)))
                 (next_obj w) (oracle w) (log w)).
Proof.
  intros Hne Ho. destruct w as [h nb o no orc lg]. cbn [heap next_block objs next_obj oracle log] in *.
  unfold Vector_move_ctor. rewrite bind_run. erewrite get_vec_run by done.
  unfold RawMemory_move_ctor.
  rewrite bind_run, put_vec_run. rewrite bind_run, put_vec_run.
  erewrite set_size_run by (rewrite lookup_insert_ne, lookup_insert_eq; done).
  cbn [data_]. do 2 f_equal. destruct v as [[vb vc] vs]. cbn [data_ size_ buffer_ capacity_].
  apply map_eq. intros i.
  destruct (decide (i = other)) as [->|]; [by rewrite !lookup_insert_eq|].
  rewrite !(lookup_insert_ne _ other i) by done.
  destruct (decide (i = this)) as [->|]; [by rewrite !lookup_insert_eq|].
  by rewrite !lookup_insert_ne.
Qed.

Lemma Vector_move_assign_run w this rhs buf cap l vr :
  this ≠ rhs → vec_inv w this buf cap l → objs w !! rhs = Some vr →
  Vector_move_assign this rhs w =
    Ok () (World (released buf (heap w)) (next_block w)
                 (<[rhs := mkVector (mkRawMemory None 0) 0]> (<[this := vr]> (objs w)))
                 (next_obj w) (oracle w)
                 (release_log buf (length l) ++ log w)).
Proof.
  intros Hne [Ho Hlen Hblk Hfresh] Hr. destruct w as [h nb o no orc lg].
  cbn [heap next_block objs next_obj oracle log] in *.
  unfold Vector_move_assign. rewrite decide_True by done.
  rewrite bind_run. erewrite get_vec_run by done.
  rewrite bind_run. erewrite get_vec_run by done.
  rewrite bind_run. unfold RawMemory_move_assign. rewrite bind_run. cbn [data_ buffer_].
  erewrite (Deallocate_run _ _ _ _ _ _ buf (slots_of l cap)); [|by destruct buf].
  rewrite ret_run, live_count_slots_of.
  rewrite bind_run, put_vec_run. rewrite bind_run, put_vec_run.
  rewrite bind_run. erewrite get_vec_run by (rewrite lookup_insert_ne, lookup_insert_eq; done).
  rewrite bind_run. erewrite set_size_run by apply lookup_insert_eq.
  erewrite set_size_run by (rewrite lookup_insert_ne, lookup_insert_ne, lookup_insert_eq; done).
  cbn [data_ size_]. do 2 f_equal. destruct vr as [[vb vc] vs]. cbn [data_ size_ buffer_ capacity_].
  apply map_eq. intros i.
  destruct (decide (i = rhs)) as [->|]; [by rewrite !lookup_insert_eq|].
  rewrite !(lookup_insert_ne _ rhs i) by done.
  destruct (decide (i = this)) as [->|]; [by rewrite !lookup_insert_eq|].
  by rewrite !lookup_insert_ne.
Qed.

Lemma Vector_move_assign_self w this :
  Vector_move_assign this this w = Ok () w.
Proof. unfold Vector_move_assign. by rewrite decide_False by (intros ?; done). Qed.
End WholeVectors.

(** ** Concrete worlds *)

Section Worlds.
Context {T : Type} `{!Elem T}.

Lemma world_of_inv (l : list T) cap orc :
  length l ≤ cap → vec_inv (world_of l cap orc) 0 (Some 0) cap l.
Proof.
  intros Hl. split; [done|done|done|].
  intros b Hb. simpl in *. rewrite lookup_insert_ne by lia. done.
Qed.

Lemma world_of2_inv0 (l0 l1 : list T) cap0 cap1 orc :
  length l0 ≤ cap0 → vec_inv (world_of2 l0 cap0 l1 cap1 orc) 0 (Some 0) cap0 l0.
Proof.
  intros Hl. split; [done|done|done|].
  intros b Hb. simpl in *. rewrite !lookup_insert_ne by lia. done.
Qed.

Lemma world_of2_inv1 (l0 l1 : list T) cap0 cap1 orc :
  length l1 ≤ cap1 → vec_inv (world_of2 l0 cap0 l1 cap1 orc) 1 (Some 1) cap1 l1.
Proof.
  intros Hl. split; [done|done|done|].
  intros b Hb. simpl in *. rewrite !lookup_insert_ne by lia. done.
Qed.

Lemma world_of2_objs_fresh (l0 l1 : list T) cap0 cap1 orc :
  objs_fresh (world_of2 l0 cap0 l1 cap1 orc).
Proof. intros a Ha. simpl in *. rewrite !lookup_insert_ne by lia. done. Qed.
End Worlds.

(** * The specification, property by property *)

(** C1 (the code departs from it).  [Erase] runs the destructor on the slot
    at index [size], not on the vacated slot at index [size - 1]: erasing
    the first of [1, 2, 3] in a vector of capacity 4 leaves the block as
    [2, 3, 3, raw] with the moved-from object at index 2 still alive, and
    the one destructor call lands on the raw slot at index 3. [PopBack]
    destroys the slot at index [size - 1]. *)
Theorem Erase_destroys_the_slot_past_the_last :
  ∃ w',
    Erase 0 (Ptr (Some 0) 0) (world_of [1; 2; 3]%Z 4 None) = Ok (Ptr (Some 0) 0) w'
    ∧ heap w' !! 0 = Some [Live 2%Z; Live 3%Z; Live 3%Z; Raw]
    ∧ objs w' !! 0 = Some (mkVector (mkRawMemory (Some 0) 4) 2)
    ∧ log w' = [EvStrayDtor (Ptr (Some 0) 3); EvMoveAssign; EvMoveAssign]
    ∧ ∃ w'',
        PopBack 0 (world_of [1; 2; 3]%Z 4 None) = Ok () w''
        ∧ heap w'' !! 0 = Some [Live 1%Z; Live 2%Z; Raw; Raw]
        ∧ log w'' = [EvDtor].
Proof.
  eexists. split; [vm_compute; reflexivity|].
  repeat split; try (vm_compute; reflexivity).
  eexists. split; [vm_compute; reflexivity|].
  split; vm_compute; reflexivity.
Qed.

(** C2 (the code departs from it).  Move assignment hands the left-hand
    side's block back to the allocator with its elements still alive: for
    [B = 1, 2] and [A = 3], [B = std::move(A)] releases B's block holding
    two objects and runs no destructor.  The destructor of the same vector
    destroys both elements before it releases the block. *)
Theorem move_assignment_releases_live_elements :
  ∃ w',
    Vector_move_assign 0 1 (world_of2 [1; 2]%Z 2 [3]%Z 1 None) = Ok () w'
    ∧ log w' = [EvFree 2]
    ∧ heap w' !! 0 = None
    ∧ contents w' 0 = Some [3%Z]
    ∧ ∃ w'',
        Vector_dtor 0 (world_of2 [1; 2]%Z 2 [3]%Z 1 None) = Ok () w''
        ∧ log w'' = [EvFree 0; EvDtor; EvDtor].
Proof.
  eexists. split; [vm_compute; reflexivity|].
  repeat split; try (vm_compute; reflexivity).
  eexists. split; vm_compute; reflexivity.
Qed.

(** C3, as stated, fails for a move-only element whose move constructor can
    throw: the relocation moves, and the second move throwing leaves the
    first element of the old block moved-from. *)
Lemma EmplaceWithRelocate_move_only_changes_old_block :
  ∃ w',
    EmplaceWithRelocate 0 2 (ByArgs (token 9)) (world_of [token 7; token 8] 2 (Some 3))
    = Throw w'
    ∧ contents (world_of [token 7; token 8] 2 (Some 3)) 0 = Some [token 7; token 8]
    ∧ contents w' 0 = Some [token 0; token 8]
    ∧ heap w' !! 0 ≠ heap (world_of [token 7; token 8] 2 (Some 3)) !! 0.
Proof.
  eexists. split; [vm_compute; reflexivity|].
  split; [vm_compute; reflexivity|].
  split; [vm_compute; reflexivity|].
  vm_compute. discriminate.
Qed.

Section Growth.
Context {T : Type} `{!Elem T}.
Implicit Types (l : list T) (w : world T).

(** C3 (amended).  For an element type that is copy-constructible or whose
    move construction cannot throw, the relocating path of [Emplace]
    allocates, constructs the new element first, in its slot of the new
    block, relocates the prefix and then the suffix, and only then
    destroys the old elements and releases the old block; if any of the
    operations throws, the heap and the vector are exactly as before the
    call, everything constructed in the new block has been destroyed and
    the new block released, and the exception propagates. *)
Theorem EmplaceWithRelocate_strong_guarantee w this buf l1 l2 a :
  nothrow_move_constructible || copy_constructible = true →
  vec_inv w this buf (length (l1 ++ l2)) (l1 ++ l2) → args_ok a →
  match fails_within (oracle w) (relocate_ticks a (length l1) (length l2)) with
  | None =>
      EmplaceWithRelocate this (length l1) a w =
        Ok () (World
          (<[next_block w := slots_of (l1 ++ args_value a :: l2)
                                      (grown_capacity (length (l1 ++ l2)))]>
             (released buf (heap w)))
          (S (next_block w))
          (<[this := mkVector (mkRawMemory (Some (next_block w))
                                           (grown_capacity (length (l1 ++ l2))))
                              (length (l1 ++ l2))]> (objs w))
          (next_obj w)
          (tick (relocate_ticks a (length l1) (length l2)) (oracle w))
          (release_log buf 0 ++ replicate (length (l1 ++ l2)) EvDtor
             ++ replicate (length l2) relocation_event
             ++ replicate (length l1) relocation_event
             ++ args_event a :: EvAlloc (grown_capacity (length (l1 ++ l2))) :: log w))
  | Some k =>
      EmplaceWithRelocate this (length l1) a w =
        Throw (World (heap w) (next_block_after k (next_block w)) (objs w) (next_obj w) None
                     (EmplaceWithRelocate_unwind_log a (length l1) (length l2) k ++ log w))
  end.
Proof.
  intros Hstrong Hinv Hok.
  destruct (fails_within (oracle w) _) as [k|] eqn:Hf.
  - by eapply EmplaceWithRelocate_fail.
  - by eapply EmplaceWithRelocate_run.
Qed.

(** C4.  [Reserve] does nothing when the capacity is already there;
    otherwise, for a [new_capacity] whose byte count
    [new_capacity * sizeof(T)] is representable in [size_t], it allocates
    a block of exactly [new_capacity], relocates the elements into it,
    destroys the old ones and takes the new block; and when the allocation
    or a copy throws (the type being relocated by copy, or its move unable
    to throw), the heap and the vector are exactly as before, the copies
    made have been destroyed and the new block released. *)
Theorem Reserve_strong_guarantee w this buf cap l new_capacity :
  vec_inv w this buf cap l →
  (new_capacity ≤ cap → Reserve this new_capacity w = Ok () w)
  ∧ (cap < new_capacity → representable new_capacity →
     match fails_within (oracle w)
             (1 + ticks_unless nothrow_move_constructible (length l)) with
     | None =>
         Reserve this new_capacity w =
           Ok () (World (<[next_block w := slots_of l new_capacity]> (released buf (heap w)))
                        (S (next_block w))
                        (<[this := mkVector (mkRawMemory (Some (next_block w)) new_capacity)
                                            (length l)]> (objs w))
                        (next_obj w)
                        (tick (1 + ticks_unless nothrow_move_constructible (length l))
                              (oracle w))
                        (release_log buf 0 ++ replicate (length l) EvDtor
                           ++ replicate (length l) relocation_event
                           ++ EvAlloc new_capacity :: log w))
     | Some k =>
         nothrow_move_constructible || copy_constructible = true →
         ∃ w', Reserve this new_capacity w = Throw w'
               ∧ heap w' = heap w ∧ objs w' = objs w
               ∧ vec_inv w' this buf cap l
               ∧ contents w' this = Some l
               ∧ log w' = Reserve_unwind_log new_capacity k ++ log w
     end).
Proof.
  intros Hinv. split.
  - intros Hle. eapply Reserve_noop; [apply Hinv|done].
  - intros Hlt _. destruct (fails_within (oracle w) _) as [k|] eqn:Hf.
    + intros Hstrong. erewrite Reserve_fail by done.
      assert (Hinv' : vec_inv (World (heap w) (next_block_after k (next_block w)) (objs w)
                                     (next_obj w) None
                                     (Reserve_unwind_log new_capacity k ++ log w))
                              this buf cap l).
      { destruct Hinv as [Ho Hlen Hblk Hfresh]. split; [done..|].
        intros b Hb. apply Hfresh. cbn [next_block] in Hb. destruct k; simpl in Hb; lia. }
      eexists. split; [done|]. repeat split; try done; try apply Hinv'.
      by eapply vec_inv_contents.
    + by eapply Reserve_run.
Qed.

End Growth.

(** Witnesses: an instrumented, copy-relocated element and a copy that
    throws. *)
Lemma EmplaceWithRelocate_strong_guarantee_witness :
  let w := world_of [tracked 7; tracked 8] 2 (Some 3) in
  (nothrow_move_constructible (T:=Tracked) || copy_constructible (T:=Tracked) = true)
  ∧ vec_inv w 0 (Some 0) 2 [tracked 7; tracked 8]
  ∧ args_ok (ByCopy (tracked 9))
  ∧ EmplaceWithRelocate 0 2 (ByCopy (tracked 9)) w =
      Throw (World (heap w) 2 (objs w) 1 None
                   [EvFree 0; EvDtor; EvDtor; EvCopyCtor; EvCopyCtor; EvAlloc 4]).
Proof.
  intros w.
  assert (H1 : @nothrow_move_constructible Tracked _ || @copy_constructible Tracked _ = true)
    by reflexivity.
  assert (H2 : vec_inv w 0 (Some 0) 2 [tracked 7; tracked 8])
    by (apply world_of_inv; simpl; lia).
  assert (H3 : args_ok (ByCopy (tracked 9))) by reflexivity.
  split; [exact H1|]. split; [exact H2|]. split; [exact H3|].
  pose proof (EmplaceWithRelocate_strong_guarantee w 0 (Some 0) [tracked 7; tracked 8] []
                (ByCopy (tracked 9)) H1 H2 H3) as H.
  vm_compute in H. vm_compute. exact H.
Defined.

Lemma Reserve_strong_guarantee_witness :
  let w := world_of [tracked 7; tracked 8; tracked 9] 3 (Some 2) in
  vec_inv w 0 (Some 0) 3 [tracked 7; tracked 8; tracked 9]
  ∧ 3 < 10 ∧ representable (T:=Tracked) 10
  ∧ (nothrow_move_constructible (T:=Tracked) || copy_constructible (T:=Tracked) = true)
  ∧ ∃ w', Reserve 0 10 w = Throw w'
          ∧ heap w' = heap w ∧ objs w' = objs w
          ∧ vec_inv w' 0 (Some 0) 3 [tracked 7; tracked 8; tracked 9]
          ∧ contents w' 0 = Some [tracked 7; tracked 8; tracked 9]
          ∧ log w' = [EvFree 0; EvDtor; EvCopyCtor; EvAlloc 10].
Proof.
  intros w.
  assert (H1 : vec_inv w 0 (Some 0) 3 [tracked 7; tracked 8; tracked 9])
    by (apply world_of_inv; simpl; lia).
  assert (H2 : 3 < 10) by lia.
  assert (Hr : representable (T:=Tracked) 10) by (by vm_compute).
  assert (H3 : @nothrow_move_constructible Tracked _ || @copy_constructible Tracked _ = true)
    by reflexivity.
  split; [exact H1|]. split; [exact H2|]. split; [exact Hr|]. split; [exact H3|].
  exact (proj2 (Reserve_strong_guarantee w 0 (Some 0) 3
                  [tracked 7; tracked 8; tracked 9] 10 H1) H2 Hr H3).
Defined.


(** C6.  Three [PushBack] calls on a default-constructed vector: sizes 1, 2,
    3 and capacities 1, 2, 4, each call relocating into a block of
    [1] or twice the old size, the capacity never below the size, and the
    elements [1, 2, 3] at the end. *)
Theorem three_PushBacks_double_the_capacity :
  state_after (Vector_default 0) (@empty_world Z)
    = Some (World ∅ 0 (<[0 := mkVector (mkRawMemory None 0) 0]> ∅) 1 None [])
  ∧ ∃ w1 w2 w3,
      state_after push_1 empty_world = Some w1
      ∧ state_after push_12 empty_world = Some w2
      ∧ state_after push_123 empty_world = Some w3
      ∧ objs w1 !! 0 = Some (mkVector (mkRawMemory (Some 0) 1) 1)
      ∧ objs w2 !! 0 = Some (mkVector (mkRawMemory (Some 1) 2) 2)
      ∧ objs w3 !! 0 = Some (mkVector (mkRawMemory (Some 2) 4) 3)
      ∧ contents w1 0 = Some [1%Z]
      ∧ contents w2 0 = Some [1%Z; 2%Z]
      ∧ contents w3 0 = Some [1%Z; 2%Z; 3%Z]
      ∧ Size 0 w3 = Ok 3 w3 ∧ Capacity 0 w3 = Ok 4 w3
      ∧ size_within_capacity w1 0 = true
      ∧ size_within_capacity w2 0 = true
      ∧ size_within_capacity w3 0 = true
      ∧ filter (λ e, e ∈ [EvAlloc 1; EvAlloc 2; EvAlloc 4]) (log w3)
        = [EvAlloc 4; EvAlloc 2; EvAlloc 1]
      ∧ (grown_capacity 0, grown_capacity 1, grown_capacity 2) = (1, 2, 4).
Proof.
  split; [vm_compute; reflexivity|].
  eexists _, _, _.
  split; [vm_compute; reflexivity|].
  split; [vm_compute; reflexivity|].
  split; [vm_compute; reflexivity|].
  repeat split; vm_compute; reflexivity.
Qed.

(** C7 (the code departs from it).  For an element type with a destructor
    to run the round trip ends in undefined behaviour: in a vector of
    capacity 4 holding two elements, [Insert] at index 1 succeeds and
    leaves three elements with the slot at index 3 raw; the [Erase] at
    index 1 that follows shifts the last element and then calls the
    destructor on the slot at index [size], index 3, which holds no
    object.  It is the destructor call of C1: [Erase] destroys
    [begin() + size_] where [PopBack] destroys [begin() + (size_ - 1)]. *)
Theorem Insert_then_Erase_destroys_raw_storage :
  let w := world_of [tracked 1; tracked 2] 4 None in
  (∃ it w1,
     (b ← begin_ 0; Insert 0 (b +ₚ 1) (tracked 9)) w = Ok it w1
     ∧ contents w1 0 = Some [tracked 1; tracked 9; tracked 2]
     ∧ slot_at w1 (Ptr (Some 0) 3) = Some Raw)
  ∧ insert_then_erase 0 1 (tracked 9) w = Fault NoObjectThere
  ∧ insert_rvalue_then_erase 0 1 (tracked 9) w = Fault NoObjectThere.
Proof.
  intros w. split.
  - eexists _, _. split; [vm_compute; reflexivity|].
    split; vm_compute; reflexivity.
  - split; vm_compute; reflexivity.
Qed.

Section Sequences.
Context {T : Type} `{!Elem T}.
Implicit Types (l : list T) (w : world T).

Lemma begin_inv w this buf cap l :
  vec_inv w this buf cap l → begin_ this w = Ok (Ptr buf 0) w.
Proof.
  intros [Ho _ _ _]. destruct w as [h nb o no orc lg]. cbn [objs] in Ho.
  by erewrite begin_run by exact Ho.
Qed.

Lemma end_inv w this buf cap l :
  vec_inv w this buf cap l → end_ this w = Ok (Ptr buf (length l)) w.
Proof.
  intros [Ho _ _ _]. destruct w as [h nb o no orc lg]. cbn [objs] in Ho.
  by erewrite end_run by exact Ho.
Qed.

Lemma Size_inv w this buf cap l :
  vec_inv w this buf cap l → Size this w = Ok (length l) w.
Proof.
  intros [Ho _ _ _]. destruct w as [h nb o no orc lg]. cbn [objs] in Ho.
  unfold Size. rewrite bind_run. by erewrite get_vec_run by exact Ho.
Qed.

Lemma vec_inv_nonempty w this buf cap l :
  vec_inv w this buf cap l → l ≠ [] → ∃ b, buf = Some b.
Proof.
  intros [_ Hlen Hblk _] Hl. destruct buf as [b|]; [by eexists|].
  subst. destruct l; [done|simpl in Hlen; lia].
Qed.

(** C8.  Copy assignment from a right-hand side larger than the capacity
    copies into a temporary and swaps: when nothing throws, the left-hand
    side holds a copy in a new block of exactly that size, its old
    elements destroyed and its old block released; when the allocation or
    a copy throws, the heap and both vectors are exactly as before. *)
Theorem copy_assignment_reallocating_branch w this rhs buf cap l rbuf rcap lr :
  copy_constructible = true →
  vec_inv w this buf cap l → vec_inv w rhs rbuf rcap lr → objs_fresh w →
  cap < length lr →
  match fails_within (oracle w) (1 + length lr) with
  | None =>
      Vector_copy_assign this rhs w =
        Ok () (World (<[next_block w := slots_of lr (length lr)]> (released buf (heap w)))
                     (S (next_block w))
                     (<[this := mkVector (mkRawMemory (Some (next_block w)) (length lr))
                                         (length lr)]> (objs w))
                     (S (next_obj w))
                     (tick (1 + length lr) (oracle w))
                     (release_log buf 0 ++ replicate (length l) EvDtor
                        ++ replicate (length lr) EvCopyCtor
                        ++ EvAlloc (length lr) :: log w))
  | Some k =>
      ∃ w', Vector_copy_assign this rhs w = Throw w'
            ∧ heap w' = heap w ∧ objs w' = objs w
            ∧ contents w' this = Some l ∧ contents w' rhs = Some lr
            ∧ log w' = Reserve_unwind_log (length lr) k ++ log w
  end.
Proof.
  intros Hc Hinv Hrinv Hfresh Hcap.
  assert (Hne : this ≠ rhs).
  { intros ->. destruct Hinv as [Ho Hlen _ _], Hrinv as [Hor _ _ _].
    rewrite Ho in Hor. injection Hor as _ Hsz. lia. }
  destruct (fails_within (oracle w) _) as [k|] eqn:Hf.
  - erewrite Vector_copy_assign_fail by done.
    eexists. split; [done|]. cbn [heap objs log]. repeat split.
    + destruct Hinv as [Ho Hlen Hblk _]. eapply contents_run; [exact Ho|].
      destruct buf as [b|]; [exact Hblk|]. subst. destruct l; [done|simpl in Hlen; lia].
    + destruct Hrinv as [Ho Hlen Hblk _]. eapply contents_run; [exact Ho|].
      destruct rbuf as [b|]; [exact Hblk|]. subst. destruct lr; [done|simpl in Hlen; lia].
  - by eapply Vector_copy_assign_run.
Qed.

(** C9.  Moving vector [a] into vector [b], by move construction or by
    move assignment, never throws; [b] then has [a]'s block, capacity,
    size and elements, [a] is empty with a null block of capacity 0, and
    no element constructor or destructor has run. *)
Theorem moving_a_vector w a b buf cap l :
  a ≠ b → vec_inv w a buf cap l →
  (∃ w', Vector_move_ctor b a w = Ok () w'
         ∧ vec_inv w' b buf cap l ∧ vec_inv w' a None 0 []
         ∧ heap w' = heap w ∧ log w' = log w)
  ∧ (∀ bbuf bcap lb,
       vec_inv w b bbuf bcap lb → (∀ x, buf = Some x → bbuf ≠ Some x) →
       ∃ w', Vector_move_assign b a w = Ok () w'
             ∧ vec_inv w' b buf cap l ∧ vec_inv w' a None 0 []
             ∧ heap w' = released bbuf (heap w)
             ∧ log w' = release_log bbuf (length lb) ++ log w
             ∧ count is_ctor (release_log bbuf (length lb)) = 0
             ∧ count is_dtor (release_log bbuf (length lb)) = 0).
Proof.
  intros Hne [Ho Hlen Hblk Hfresh]. split.
  - erewrite Vector_move_ctor_run by done. eexists. split; [done|].
    repeat split; cbn [heap objs next_block log]; try done.
    + by rewrite lookup_insert_ne, lookup_insert_eq.
    + by rewrite lookup_insert_eq.
  - intros bbuf bcap lb Hb Hdisj. pose proof Hb as [Hbo Hblen Hbblk _].
    erewrite Vector_move_assign_run by done. eexists. split; [done|].
    repeat split; cbn [heap objs next_block log]; try done.
    + by rewrite lookup_insert_ne, lookup_insert_eq.
    + destruct buf as [x|]; [|done]. unfold released. destruct bbuf as [y|]; [|done].
      rewrite lookup_delete_ne; [done|]. intros ->. by eapply Hdisj.
    + intros b' Hb'. unfold released. cbn [heap next_block] in *.
      destruct bbuf as [y|]; [|by apply Hfresh].
      destruct (decide (b' = y)) as [->|]; [by rewrite lookup_delete_eq|].
      rewrite lookup_delete_ne by done. by apply Hfresh.
    + by rewrite lookup_insert_eq.
    + intros b' Hb'. unfold released. cbn [heap next_block] in *.
      destruct bbuf as [y|]; [|by apply Hfresh].
      destruct (decide (b' = y)) as [->|]; [by rewrite lookup_delete_eq|].
      rewrite lookup_delete_ne by done. by apply Hfresh.
    + by destruct bbuf.
    + by destruct bbuf.
Qed.

(** C10.  [Emplace] at offset [p] returns [begin() + p] of the vector as it
    is after the call, and the new element lives there, whether the
    elements were relocated or shifted in place; [EmplaceBack] returns the
    last element, which is the new one; [Insert] is [Emplace] of a copy or
    of a moved value. *)
Theorem Emplace_returns_the_new_element w this buf cap l p a :
  vec_inv w this buf cap l → p ≤ length l → args_ok a →
  match fails_within (oracle w) (emplace_ticks a p (length l - p) cap) with
  | None =>
      ∃ it w', Emplace this (Ptr buf p) a w = Ok it w'
               ∧ begin_ this w' = Ok (it -ₚ p) w' ∧ off it = p
               ∧ load it w' = Ok (args_value a) w'
               ∧ contents w' this = Some (take p l ++ args_value a :: drop p l)
  | Some _ => ∃ w', Emplace this (Ptr buf p) a w = Throw w'
  end
  ∧ match fails_within (oracle w) (emplace_ticks a (length l) 0 cap) with
    | None =>
        ∃ r w', EmplaceBack this a w = Ok r w'
                ∧ end_ this w' = Ok (r +ₚ 1) w'
                ∧ load r w' = Ok (args_value a) w'
                ∧ contents w' this = Some (l ++ [args_value a])
    | Some _ => ∃ w', EmplaceBack this a w = Throw w'
    end
  ∧ (∀ pos value, Insert this pos value = Emplace this pos (ByCopy value))
  ∧ (∀ pos value, Insert_rvalue this pos value = Emplace this pos (ByMove value)).
Proof.
  intros Hinv Hp Hok.
  assert (Hgen : ∀ l1 l2, l = l1 ++ l2 →
    match fails_within (oracle w) (emplace_ticks a (length l1) (length l2) cap) with
    | None =>
        ∃ it w' buf' cap', Emplace this (Ptr buf (length l1)) a w = Ok it w'
                 ∧ it = Ptr buf' (length l1)
                 ∧ vec_inv w' this buf' cap' (l1 ++ args_value a :: l2)
                 ∧ load it w' = Ok (args_value a) w'
    | Some _ => ∃ w', Emplace this (Ptr buf (length l1)) a w = Throw w'
    end).
  { intros l1 l2 ->.
    pose proof (Emplace_run w this buf cap l1 l2 a Hinv Hok) as Hins.
    destruct (fails_within (oracle w) _) as [k|]; [done|].
    destruct Hins as (w1 & buf' & cap' & Hrun & Hinv1 & _).
    eexists _, w1, buf', cap'. split; [exact Hrun|]. split; [done|]. split; [done|].
    destruct (vec_inv_nonempty _ _ _ _ _ Hinv1) as [b' ->]; [by destruct l1|].
    destruct Hinv1 as [_ _ Hblk _]. destruct w1 as [h1 nb1 o1 no1 orc1 lg1].
    cbn [heap] in Hblk. eapply load_run; [exact Hblk|].
    unfold slots_of. rewrite fmap_app, fmap_cons, <-(assoc_L (++)), <-app_comm_cons.
    apply list_lookup_middle. by rewrite length_fmap. }
  split; [|split; [|split; done]].
  - specialize (Hgen (take p l) (drop p l)).
    rewrite length_take, length_drop in Hgen.
    replace (p `min` length l) with p in Hgen by lia.
    specialize (Hgen (eq_sym (take_drop p l))).
    destruct (fails_within (oracle w) _) as [k|]; [done|].
    destruct Hgen as (it & w' & buf' & cap' & Hrun & -> & Hinv1 & Hload).
    eexists _, _. split; [exact Hrun|].
    split; [|split; [done|split; [done|by eapply vec_inv_contents]]].
    unfold ptr_sub. cbn [base off]. rewrite Nat.sub_diag. by eapply begin_inv.
  - specialize (Hgen l []). rewrite app_nil_r in Hgen. cbn [length] in Hgen.
    specialize (Hgen eq_refl).
    unfold EmplaceBack. rewrite bind_run, (end_inv _ _ _ _ _ Hinv).
    destruct (fails_within (oracle w) _) as [k|]; [done|].
    destruct Hgen as (it & w' & buf' & cap' & Hrun & -> & Hinv1 & Hload).
    eexists _, _. split; [exact Hrun|].
    split; [|split; [done|by eapply vec_inv_contents]].
    erewrite end_inv by done. unfold ptr_add. cbn [base off].
    by rewrite length_app.
Qed.
End Sequences.

(** Witnesses *)
Lemma copy_assignment_reallocating_branch_witness :
  let w := world_of2 [tracked 1] 1 [tracked 7; tracked 8; tracked 9] 3 (Some 2) in
  copy_constructible (T:=Tracked) = true
  ∧ vec_inv w 0 (Some 0) 1 [tracked 1]
  ∧ vec_inv w 1 (Some 1) 3 [tracked 7; tracked 8; tracked 9]
  ∧ objs_fresh w ∧ 1 < 3
  ∧ ∃ w', Vector_copy_assign 0 1 w = Throw w'
          ∧ heap w' = heap w ∧ objs w' = objs w
          ∧ contents w' 0 = Some [tracked 1]
          ∧ contents w' 1 = Some [tracked 7; tracked 8; tracked 9]
          ∧ log w' = [EvFree 0; EvDtor; EvCopyCtor; EvAlloc 3].
Proof.
  intros w.
  assert (H1 : copy_constructible (T:=Tracked) = true) by reflexivity.
  assert (H3 : vec_inv w 0 (Some 0) 1 [tracked 1]) by (apply world_of2_inv0; simpl; lia).
  assert (H4 : vec_inv w 1 (Some 1) 3 [tracked 7; tracked 8; tracked 9])
    by (apply world_of2_inv1; simpl; lia).
  assert (H5 : objs_fresh w) by apply world_of2_objs_fresh.
  assert (H6 : 1 < length [tracked 7; tracked 8; tracked 9]) by (simpl; lia).
  split; [exact H1|]. split; [exact H3|]. split; [exact H4|].
  split; [exact H5|]. split; [lia|].
  exact (copy_assignment_reallocating_branch w 0 1 (Some 0) 1 [tracked 1] (Some 1) 3
           [tracked 7; tracked 8; tracked 9] H1 H3 H4 H5 H6).
Defined.

Lemma moving_a_vector_witness :
  let w := world_of2 [1; 2]%Z 2 [3]%Z 1 None in
  1 ≠ 0 ∧ vec_inv w 1 (Some 1) 1 [3]%Z
  ∧ (∃ w', Vector_move_ctor 5 1 w = Ok () w'
           ∧ vec_inv w' 5 (Some 1) 1 [3]%Z ∧ vec_inv w' 1 None 0 []
           ∧ heap w' = heap w ∧ log w' = log w)
  ∧ (∃ w', Vector_move_assign 0 1 w = Ok () w'
           ∧ vec_inv w' 0 (Some 1) 1 [3]%Z ∧ vec_inv w' 1 None 0 []
           ∧ heap w' = released (Some 0) (heap w)
           ∧ log w' = [EvFree 2]).
Proof.
  intros w.
  assert (H1 : 1 ≠ 0) by lia.
  assert (H2 : vec_inv w 1 (Some 1) 1 [3]%Z) by (apply world_of2_inv1; simpl; lia).
  assert (H3 : 1 ≠ 5) by lia.
  assert (H4 : vec_inv w 0 (Some 0) 2 [1; 2]%Z) by (apply world_of2_inv0; simpl; lia).
  assert (H5 : ∀ x, Some 1 = Some x → Some 0 ≠ Some x) by (intros x [= <-]; discriminate).
  split; [exact H1|]. split; [exact H2|]. split.
  - exact (proj1 (moving_a_vector w 1 5 (Some 1) 1 [3]%Z H3 H2)).
  - destruct (proj2 (moving_a_vector w 1 0 (Some 1) 1 [3]%Z H1 H2) (Some 0) 2 [1; 2]%Z H4 H5)
      as (w' & Hrun & Hb & Ha & Hheap & Hlog & _).
    exists w'. split; [exact Hrun|]. split; [exact Hb|]. split; [exact Ha|].
    split; [exact Hheap|exact Hlog].
Defined.

Lemma Emplace_returns_the_new_element_witness :
  let w := world_of [1; 2; 3]%Z 4 None in
  vec_inv w 0 (Some 0) 4 [1; 2; 3]%Z ∧ 1 ≤ 3 ∧ args_ok (ByArgs 9%Z)
  ∧ (∃ it w', Emplace 0 (Ptr (Some 0) 1) (ByArgs 9%Z) w = Ok it w'
              ∧ begin_ 0 w' = Ok (it -ₚ 1) w' ∧ off it = 1
              ∧ load it w' = Ok 9%Z w'
              ∧ contents w' 0 = Some [1; 9; 2; 3]%Z).
Proof.
  intros w.
  assert (H1 : vec_inv w 0 (Some 0) 4 [1; 2; 3]%Z) by (apply world_of_inv; simpl; lia).
  assert (H2 : 1 ≤ length [1; 2; 3]%Z) by (simpl; lia).
  assert (H3 : args_ok (ByArgs 9%Z)) by exact I.
  split; [exact H1|]. split; [lia|]. split; [exact H3|].
  exact (proj1 (Emplace_returns_the_new_element w 0 (Some 0) 4 [1; 2; 3]%Z 1 (ByArgs 9%Z)
                  H1 H2 H3)).
Defined.

(** * The remaining operations *)

Section Construction.
Context {T : Type} `{!Elem T}.
Implicit Types (h : gmap nat (list (slot T))) (o : gmap nat Vector)
  (orc : option nat) (lg : list event) (blk pre post : list (slot T))
  (l vs : list T) (w : world T).

Lemma value_construct_run h nb o no orc lg b i blk :
  h !! b = Some blk → blk !! i = Some Raw →
  value_construct (Ptr (Some b) i) (World h nb o no orc lg) =
    match fails_within orc 1 with
    | None => Ok () (World (<[b := <[i := Live value_init]> blk]> h) nb o no (tick 1 orc)
                           (EvCtor :: lg))
    | Some _ => Throw (World h nb o no None lg)
    end.
Proof.
  intros Hb Hi. unfold value_construct. rewrite bind_run, may_throw_run.
  destruct (fails_within orc 1); [done|]. by erewrite construct_at_run.
Qed.

Lemma uninitialized_value_loop_run bd nb o no dpre dpost n :
  ∀ h orc lg done i first,
  h !! bd = Some (dpre ++ (Live <$> replicate done value_init) ++ replicate n Raw ++ dpost) →
  i = length dpre →
  uninitialized_loop (λ cur _, value_construct cur) first n
    (Ptr (Some bd) i) (Ptr (Some bd) (i + done)) (World h nb o no orc lg) =
    match fails_within orc n with
    | None =>
        Ok () (World (<[bd := dpre ++ (Live <$> replicate (done + n) value_init) ++ dpost]> h)
                     nb o no (tick n orc) (replicate n EvCtor ++ lg))
    | Some k =>
        Throw (World (<[bd := dpre ++ replicate (done + n) Raw ++ dpost]> h) nb o no None
                     (replicate (done + k) EvDtor ++ replicate k EvCtor ++ lg))
    end.
Proof.
  induction n as [|n IH]; intros h orc lg done i first Hd ->.
  - simpl. rewrite fails_within_0, ret_run, tick_0.
    simpl in Hd. rewrite Nat.add_0_r. by rewrite insert_id.
  - cbn [uninitialized_loop]. rewrite bind_run, on_throw_run.
    rewrite replicate_S, <-app_comm_cons in Hd.
    erewrite value_construct_run; [|exact Hd|].
    2:{ rewrite (assoc_L (++)). apply list_lookup_middle.
        by rewrite length_app, length_fmap, length_replicate. }
    change (S n) with (1 + n).
    rewrite (fails_within_split orc 1 n).
    destruct (fails_within orc 1) as [k|] eqn:Hf.
    + apply fails_within_1 in Hf as ->.
      cbn [off]. replace (length dpre + done - length dpre) with done by lia.
      rewrite <-(length_replicate done (@value_init T _)) at 1.
      erewrite destroy_n_run; [|exact Hd|done].
      rewrite length_replicate. do 2 f_equal.
      * f_equal. rewrite replicate_add. by list_norm.
      * by rewrite Nat.add_0_r.
    + change (Ptr (Some bd) (length dpre + done) +ₚ 1)
        with (Ptr (Some bd) (length dpre + done + 1)).
      replace (length dpre + done + 1) with (length dpre + S done) by lia.
      rewrite (IH _ _ _ (S done)); [| |done].
      * destruct (fails_within (tick 1 orc) n) as [k|]; cbn [fmap option_fmap option_map].
        -- do 2 f_equal.
           ++ rewrite insert_insert_eq.
              by replace (S done + n) with (done + (1 + n)) by lia.
           ++ replace (S done + k) with (done + (1 + k)) by lia.
              f_equal. by rewrite replicate_snoc_app.
        -- do 2 f_equal.
           ++ rewrite insert_insert_eq.
              by replace (S done + n) with (done + (1 + n)) by lia.
           ++ by rewrite tick_tick.
           ++ by rewrite replicate_snoc_app.
      * rewrite lookup_insert_eq. f_equal.
        rewrite (assoc_L (++) dpre), insert_middle
          by (rewrite length_app, length_fmap, length_replicate; lia).
        rewrite replicate_S_end, fmap_app. by list_norm.
Qed.

Lemma RawMemory_ctor_run h nb o no orc lg n :
  RawMemory_ctor n (World h nb o no orc lg) =
    match fails_within orc (alloc_ticks n) with
    | None => Ok (mkRawMemory (allocated n nb) n)
                 (World (match n with 0 => h | S _ => <[nb := replicate n Raw]> h end)
                        (next_block_alloc n nb) o no
                        (tick (alloc_ticks n) orc) (alloc_log n ++ lg))
    | Some _ => Throw (World h nb o no None lg)
    end.
Proof.
  unfold RawMemory_ctor. rewrite bind_run. destruct n as [|n].
  - unfold Allocate. rewrite decide_False by (intros ?; done).
    cbn [alloc_ticks]. by rewrite fails_within_0, !ret_run, tick_0.
  - rewrite Allocate_run by done. cbn [alloc_ticks].
    by destruct (fails_within orc 1).
Qed.

Lemma slots_of_full l : slots_of l (length l) = Live <$> l.
Proof. unfold slots_of. rewrite Nat.sub_diag. simpl. by rewrite app_nil_r. Qed.

Lemma Vector_sized_run h nb o no orc lg this n :
  h !! nb = None → o !! this = None →
  Vector_sized this n (World h nb o no orc lg) =
    match fails_within orc (construction_ticks n) with
    | None =>
        Ok () (World (match n with
                      | 0 => h
                      | S _ => <[nb := slots_of (replicate n value_init) n]> h
                      end)
                     (next_block_alloc n nb)
                     (<[this := mkVector (mkRawMemory (allocated n nb) n) n]> o) no
                     (tick (construction_ticks n) orc)
                     (replicate n EvCtor ++ alloc_log n ++ lg))
    | Some k =>
        Throw (World h (next_block_after k nb) o no None (ctor_unwind_log EvCtor n k ++ lg))
    end.
Proof.
  intros Hnb Hthis. unfold Vector_sized. rewrite bind_run, RawMemory_ctor_run.
  destruct n as [|n].
  - change (construction_ticks 0) with 0. cbn [alloc_ticks].
    rewrite fails_within_0, bind_run, put_vec_run.
    rewrite on_throw_run, bind_run. erewrite begin_run by apply lookup_insert_eq.
    unfold uninitialized_value_construct_n. simpl. by rewrite tick_0.
  - change (construction_ticks (S n)) with (1 + S n).
    cbn [alloc_ticks allocated next_block_alloc alloc_log app].
    rewrite (fails_within_split orc 1 (S n)).
    destruct (fails_within orc 1) as [k|] eqn:Hf.
    { by apply fails_within_1 in Hf as ->. }
    rewrite bind_run, put_vec_run, on_throw_run, bind_run.
    erewrite begin_run by apply lookup_insert_eq.
    cbn [data_ buffer_]. unfold uninitialized_value_construct_n.
    change (Ptr (Some nb) 0) with (Ptr (Some nb) (0 + 0)) at 3.
    erewrite (uninitialized_value_loop_run nb _ _ _ [] [] (S n) _ _ _ 0 0);
      [|by rewrite lookup_insert_eq, app_nil_r|done].
    destruct (fails_within (tick 1 orc) (S n)) as [k|]; cbn [fmap option_fmap option_map].
    + rewrite bind_run. unfold RawMemory_dtor. cbn [buffer_].
      erewrite Deallocate_run by (cbn; apply lookup_insert_eq).
      rewrite del_vec_run. do 2 f_equal.
      * cbn [released]. rewrite insert_insert_eq, delete_insert_id by done. done.
      * by rewrite delete_insert_id.
      * cbn [release_log ctor_unwind_log Nat.add app].
        rewrite app_nil_r. change (Raw :: replicate n Raw) with (replicate (S n) (@Raw T)).
        rewrite live_count_raw. by list_norm.
    + do 2 f_equal.
      * rewrite insert_insert_eq. f_equal. unfold slots_of.
        rewrite length_replicate, Nat.sub_diag. by list_norm.
      * by rewrite tick_tick.
Qed.
End Construction.

Section Access.
Context {T : Type} `{!Elem T}.
Implicit Types (w : world T) (l lr : list T).

Lemma vec_inv_buffer w this buf cap l :
  vec_inv w this buf cap l → l ≠ [] → ∃ b, buf = Some b ∧ heap w !! b = Some (slots_of l cap).
Proof.
  intros [Ho Hl Hb Hf] Hne. destruct buf as [b|]; [by exists b|].
  subst cap. destruct l; [done|simpl in Hl; lia].
Qed.

Lemma Vector_copy_ctor_any w this other rbuf rcap lr :
  copy_constructible = true → vec_inv w other rbuf rcap lr → objs w !! this = None →
  Vector_copy_ctor this other w =
    match fails_within (oracle w) (construction_ticks (length lr)) with
    | None =>
        Ok () (World (match lr with
                      | [] => heap w
                      | _ => <[next_block w := slots_of lr (length lr)]> (heap w)
                      end)
                     (next_block_alloc (length lr) (next_block w))
                     (<[this := mkVector (mkRawMemory (allocated (length lr) (next_block w))
                                                      (length lr)) (length lr)]> (objs w))
                     (next_obj w)
                     (tick (construction_ticks (length lr)) (oracle w))
                     (replicate (length lr) EvCopyCtor ++ alloc_log (length lr) ++ log w))
    | Some k =>
        Throw (World (heap w) (next_block_after k (next_block w)) (objs w) (next_obj w) None
                     (ctor_unwind_log EvCopyCtor (length lr) k ++ log w))
    end.
Proof.
  intros Hc Hinv Hthis.
  assert (this ≠ other) as Hto by (intros ->; destruct Hinv; congruence).
  destruct lr as [|x lr].
  - destruct Hinv as [Ho _ _ _]. destruct w as [h nb o no orc lg]. simpl in *.
    change (construction_ticks 0) with 0. rewrite fails_within_0, tick_0.
    unfold Vector_copy_ctor. rewrite bind_run. erewrite get_vec_run by done. cbn [size_].
    rewrite bind_run, RawMemory_ctor_run. cbn [alloc_ticks].
    rewrite fails_within_0, tick_0, bind_run, put_vec_run, on_throw_run, bind_run.
    erewrite begin_run by (by rewrite lookup_insert_ne).
    rewrite bind_run. erewrite begin_run by apply lookup_insert_eq.
    reflexivity.
  - destruct (vec_inv_buffer _ _ _ _ _ Hinv) as (rb & -> & Hrb); [done|].
    destruct Hinv as [Ho _ _ Hfr]. destruct w as [h nb o no orc lg]. simpl in *.
    assert (h !! nb = None) as Hnb by (apply Hfr; simpl; lia).
    change (construction_ticks (S (length lr))) with (1 + length (x :: lr)).
    change (S (length lr)) with (length (x :: lr)).
    destruct (fails_within orc (1 + length (x :: lr))) as [k|] eqn:Hf.
    + rewrite (Vector_copy_ctor_fail h nb o no orc lg this other rb rcap (x :: lr) k) by done.
      by destruct k.
    + by rewrite (Vector_copy_ctor_run h nb o no orc lg this other rb rcap (x :: lr)) by done.
Qed.

Lemma PopBack_run w this buf cap l x :
  vec_inv w this buf cap (l ++ [x]) →
  ∃ b, buf = Some b ∧
    PopBack this w =
      Ok () (World (<[b := slots_of l cap]> (heap w)) (next_block w)
                   (<[this := mkVector (mkRawMemory buf cap) (length l)]> (objs w))
                   (next_obj w) (oracle w) (EvDtor :: log w)).
Proof.
  intros Hinv.
  destruct (vec_inv_buffer _ _ _ _ _ Hinv) as (b & -> & Hb); [by destruct l|].
  exists b. split; [done|].
  destruct Hinv as [Ho Hl _ _]. destruct w as [h nb o no orc lg]. simpl in *.
  rewrite length_app in Ho, Hl. simpl in Ho, Hl.
  unfold PopBack. rewrite bind_run. erewrite get_vec_run by done. cbn [size_ data_].
  rewrite decide_True by lia.
  rewrite bind_run. erewrite begin_run by done. cbn [data_ buffer_].
  rewrite bind_run.
  change (Ptr (Some b) 0 +ₚ (length l + 1 - 1)) with (Ptr (Some b) (0 + (length l + 1 - 1))).
  unfold slots_of in Hb. rewrite fmap_app, <-(assoc_L (++)) in Hb.
  erewrite (destroy_n_run [x]); [|exact Hb|rewrite length_fmap; lia].
  erewrite set_size_run by done. cbn [data_ length replicate].
  replace (length l + 1 - 1) with (length l) by lia.
  do 2 f_equal. f_equal. unfold slots_of. f_equal. rewrite length_app. simpl.
  rewrite <-replicate_S. f_equal. lia.
Qed.

Lemma PopBack_empty w this buf cap :
  vec_inv w this buf cap [] → PopBack this w = Ok () w.
Proof.
  intros [Ho _ _ _]. destruct w as [h nb o no orc lg]. simpl in *.
  unfold PopBack. rewrite bind_run. erewrite get_vec_run by done. cbn [size_].
  by rewrite decide_False by (intros ?; done).
Qed.

Lemma vec_inv_insert w this buf b cap l l' lg' orc' :
  vec_inv w this buf cap l → buf = Some b → length l' ≤ cap →
  vec_inv (World (<[b := slots_of l' cap]> (heap w)) (next_block w)
                 (<[this := mkVector (mkRawMemory buf cap) (length l')]> (objs w))
                 (next_obj w) orc' lg') this buf cap l'.
Proof.
  intros [Ho Hl Hb Hf] -> Hl'. split; simpl.
  - apply lookup_insert_eq.
  - done.
  - apply lookup_insert_eq.
  - intros b' Hb'. simpl in *. rewrite lookup_insert_ne; [by apply Hf|].
    intros <-. rewrite Hf in Hb by done. done.
Qed.

Lemma Vector_at_run w this buf cap l i :
  vec_inv w this buf cap l → i < length l → Vector_at this i w = Ok (Ptr buf i) w.
Proof.
  intros [Ho Hl _ _] Hi. destruct w as [h nb o no orc lg]. simpl in *.
  unfold Vector_at. rewrite bind_run. erewrite get_vec_run by done. cbn [size_ data_].
  rewrite bind_run, assert_run by (by apply bool_decide_eq_true).
  rewrite RawMemory_at_run by (simpl; lia). done.
Qed.

Lemma Vector_at_out w this buf cap l i :
  vec_inv w this buf cap l → length l ≤ i → Vector_at this i w = Fault AssertFailed.
Proof.
  intros [Ho Hl _ _] Hi. destruct w as [h nb o no orc lg]. simpl in *.
  unfold Vector_at. rewrite bind_run. erewrite get_vec_run by done. cbn [size_ data_].
  rewrite bind_run. rewrite bool_decide_eq_false_2 by lia. done.
Qed.

Lemma load_inv w this buf cap l i x :
  vec_inv w this buf cap l → l !! i = Some x → load (Ptr buf i) w = Ok x w.
Proof.
  intros Hinv Hi.
  destruct (vec_inv_buffer _ _ _ _ _ Hinv) as (b & -> & Hb); [by destruct l|].
  destruct w as [h nb o no orc lg]. simpl in *.
  eapply load_run; [exact Hb|]. unfold slots_of.
  rewrite lookup_app_l by (rewrite length_fmap; by eapply lookup_lt_Some).
  by rewrite list_lookup_fmap, Hi.
Qed.
End Access.

Section Resizing.
Context {T : Type} `{!Elem T}.
Implicit Types (w : world T) (l : list T).

Lemma value_fill_run h nb o no orc lg b l cap m :
  h !! b = Some (slots_of l cap) → length l + m ≤ cap →
  uninitialized_value_construct_n (Ptr (Some b) (length l)) m (World h nb o no orc lg) =
    match fails_within orc m with
    | None => Ok () (World (<[b := slots_of (l ++ replicate m value_init) cap]> h) nb o no
                           (tick m orc) (replicate m EvCtor ++ lg))
    | Some k => Throw (World h nb o no None (replicate k EvDtor ++ replicate k EvCtor ++ lg))
    end.
Proof.
  intros Hb Hl. unfold uninitialized_value_construct_n.
  pose proof (uninitialized_value_loop_run b nb o no (Live <$> l)
                (replicate (cap - (length l + m)) Raw) m h orc lg 0 (length l)
                (Ptr (Some b) (length l))) as Hrun.
  rewrite Nat.add_0_r in Hrun. rewrite Hrun; clear Hrun.
  - destruct (fails_within orc m) as [k|].
    + do 2 f_equal. rewrite <-replicate_add, insert_id; [done|].
      rewrite Hb. unfold slots_of. do 3 f_equal. lia.
    + do 3 f_equal. unfold slots_of.
      rewrite fmap_app, <-(assoc_L (++)), length_app, length_replicate. done.
  - rewrite Hb. unfold slots_of. simpl. rewrite <-replicate_add. do 3 f_equal. lia.
  - by rewrite length_fmap.
Qed.

Lemma Resize_shrink w this buf cap l n :
  vec_inv w this buf cap l → n < length l →
  ∃ b, buf = Some b ∧
    Resize this n w =
      Ok () (World (<[b := slots_of (take n l) cap]> (heap w)) (next_block w)
                   (<[this := mkVector (mkRawMemory buf cap) (length (take n l))]> (objs w))
                   (next_obj w) (oracle w) (replicate (length l - n) EvDtor ++ log w)).
Proof.
  intros Hinv Hn.
  destruct (vec_inv_buffer _ _ _ _ _ Hinv) as (b & -> & Hb); [destruct l; [simpl in Hn; lia|done]|].
  exists b. split; [done|].
  destruct Hinv as [Ho Hl _ _]. destruct w as [h nb o no orc lg]. simpl in *.
  unfold Resize. rewrite bind_run. erewrite get_vec_run by done. cbn [size_ data_].
  rewrite bind_run, decide_True by done.
  rewrite bind_run. erewrite begin_run by done. cbn [data_ buffer_].
  change (Ptr (Some b) 0 +ₚ n) with (Ptr (Some b) (0 + n)).
  unfold slots_of in Hb. rewrite <-(take_drop n l), fmap_app, <-(assoc_L (++)) in Hb.
  rewrite <-(length_drop l n).
  erewrite (destroy_n_run (drop n l)); [|exact Hb|by rewrite length_fmap, length_take; lia].
  erewrite set_size_run by done. cbn [data_].
  rewrite length_take, Nat.min_l by lia.
  do 2 f_equal. f_equal. unfold slots_of. f_equal.
  rewrite <-replicate_add, length_take, length_drop. f_equal.
  rewrite length_app, length_take, length_drop. lia.
Qed.

Lemma Resize_same w this buf cap l :
  vec_inv w this buf cap l → Resize this (length l) w = Ok () w.
Proof.
  intros [Ho Hl _ _]. destruct w as [h nb o no orc lg]. simpl in *.
  unfold Resize. rewrite bind_run. erewrite get_vec_run by done. cbn [size_ data_].
  rewrite bind_run, decide_False, decide_False by lia. rewrite ret_run.
  erewrite set_size_run by done. cbn [data_]. by rewrite insert_id.
Qed.

Lemma Resize_grow w this buf cap l n :
  vec_inv w this buf cap l → length l < n →
  match fails_within (oracle w) (Resize_ticks cap (length l) n) with
  | None =>
      ∃ w' buf', Resize this n w = Ok () w'
        ∧ vec_inv w' this buf' (cap `max` n) (l ++ replicate (n - length l) value_init)
        ∧ buf' = (if decide (n ≤ cap) then buf else Some (next_block w))
        ∧ oracle w' = tick (Resize_ticks cap (length l) n) (oracle w)
        ∧ (∀ other, other ≠ this → objs w' !! other = objs w !! other)
  | Some k =>
      nothrow_move_constructible || copy_constructible = true →
      ∃ w' buf' cap', Resize this n w = Throw w'
        ∧ vec_inv w' this buf' cap' l
        ∧ (∀ other, other ≠ this → objs w' !! other = objs w !! other)
  end.
Proof.
  intros Hinv Hn. unfold Resize_ticks, Reserve_ticks.
  pose proof Hinv as [Ho Hl Hb Hfr].
  unfold Resize. rewrite bind_run.
  destruct (decide (n ≤ cap)) as [Hcap|Hcap].
  - (* the capacity suffices *)
    assert (∃ b, buf = Some b) as [b ->].
    { destruct buf as [b|]; [by exists b|]. subst cap. lia. }
    destruct w as [h nb o no orc lg]. simpl in *.
    erewrite get_vec_run by done. cbn [size_ data_].
    rewrite bind_run, decide_False, decide_True by lia.
    rewrite bind_run. erewrite Reserve_noop; [|exact Ho|simpl; lia].
    rewrite bind_run. erewrite begin_run by done. cbn [data_ buffer_].
    change (Ptr (Some b) 0 +ₚ length l) with (Ptr (Some b) (length l)).
    rewrite (value_fill_run _ _ _ _ _ _ _ _ cap) by (done || lia).
    destruct (fails_within orc (n - length l)) as [k|] eqn:Hf.
    + intros _. eexists _, (Some b), cap. split; [done|]. split; [|done].
      by split.
    + eexists _, (Some b). split; [by erewrite set_size_run by done|].
      rewrite Nat.max_l by lia. split.
      2:{ split; [done|]. split; [done|].
          intros other Hne. simpl. by rewrite lookup_insert_ne. }
      replace n with (length (l ++ replicate (n - length l) (@value_init T _))) at 2
        by (rewrite length_app, length_replicate; lia).
      eapply (vec_inv_insert (World h nb o no orc lg)); [done..|].
      rewrite length_app, length_replicate. lia.
  - (* the capacity does not suffice *)
    assert (cap < n) as Hlt by lia.
    rewrite fails_within_split.
    destruct (fails_within (oracle w) (1 + ticks_unless nothrow_move_constructible (length l)))
      as [k|] eqn:Hf.
    + intros Hstrong. pose proof (Reserve_fail w this buf cap l n k Hstrong Hinv Hlt Hf) as HR.
      destruct w as [h nb o no orc lg]. simpl in *.
      erewrite get_vec_run by done. cbn [size_ data_].
      rewrite bind_run, decide_False, decide_True by lia.
      rewrite bind_run, HR. eexists _, buf, cap. split; [done|]. split; [|done].
      split; simpl; try done. intros b' Hb'. apply Hfr. simpl. destruct k; simpl in Hb'; lia.
    + pose proof (Reserve_run w this buf cap l n Hinv Hlt Hf) as HR.
      destruct w as [h nb o no orc lg]. simpl in *.
      erewrite get_vec_run by done. cbn [size_ data_].
      rewrite bind_run, decide_False, decide_True by lia.
      rewrite bind_run, HR.
      rewrite bind_run. erewrite begin_run by apply lookup_insert_eq. cbn [data_ buffer_].
      change (Ptr (Some nb) 0 +ₚ length l) with (Ptr (Some nb) (length l)).
      rewrite (value_fill_run _ _ _ _ _ _ _ _ n)
        by (by rewrite lookup_insert_eq || lia).
      assert (∀ b', S nb ≤ b' → released buf h !! b' = None) as Hrel.
      { intros b' Hb'. destruct buf as [b0|]; simpl.
        - rewrite lookup_delete_ne; [apply Hfr; simpl; lia|].
          intros ->. rewrite Hfr in Hb by (simpl; lia). done.
        - apply Hfr. simpl. lia. }
      destruct (fails_within _ (n - length l)) as [k|] eqn:Hf2; cbn [fmap option_fmap option_map].
      * intros _. eexists _, (Some nb), n. split; [done|].
        split; [|intros other Hne; simpl; by rewrite lookup_insert_ne].
        split; simpl.
        -- apply lookup_insert_eq.
        -- lia.
        -- apply lookup_insert_eq.
        -- intros b' Hb'. simpl in *. rewrite lookup_insert_ne by lia. apply Hrel. lia.
      * eexists _, (Some nb).
        split; [by erewrite set_size_run by apply lookup_insert_eq|].
        rewrite Nat.max_r by lia. cbn [data_].
        split; [|split; [done|]].
        2:{ split; [simpl; by rewrite tick_tick|].
            intros other Hne. simpl. by rewrite !lookup_insert_ne. }
        split; simpl.
        -- rewrite lookup_insert_eq, length_app, length_replicate. do 3 f_equal. lia.
        -- rewrite length_app, length_replicate. lia.
        -- by rewrite insert_insert_eq, lookup_insert_eq.
        -- intros b' Hb'. simpl in *. rewrite lookup_insert_ne by lia.
           rewrite lookup_insert_ne by lia. apply Hrel. lia.
Qed.
End Resizing.

Section Composition.
Context {T : Type} `{!Elem T}.
Implicit Types (w : world T) (l vs : list T).

Lemma fails_within_none n : fails_within None n = None.
Proof. reflexivity. Qed.

Lemma PushBack_run w this buf cap l v :
  copy_constructible = true → vec_inv w this buf cap l →
  match fails_within (oracle w) (emplace_ticks (ByCopy v) (length l) 0 cap) with
  | None =>
      ∃ w' buf' cap',
        PushBack this v w = Ok () w'
        ∧ vec_inv w' this buf' cap' (l ++ [v])
        ∧ cap' = (if decide (length l = cap) then grown_capacity cap else cap)
        ∧ buf' = (if decide (length l = cap) then Some (next_block w) else buf)
        ∧ oracle w' = tick (emplace_ticks (ByCopy v) (length l) 0 cap) (oracle w)
        ∧ (∀ other, other ≠ this → objs w' !! other = objs w !! other)
  | Some _ => ∃ w', PushBack this v w = Throw w'
  end.
Proof.
  intros Hc Hinv.
  assert (vec_inv w this buf cap (l ++ [])) as Hinv' by by rewrite app_nil_r.
  pose proof (Emplace_run w this buf cap l [] (ByCopy v) Hinv' Hc) as Hrun.
  cbn [length] in Hrun.
  unfold PushBack, EmplaceBack. rewrite bind_run, bind_run, (end_inv _ _ _ _ _ Hinv).
  destruct (fails_within _ _) as [k|].
  - destruct Hrun as [w' ->]. by eexists.
  - destruct Hrun as (w' & buf' & cap' & -> & Hinv1 & Hcap & Hbuf & Horc & _ & Hframe).
    rewrite Nat.add_0_r in Hcap, Hbuf. exists w', buf', cap'. split; [done|].
    split; [exact Hinv1|]. done.
Qed.

Lemma push_all_run this vs : ∀ w buf cap l,
  copy_constructible = true → vec_inv w this buf cap l → oracle w = None →
  ∃ w' buf' cap',
    push_all this vs w = Ok () w'
    ∧ vec_inv w' this buf' cap' (l ++ vs)
    ∧ oracle w' = None
    ∧ cap ≤ cap'
    ∧ (length l + length vs ≤ cap → buf' = buf ∧ cap' = cap)
    ∧ (∀ other, other ≠ this → objs w' !! other = objs w !! other).
Proof.
  induction vs as [|v vs IH]; intros w buf cap l Hc Hinv Horc.
  - exists w, buf, cap. rewrite app_nil_r. split_and!; done || lia.
  - pose proof (PushBack_run w this buf cap l v Hc Hinv) as Hpush.
    rewrite Horc, fails_within_none in Hpush.
    destruct Hpush as (w1 & buf1 & cap1 & Hrun & Hinv1 & Hcap1 & Hbuf1 & Horc1 & Hfr1).
    destruct (IH w1 buf1 cap1 (l ++ [v]) Hc Hinv1 Horc1)
      as (w' & buf' & cap' & Hrun' & Hinv' & Horc' & Hle & Hstay & Hfr').
    exists w', buf', cap'. cbn [push_all]. rewrite bind_run, Hrun.
    split; [exact Hrun'|]. rewrite <-(assoc_L (++)) in Hinv'.
    split; [exact Hinv'|]. split; [done|].
    assert (cap ≤ cap1) as Hle1.
    { subst cap1. case_decide; [|done]. pose proof (grown_capacity_gt cap). lia. }
    split; [lia|]. split.
    + intros Hfit. rewrite length_app in Hstay. cbn [length] in *.
      destruct Hstay as [-> ->]; [lia|].
      subst buf1 cap1. rewrite !decide_False by lia. done.
    + intros other Hne. by rewrite Hfr', Hfr1.
Qed.

Lemma Swap_twice w this other a b :
  this ≠ other → objs w !! this = Some a → objs w !! other = Some b →
  (Swap this other;; Swap this other) w = Ok () w.
Proof.
  intros Hne Ha Hb. destruct w as [h nb o no orc lg]. simpl in *.
  rewrite bind_run. erewrite Swap_run by done.
  erewrite Swap_run; [|done|by rewrite lookup_insert_ne, lookup_insert_eq
                      |by rewrite lookup_insert_eq].
  do 2 f_equal. apply map_eq. intros i.
  destruct (decide (i = other)) as [->|]; [by rewrite lookup_insert_eq|].
  rewrite lookup_insert_ne by done.
  destruct (decide (i = this)) as [->|]; [by rewrite lookup_insert_eq|].
  by rewrite !lookup_insert_ne.
Qed.

Lemma vec_inv_objs w w' this buf cap l :
  vec_inv w this buf cap l →
  heap w' = heap w → next_block w' = next_block w → objs w' !! this = objs w !! this →
  vec_inv w' this buf cap l.
Proof.
  intros [Ho Hl Hb Hf] Hh Hn Hobj. split.
  - by rewrite Hobj.
  - done.
  - by rewrite Hh.
  - intros b' Hb'. rewrite Hh. apply Hf. by rewrite <-Hn.
Qed.
End Composition.

Section CopyAssignInPlace.
Context {T : Type} `{!Elem T}.
Implicit Types (w : world T) (l lr vs olds : list T)
  (spre spost dpre dpost sblk dblk : list (slot T)).

Lemma copy_assign_run h nb o no orc lg bs bd sblk dblk i j v x :
  bs ≠ bd → h !! bs = Some sblk → sblk !! i = Some (Live v) →
  h !! bd = Some dblk → dblk !! j = Some (Live x) →
  copy_assign (Ptr (Some bd) j) (Ptr (Some bs) i) (World h nb o no orc lg) =
    match fails_within orc 1 with
    | None => Ok () (World (<[bd := <[j := Live v]> dblk]> h) nb o no (tick 1 orc)
                           (EvCopyAssign :: lg))
    | Some _ => Throw (World h nb o no None lg)
    end.
Proof.
  intros Hne Hs Hi Hd Hj. unfold copy_assign.
  rewrite bind_run. erewrite load_run by eauto.
  rewrite bind_run, may_throw_run.
  destruct (fails_within orc 1); [done|].
  by erewrite assign_at_run by eauto.
Qed.

Lemma copy_n_run bs bd nb o no spost dpost vs :
  ∀ olds h orc lg spre dpre soff i,
  bs ≠ bd → length olds = length vs →
  h !! bs = Some (spre ++ (Live <$> vs) ++ spost) → soff = length spre →
  h !! bd = Some (dpre ++ (Live <$> olds) ++ dpost) → i = length dpre →
  copy_n (Ptr (Some bs) soff) (length vs) (Ptr (Some bd) i) (World h nb o no orc lg) =
    match fails_within orc (length vs) with
    | None =>
        Ok () (World (<[bd := dpre ++ (Live <$> vs) ++ dpost]> h) nb o no
                     (tick (length vs) orc) (replicate (length vs) EvCopyAssign ++ lg))
    | Some k =>
        Throw (World (<[bd := dpre ++ (Live <$> (take k vs ++ drop k olds)) ++ dpost]> h)
                     nb o no None (replicate k EvCopyAssign ++ lg))
    end.
Proof.
  induction vs as [|v vs IH]; intros olds h orc lg spre dpre soff i Hne Hlen Hs -> Hd ->.
  - destruct olds; [|done]. simpl. rewrite fails_within_0, ret_run, tick_0.
    by rewrite insert_id.
  - destruct olds as [|x olds]; [done|]. injection Hlen as Hlen.
    cbn [length copy_n]. rewrite bind_run.
    rewrite fmap_cons, <-app_comm_cons in Hs, Hd.
    erewrite copy_assign_run;
      [|done|exact Hs|by apply list_lookup_middle|exact Hd|by apply list_lookup_middle].
    change (S (length vs)) with (1 + length vs).
    rewrite (fails_within_split orc 1 (length vs)).
    destruct (fails_within orc 1) as [k|] eqn:Hf.
    + apply fails_within_1 in Hf as ->. rewrite take_0, drop_0, app_nil_l.
      rewrite fmap_cons, <-app_comm_cons. by rewrite insert_id.
    + change (Ptr (Some bs) (length spre) +ₚ 1) with (Ptr (Some bs) (length spre + 1)).
      change (Ptr (Some bd) (length dpre) +ₚ 1) with (Ptr (Some bd) (length dpre + 1)).
      rewrite (IH olds _ _ _ (spre ++ [Live v]) (dpre ++ [Live v])); try done.
      * destruct (fails_within (tick 1 orc) (length vs)) as [k|]; cbn [fmap option_fmap option_map].
        -- do 2 f_equal.
           ++ rewrite insert_insert_eq. f_equal. cbn [Nat.add take drop]. by list_norm.
           ++ by rewrite replicate_snoc_app.
        -- do 2 f_equal.
           ++ rewrite insert_insert_eq. f_equal. by list_norm.
           ++ by rewrite tick_tick.
           ++ by rewrite replicate_snoc_app.
      * rewrite lookup_insert_ne by done. by rewrite <-(assoc_L (++)).
      * rewrite length_app. simpl. lia.
      * rewrite lookup_insert_eq. f_equal. rewrite insert_middle by done. by list_norm.
      * rewrite length_app. simpl. lia.
Qed.

Lemma vec_inv_intro w' w this buf cap l l' :
  vec_inv w this buf cap l → length l' ≤ cap →
  objs w' !! this = Some (mkVector (mkRawMemory buf cap) (length l')) →
  next_block w' = next_block w →
  match buf with Some b => heap w' !! b = Some (slots_of l' cap) | None => True end →
  (∀ b, heap w !! b = None → heap w' !! b = None) →
  vec_inv w' this buf cap l'.
Proof.
  intros [Ho Hl Hb Hf] Hl' Ho' Hnb Hb' Hnone. split; try done.
  - by destruct buf.
  - intros b Hge. apply Hnone, Hf. by rewrite <-Hnb.
Qed.

Lemma Vector_copy_assign_inplace w this rhs buf cap l rbuf rcap lr :
  copy_constructible = true → this ≠ rhs →
  vec_inv w this buf cap l → vec_inv w rhs rbuf rcap lr →
  (∀ b, buf = Some b → rbuf ≠ Some b) → length lr ≤ cap →
  match fails_within (oracle w) (length lr) with
  | None =>
      ∃ w', Vector_copy_assign this rhs w = Ok () w'
        ∧ vec_inv w' this buf cap lr
        ∧ vec_inv w' rhs rbuf rcap lr
        ∧ log w' = replicate (length lr - length l) EvCopyCtor
                     ++ replicate (length l - length lr) EvDtor
                     ++ replicate (length l `min` length lr) EvCopyAssign ++ log w
        ∧ (∀ other, other ≠ this → objs w' !! other = objs w !! other)
  | Some k =>
      ∃ w', Vector_copy_assign this rhs w = Throw w'
        ∧ vec_inv w' this buf cap (take (k `min` length l) lr ++ drop (k `min` length l) l)
        ∧ vec_inv w' rhs rbuf rcap lr
  end.
Proof.
  intros Hc Hne Hinv Hrinv Hdisj Hfit.
  pose proof Hinv as [Ho Hl Hb Hfr]. pose proof Hrinv as [Hro Hrl Hrb _].
  destruct w as [h nb o no orc lg]. cbn [heap next_block objs next_obj oracle log] in *.
  unfold Vector_copy_assign. rewrite decide_True by done.
  rewrite bind_run. erewrite get_vec_run by done.
  rewrite bind_run. erewrite get_vec_run by done. cbn [data_ capacity_ size_].
  rewrite decide_False by lia.
  rewrite bind_run. erewrite begin_run by done.
  rewrite bind_run. erewrite begin_run by done. cbn [data_ buffer_].
  destruct (decide (lr = [])) as [->|Hlr].
  - (* the right-hand side is empty *)
    cbn [length]. rewrite Nat.min_0_r, fails_within_0. cbn [copy_n].
    rewrite bind_run, ret_run, bind_run.
    destruct (decide (l = [])) as [->|Hlne].
    + cbn [length]. rewrite decide_False, decide_False by lia. rewrite ret_run.
      erewrite set_size_run by done. cbn [data_ replicate app].
      eexists. split; [done|]. split; [|split; [|split; [done|]]].
      * eapply (vec_inv_intro _ _ _ _ _ _ [] Hinv); cbn [heap next_block objs]; try done.
        -- apply lookup_insert_eq.
        -- destruct buf; [|done]. by rewrite Hb.
      * eapply (vec_inv_intro _ _ _ _ _ _ [] Hrinv); cbn; try done.
        -- by rewrite lookup_insert_ne.
        -- by destruct rbuf.
      * intros other Hother. cbn. by rewrite lookup_insert_ne.
    + destruct (vec_inv_buffer _ _ _ _ _ Hinv Hlne) as (b & -> & _).
      assert (0 < length l) by (destruct l; [done|simpl; lia]).
      rewrite decide_True by (cbn; lia). cbn [length]. rewrite Nat.sub_0_r.
      change (Ptr (Some b) 0 +ₚ 0) with (Ptr (Some b) 0).
      erewrite (destroy_n_run l _ _ _ _ _ _ b 0 []); [|exact Hb|done].
      erewrite set_size_run by done. cbn [data_ replicate app].
      eexists. split; [done|]. split; [|split; [|split; [done|]]].
      * eapply (vec_inv_intro _ _ _ _ _ _ [] Hinv); cbn [heap next_block objs]; try lia.
        -- apply lookup_insert_eq.
        -- rewrite lookup_insert_eq, slots_of_nil, <-replicate_add. do 2 f_equal. lia.
        -- intros b' Hb'. rewrite lookup_insert_ne; [done|]. intros <-. congruence.
      * eapply (vec_inv_intro _ _ _ _ _ _ [] Hrinv); cbn; try done.
        -- by rewrite lookup_insert_ne.
        -- destruct rbuf as [rb|]; [|done]. rewrite lookup_insert_ne; [done|].
           intros <-. by eapply Hdisj.
        -- intros b' Hb'. rewrite lookup_insert_ne; [done|]. intros <-. congruence.
      * intros other Hother. cbn. by rewrite lookup_insert_ne.
  - (* the right-hand side has elements *)
    destruct (vec_inv_buffer _ _ _ _ _ Hrinv Hlr) as (rb & -> & _).
    assert (0 < length lr) as Hpos by (destruct lr; [done|simpl; lia]).
    destruct buf as [b|]; [|lia].
    assert (rb ≠ b) as Hbne by (intros ->; by eapply Hdisj).
    set (m := length l `min` length lr).
    assert (Hm : length (take m lr) = m) by (rewrite length_take; lia).
    assert (Hm' : length (take m l) = m) by (rewrite length_take; lia).
    pose proof (copy_n_run rb b nb o no
                  ((Live <$> drop m lr) ++ replicate (rcap - length lr) Raw)
                  ((Live <$> drop m l) ++ replicate (cap - length l) Raw)
                  (take m lr) (take m l) h orc lg [] [] 0 0 Hbne) as Hcopy.
    rewrite Hm in Hcopy. rewrite bind_run, Hcopy; clear Hcopy; [|lia| |done| |done].
    2:{ rewrite Hrb. unfold slots_of.
        by rewrite app_nil_l, (assoc_L (++)), <-fmap_app, take_drop. }
    2:{ rewrite Hb. unfold slots_of.
        by rewrite app_nil_l, (assoc_L (++)), <-fmap_app, take_drop. }
    replace (fails_within orc (length lr))
      with (fails_within orc (m + (length lr - length l))) by (f_equal; lia).
    rewrite fails_within_split.
    destruct (fails_within orc m) as [k|] eqn:Hf1.
    + (* an assignment throws *)
      apply fails_within_lt in Hf1 as [Hk _].
      rewrite Nat.min_l by lia.
      eexists. split; [done|]. split.
      * eapply (vec_inv_intro _ _ _ _ _ _ _ Hinv); cbn [heap next_block objs].
        -- rewrite length_app, length_take, length_drop. lia.
        -- rewrite Ho. do 2 f_equal. rewrite length_app, length_take, length_drop. lia.
        -- done.
        -- rewrite lookup_insert_eq. f_equal. unfold slots_of.
           rewrite app_nil_l, (assoc_L (++)), <-fmap_app, <-(assoc_L (++)).
           rewrite take_take, Nat.min_l by lia.
           rewrite <-(drop_app_le (take m l)) by lia. rewrite take_drop.
           do 2 f_equal. rewrite length_app, length_take, length_drop. lia.
        -- intros b' Hb'. rewrite lookup_insert_ne; [done|]. intros <-. congruence.
      * eapply (vec_inv_intro _ _ _ _ _ _ _ Hrinv); cbn; try done.
        -- by rewrite lookup_insert_ne.
        -- intros b' Hb'. rewrite lookup_insert_ne; [done|]. intros <-. congruence.
    + destruct (decide (length lr < length l)) as [Hshort|Hlong].
      * (* fewer elements than before: the tail is destroyed *)
        replace (length lr - length l) with 0 by lia.
        rewrite fails_within_0. cbn [fmap option_fmap option_map].
        assert (m = length lr) as Hmr by lia.
        eexists. split.
        { rewrite bind_run.
          change (Ptr (Some b) 0 +ₚ length lr) with (Ptr (Some b) (0 + length lr)).
          replace (length l - length lr) with (length (drop m l)) at 1
            by (rewrite length_drop; lia).
          erewrite (destroy_n_run (drop m l));
            [|by rewrite lookup_insert_eq|rewrite length_fmap, length_take; lia].
          erewrite set_size_run by done. cbn [data_]. reflexivity. }
        split; [|split; [|split]].
        -- eapply (vec_inv_intro _ _ _ _ _ _ _ Hinv); cbn [heap next_block objs]; try done.
           ++ apply lookup_insert_eq.
           ++ rewrite insert_insert_eq, lookup_insert_eq. f_equal. unfold slots_of.
              rewrite Hmr, firstn_all, <-replicate_add.
              do 2 f_equal. rewrite length_drop. lia.
           ++ intros b' Hb'. rewrite !lookup_insert_ne; [done|intros <-; congruence..].
        -- eapply (vec_inv_intro _ _ _ _ _ _ _ Hrinv); cbn [heap next_block objs]; try done.
           ++ by rewrite lookup_insert_ne.
           ++ by rewrite !lookup_insert_ne.
           ++ intros b' Hb'. rewrite !lookup_insert_ne; [done|intros <-; congruence..].
        -- cbn [log]. rewrite length_drop. cbn [replicate app].
           by replace (length l - m) with (length l - length lr) by lia.
        -- intros other Hother. cbn [objs]. by rewrite lookup_insert_ne.
      * destruct (decide (length l < length lr)) as [Hlong'|Hsame].
        -- (* more elements than before: the rest is copy-constructed *)
           assert (m = length l) as Hml by lia.
           pose proof (uninitialized_copy_loop_run rb b nb o no
                         (Live <$> take m lr) (replicate (cap - length lr) Raw)
                         (replicate (rcap - length lr) Raw) (drop m lr)
                         (<[b := [] ++ (Live <$> take m lr)
                                    ++ (Live <$> drop m l) ++ replicate (cap - length l) Raw]> h)
                         (tick m orc) (replicate m EvCopyAssign ++ lg)
                         (Live <$> take m lr) (length l) [] (length l) Hc Hbne) as Hloop.
           rewrite length_drop, Hml, Nat.add_0_r in Hloop.
           assert (∀ r, uninitialized_loop copy_construct (Ptr (Some rb) (length l))
                          (length lr - length l) (Ptr (Some b) (length l))
                          (Ptr (Some b) (length l))
                          (World (<[b := [] ++ (Live <$> take (length l) lr)
                                     ++ (Live <$> drop (length l) l)
                                     ++ replicate (cap - length l) Raw]> h) nb o no
                             (tick (length l) orc)
                             (replicate (length l) EvCopyAssign ++ lg)) = r →
                    ((Reserve this (length lr);;
                      rb0 ← begin_ rhs; b0 ← begin_ this;
                      uninitialized_copy_n (rb0 +ₚ length l) (length lr - length l)
                        (b0 +ₚ length l))
                       (World (<[b := [] ++ (Live <$> take (length l) lr)
                                     ++ (Live <$> drop (length l) l)
                                     ++ replicate (cap - length l) Raw]> h) nb o no
                             (tick (length l) orc)
                             (replicate (length l) EvCopyAssign ++ lg))) = r) as Hstep.
           { intros r <-.
             rewrite bind_run. erewrite Reserve_noop; [|exact Ho|cbn; lia].
             rewrite bind_run. erewrite begin_run by done.
             rewrite bind_run. erewrite begin_run by done. cbn [data_ buffer_].
             change (Ptr (Some rb) 0 +ₚ length l) with (Ptr (Some rb) (0 + length l)).
             change (Ptr (Some b) 0 +ₚ length l) with (Ptr (Some b) (0 + length l)).
             by rewrite !Nat.add_0_l. }
           rewrite Hml.
           rewrite Hloop in Hstep; clear Hloop.
           2:{ rewrite lookup_insert_ne by done. rewrite Hrb. unfold slots_of.
               by rewrite (assoc_L (++)), <-fmap_app, take_drop. }
           2:{ rewrite length_fmap, length_take. lia. }
           2:{ rewrite lookup_insert_eq. f_equal. rewrite drop_all. cbn.
               rewrite <-replicate_add. do 2 f_equal. lia. }
           2:{ rewrite length_fmap, length_take. lia. }
           destruct (fails_within (tick (length l) orc) (length lr - length l)) as [k|] eqn:Hf2;
             cbn [fmap option_fmap option_map].
           ++ eexists. split; [by rewrite bind_run, (Hstep _ eq_refl)|]. split.
              ** rewrite Nat.min_r by lia. rewrite drop_all, app_nil_r.
                 eapply (vec_inv_intro _ _ _ _ _ _ _ Hinv); cbn [heap next_block objs].
                 --- rewrite length_take. lia.
                 --- rewrite Ho. do 2 f_equal. rewrite length_take. lia.
                 --- done.
                 --- rewrite insert_insert_eq, lookup_insert_eq. f_equal. unfold slots_of.
                     cbn. rewrite <-replicate_add, length_take.
                     do 2 f_equal. lia.
                 --- intros b' Hb'. rewrite !lookup_insert_ne; [done|intros <-; congruence..].
              ** eapply (vec_inv_intro _ _ _ _ _ _ _ Hrinv); cbn [heap next_block objs]; try done.
                 --- by rewrite !lookup_insert_ne.
                 --- intros b' Hb'. rewrite !lookup_insert_ne; [done|intros <-; congruence..].
           ++ eexists. split.
              { rewrite bind_run, (Hstep _ eq_refl).
                erewrite set_size_run by done. cbn [data_]. reflexivity. }
              split; [|split; [|split]].
              ** eapply (vec_inv_intro _ _ _ _ _ _ _ Hinv); cbn [heap next_block objs]; try done.
                 --- apply lookup_insert_eq.
                 --- rewrite insert_insert_eq, lookup_insert_eq. f_equal. unfold slots_of.
                     rewrite app_nil_l, (assoc_L (++)), <-fmap_app, take_drop. done.
                 --- intros b' Hb'. rewrite !lookup_insert_ne; [done|intros <-; congruence..].
              ** eapply (vec_inv_intro _ _ _ _ _ _ _ Hrinv); cbn [heap next_block objs]; try done.
                 --- by rewrite lookup_insert_ne.
                 --- by rewrite !lookup_insert_ne.
                 --- intros b' Hb'. rewrite !lookup_insert_ne; [done|intros <-; congruence..].
              ** cbn [log]. replace (length l - length lr) with 0 by lia. done.
              ** intros other Hother. cbn [objs]. by rewrite lookup_insert_ne.
        -- (* as many elements as before *)
           assert (length l = length lr) as Heq by lia.
           replace (length lr - length l) with 0 by lia.
           rewrite fails_within_0. cbn [fmap option_fmap option_map].
           eexists. split.
           { rewrite bind_run, ret_run. erewrite set_size_run by done. cbn [data_].
             reflexivity. }
           split; [|split; [|split]].
           ++ eapply (vec_inv_intro _ _ _ _ _ _ _ Hinv); cbn [heap next_block objs]; try done.
              ** apply lookup_insert_eq.
              ** rewrite lookup_insert_eq. f_equal. unfold slots_of.
                 assert (m = length lr) as -> by lia.
                 rewrite app_nil_l, firstn_all, <-Heq, drop_all. by rewrite Heq.
              ** intros b' Hb'. rewrite !lookup_insert_ne; [done|intros <-; congruence..].
           ++ eapply (vec_inv_intro _ _ _ _ _ _ _ Hrinv); cbn [heap next_block objs]; try done.
              ** by rewrite lookup_insert_ne.
              ** by rewrite !lookup_insert_ne.
              ** intros b' Hb'. rewrite !lookup_insert_ne; [done|intros <-; congruence..].
           ++ cbn [log]. replace (length l - length lr) with 0 by lia. done.
           ++ intros other Hother. cbn [objs]. by rewrite lookup_insert_ne.
Qed.
End CopyAssignInPlace.

Section Frames.
Context {T : Type} `{!Elem T}.
Implicit Types (w : world T) (l lo : list T).

Lemma vec_inv_transfer w w' other obuf ocap lo :
  vec_inv w other obuf ocap lo →
  objs w' !! other = objs w !! other →
  (∀ b, obuf = Some b → heap w' !! b = heap w !! b) →
  heap_fresh w' →
  vec_inv w' other obuf ocap lo.
Proof.
  intros [Ho Hl Hb Hf] Hobj Hheap Hfresh. split; try done.
  - by rewrite Hobj.
  - destruct obuf as [b|]; [|done]. by rewrite Hheap.
Qed.

Lemma Emplace_heap w this buf cap l1 l2 a r w' :
  vec_inv w this buf cap (l1 ++ l2) → args_ok a →
  fails_within (oracle w) (emplace_ticks a (length l1) (length l2) cap) = None →
  Emplace this (Ptr buf (length l1)) a w = Ok r w' →
  ∀ b', buf ≠ Some b' → b' < next_block w → heap w' !! b' = heap w !! b'.
Proof.
  intros Hinv Hok Hf. pose proof Hinv as [Ho Hlen Hblk Hfresh].
  assert (Hn : length (l1 ++ l2) = length l1 + length l2) by by rewrite length_app.
  unfold emplace_ticks in Hf. unfold Emplace, cbegin.
  destruct (decide (length l1 + length l2 = cap)) as [Hfull|Hroom].
  - rewrite <-Hfull, <-Hn in Hinv.
    pose proof (EmplaceWithRelocate_run w this buf l1 l2 a Hinv Hok Hf) as Hrun.
    destruct w as [h nb o no orc lg]. cbn [heap next_block objs next_obj oracle log] in *.
    rewrite bind_run. erewrite begin_run by done. cbn [data_ buffer_].
    rewrite bind_run, distance_run by (cbn [base off]; done || lia). cbn [off].
    rewrite Nat.sub_0_r.
    rewrite bind_run. erewrite get_vec_run by done. cbn [size_ data_ capacity_].
    rewrite bind_run, assert_run by (apply bool_decide_eq_true_2; lia).
    rewrite decide_True by lia.
    rewrite bind_run, Hrun.
    rewrite bind_run. erewrite get_vec_run by apply lookup_insert_eq.
    rewrite bind_run. erewrite set_size_run by apply lookup_insert_eq.
    rewrite bind_run. erewrite begin_run by apply lookup_insert_eq.
    intros [= _ <-] b' Hb' Hlt. cbn [heap].
    rewrite lookup_insert_ne by lia. destruct buf as [b|]; [|done].
    cbn [released]. rewrite lookup_delete_ne; [done|]. intros ->. done.
  - assert (Hlt : length (l1 ++ l2) < cap) by lia.
    destruct buf as [b|]; [|lia].
    pose proof (EmplaceWithoutRelocate_run w this b cap l1 l2 a Hinv Hlt Hok) as Hrun.
    rewrite Hf in Hrun.
    destruct w as [h nb o no orc lg]. cbn [heap next_block objs next_obj oracle log] in *.
    rewrite bind_run. erewrite begin_run by done. cbn [data_ buffer_].
    rewrite bind_run, distance_run by (cbn [base off]; done || lia). cbn [off].
    rewrite Nat.sub_0_r.
    rewrite bind_run. erewrite get_vec_run by done. cbn [size_ data_ capacity_].
    rewrite bind_run, assert_run by (apply bool_decide_eq_true_2; lia).
    rewrite decide_False by lia. rewrite bind_run, Hrun.
    rewrite bind_run. erewrite get_vec_run by done.
    rewrite bind_run. erewrite set_size_run by done.
    rewrite bind_run. erewrite begin_run by apply lookup_insert_eq.
    intros [= _ <-] b' Hb' _. cbn [heap].
    rewrite lookup_insert_ne; [done|]. intros ->. done.
Qed.

Lemma Emplace_other w this buf cap l1 l2 a r w' other obuf ocap lo :
  vec_inv w this buf cap (l1 ++ l2) → args_ok a →
  fails_within (oracle w) (emplace_ticks a (length l1) (length l2) cap) = None →
  Emplace this (Ptr buf (length l1)) a w = Ok r w' →
  other ≠ this → vec_inv w other obuf ocap lo → (∀ b, obuf = Some b → buf ≠ Some b) →
  vec_inv w' other obuf ocap lo.
Proof.
  intros Hinv Hok Hf Hrun Hne Hoinv Hdisj.
  pose proof (Emplace_run w this buf cap l1 l2 a Hinv Hok) as Hrun'.
  rewrite Hf in Hrun'. destruct Hrun' as (w1 & buf' & cap' & Hrun1 & Hinv1 & _ & _ & _ & _ & Hfr).
  rewrite Hrun in Hrun1. injection Hrun1 as _ <-.
  eapply vec_inv_transfer; [exact Hoinv|by apply Hfr| |by destruct Hinv1].
  intros b ->. eapply Emplace_heap; try done.
  - intros Heq. by eapply Hdisj.
  - destruct Hoinv as [_ _ Hb Hfresh]. simpl in Hb.
    destruct (decide (b < next_block w)) as [|Hge]; [done|].
    rewrite Hfresh in Hb by lia. done.
Qed.

Lemma EmplaceBack_fail w this buf cap l a k :
  nothrow_move_constructible || copy_constructible = true →
  vec_inv w this buf cap l → args_ok a →
  fails_within (oracle w) (emplace_ticks a (length l) 0 cap) = Some k →
  ∃ nb lg,
    EmplaceBack this a w = Throw (World (heap w) nb (objs w) (next_obj w) None lg)
    ∧ next_block w ≤ nb.
Proof.
  intros Hstrong Hinv Hok Hf. pose proof Hinv as [Ho Hlen Hblk Hfresh].
  unfold emplace_ticks in Hf. unfold EmplaceBack.
  rewrite bind_run, (end_inv _ _ _ _ _ Hinv). unfold Emplace, cbegin.
  rewrite Nat.add_0_r in Hf.
  destruct (decide (length l = cap)) as [Hfull|Hroom].
  - assert (vec_inv w this buf (length (l ++ [])) (l ++ [])) as Hinv'.
    { by rewrite app_nil_r, Hfull. }
    pose proof (EmplaceWithRelocate_fail w this buf l [] a k Hstrong Hinv' Hok Hf) as Hrun.
    destruct w as [h nb o no orc lg]. cbn [heap next_block objs next_obj oracle log] in *.
    rewrite bind_run. erewrite begin_run by done. cbn [data_ buffer_].
    rewrite bind_run, distance_run by (cbn [base off]; done || lia). cbn [off].
    rewrite Nat.sub_0_r.
    rewrite bind_run. erewrite get_vec_run by done. cbn [size_ data_ capacity_].
    rewrite bind_run, assert_run by (apply bool_decide_eq_true_2; lia).
    rewrite decide_True by lia.
    rewrite bind_run, Hrun. eexists _, _. split; [done|]. destruct k; simpl; lia.
  - assert (length l < cap) as Hlt by lia.
    destruct buf as [b|]; [|lia].
    destruct w as [h nb o no orc lg]. cbn [heap next_block objs next_obj oracle log] in *.
    rewrite bind_run. erewrite begin_run by done. cbn [data_ buffer_].
    rewrite bind_run, distance_run by (cbn [base off]; done || lia). cbn [off].
    rewrite Nat.sub_0_r.
    rewrite bind_run. erewrite get_vec_run by done. cbn [size_ data_ capacity_].
    rewrite bind_run, assert_run by (apply bool_decide_eq_true_2; lia).
    rewrite decide_False by lia. rewrite bind_run.
    unfold EmplaceWithoutRelocate. rewrite bind_run. erewrite get_vec_run by done.
    cbn [size_ data_]. rewrite decide_False by (intros Hx; by apply Hx).
    rewrite bind_run. erewrite begin_run by done. cbn [data_ buffer_].
    change (Ptr (Some b) 0 +ₚ length l) with (Ptr (Some b) (length l)).
    erewrite construct_from_run; [|done|exact Hblk|by apply slots_of_lookup_raw].
    cbn [inplace_ticks] in Hf. rewrite Hf. eexists _, _. split; [done|]. done.
Qed.

End Frames.

(** * Further properties of the class *)

Section Lifetime.
Context {T : Type} `{!Elem T}.
Implicit Types (w : world T) (l lr vs : list T).

(** X1 ([explicit Vector(size_t size)]).  Where the allocator is consistent
    and no vector lives at [this] yet, and for a [size] whose byte count
    is representable in [size_t], the constructor either builds
    exactly [size] value-initialised elements in a new block of capacity
    [size] (no block at all when [size] is zero) and touches no other
    block; or, when the allocation or one of the element constructors
    throws, the elements built so far are destroyed again, the block is
    released empty, and heap and vectors are what they were: no vector
    exists at [this]. *)
Theorem Vector_sized_all_or_nothing w this n :
  representable n → heap_fresh w → objs w !! this = None →
  match fails_within (oracle w) (construction_ticks n) with
  | None =>
      ∃ w', Vector_sized this n w = Ok () w'
        ∧ vec_inv w' this (allocated n (next_block w)) n (replicate n value_init)
        ∧ contents w' this = Some (replicate n value_init)
        ∧ log w' = replicate n EvCtor ++ alloc_log n ++ log w
        ∧ (∀ b, b ≠ next_block w → heap w' !! b = heap w !! b)
  | Some k =>
      ∃ w', Vector_sized this n w = Throw w'
        ∧ heap w' = heap w ∧ objs w' = objs w
        ∧ log w' = ctor_unwind_log EvCtor n k ++ log w
  end.
Proof.
  intros _ Hfresh Hthis. destruct w as [h nb o no orc lg].
  cbn [heap next_block objs next_obj oracle log] in *.
  assert (h !! nb = None) as Hnb by (by apply Hfresh).
  rewrite Vector_sized_run by done.
  destruct (fails_within orc (construction_ticks n)) as [k|]; [by eexists|].
  eexists. split; [done|].
  assert (vec_inv
            (World (match n with 0 => h | S _ => <[nb:=slots_of (replicate n value_init) n]> h end)
                   (next_block_alloc n nb)
                   (<[this:=mkVector (mkRawMemory (allocated n nb) n) n]> o) no
                   (tick (construction_ticks n) orc)
                   (replicate n EvCtor ++ alloc_log n ++ lg))
            this (allocated n nb) n (replicate n value_init)) as Hinv.
  { split; cbn [heap next_block objs].
    - by rewrite lookup_insert_eq, length_replicate.
    - by rewrite length_replicate.
    - destruct n; [done|]. apply lookup_insert_eq.
    - intros b Hb. cbn [heap next_block] in *. destruct n; cbn in Hb.
      + by apply Hfresh.
      + rewrite lookup_insert_ne by lia. apply Hfresh. cbn. lia. }
  split; [exact Hinv|]. split; [by eapply vec_inv_contents|]. split; [done|].
  intros b Hb. cbn [heap]. destruct n; [done|]. by rewrite lookup_insert_ne.
Qed.

(** X2 ([Vector(const Vector& other)]).  Copy construction from a
    well-formed vector either yields a well-formed vector with the same
    elements, capacity equal to the size, in a block of its own, the
    source being unchanged; or, when the allocation or a copy throws,
    leaves heap and vectors as they were, the copies made so far
    destroyed and the new block released. *)
Theorem Vector_copy_ctor_all_or_nothing w this other rbuf rcap lr :
  copy_constructible = true → vec_inv w other rbuf rcap lr → objs w !! this = None →
  match fails_within (oracle w) (construction_ticks (length lr)) with
  | None =>
      ∃ w', Vector_copy_ctor this other w = Ok () w'
        ∧ vec_inv w' this (allocated (length lr) (next_block w)) (length lr) lr
        ∧ vec_inv w' other rbuf rcap lr
        ∧ (∀ b, allocated (length lr) (next_block w) = Some b → rbuf ≠ Some b)
        ∧ log w' = replicate (length lr) EvCopyCtor ++ alloc_log (length lr) ++ log w
  | Some k =>
      ∃ w', Vector_copy_ctor this other w = Throw w'
        ∧ heap w' = heap w ∧ objs w' = objs w
        ∧ log w' = ctor_unwind_log EvCopyCtor (length lr) k ++ log w
  end.
Proof.
  intros Hc Hinv Hthis. rewrite (Vector_copy_ctor_any _ _ _ _ _ _ Hc Hinv Hthis).
  destruct (fails_within _ _) as [k|]; [by eexists|].
  assert (this ≠ other) as Hto by (intros ->; destruct Hinv; congruence).
  pose proof Hinv as [Ho Hl Hb Hfresh].
  assert (heap w !! next_block w = None) as Hnb by (by apply Hfresh).
  assert (∀ b, allocated (length lr) (next_block w) = Some b → rbuf ≠ Some b) as Hdisj.
  { intros b Hal ->. destruct lr; [done|]. injection Hal as <-. congruence. }
  eexists. split; [done|]. split; [|split; [|done]].
  - split; cbn [heap next_block objs].
    + by rewrite lookup_insert_eq.
    + done.
    + destruct lr; [done|]. apply lookup_insert_eq.
    + intros b Hb'. cbn [heap next_block] in *. destruct lr; cbn in Hb'.
      * by apply Hfresh.
      * rewrite lookup_insert_ne by lia. apply Hfresh. lia.
  - eapply vec_inv_transfer; [exact Hinv|..]; cbn [heap next_block objs].
    + by rewrite lookup_insert_ne.
    + intros b ->. destruct lr; [done|]. rewrite lookup_insert_ne; [done|].
      intros <-. congruence.
    + intros b Hb'. cbn [heap next_block] in *. destruct lr; cbn in Hb'.
      * by apply Hfresh.
      * rewrite lookup_insert_ne by lia. apply Hfresh. lia.
Qed.

(** X3 ([~Vector()], [~RawMemory()]).  Destroying a well-formed vector
    never throws: the destructor of each of its [size] elements runs once,
    then the block is released with no object left in it, and the vector
    is gone; a vector without a block releases nothing. *)
Theorem Vector_dtor_destroys_then_releases w this buf cap l :
  vec_inv w this buf cap l →
  Vector_dtor this w =
    Ok () (World (released buf (heap w)) (next_block w) (delete this (objs w))
                 (next_obj w) (oracle w)
                 (release_log buf 0 ++ replicate (length l) EvDtor ++ log w)).
Proof.
  intros [Ho Hl Hb _]. destruct w as [h nb o no orc lg].
  cbn [heap next_block objs next_obj oracle log] in *.
  eapply Vector_dtor_run; [done|]. destruct buf; [done|].
  subst cap. destruct l; [done|simpl in Hl; lia].
Qed.

(** X4 ([Vector(size_t)] followed by [~Vector()]).  Constructing [n]
    elements, [n] with a byte count representable in [size_t], and
    destroying the vector gives the heap and the vectors back as they
    were: [n] constructors, then [n] destructors, then the release of an
    empty block. *)
Theorem Vector_sized_then_dtor w this n :
  representable n → heap_fresh w → objs w !! this = None →
  fails_within (oracle w) (construction_ticks n) = None →
  ∃ w', (Vector_sized this n;; Vector_dtor this) w = Ok () w'
    ∧ heap w' = heap w ∧ objs w' = objs w
    ∧ log w' = release_log (allocated n (next_block w)) 0 ++ replicate n EvDtor
                 ++ replicate n EvCtor ++ alloc_log n ++ log w.
Proof.
  intros _ Hfresh Hthis Hf. destruct w as [h nb o no orc lg].
  cbn [heap next_block objs next_obj oracle log] in *.
  assert (h !! nb = None) as Hnb by (by apply Hfresh).
  rewrite bind_run, Vector_sized_run, Hf by done.
  erewrite (Vector_dtor_run _ _ _ _ _ _ _ _ _ (replicate n value_init)).
  - eexists. split; [done|]. cbn [heap objs log]. rewrite length_replicate.
    split; [|split; [by rewrite delete_insert_id|done]].
    destruct n; [done|]. cbn [allocated released]. by rewrite delete_insert_id.
  - by rewrite lookup_insert_eq, length_replicate.
  - destruct n; [done|]. apply lookup_insert_eq.
Qed.

(** X5 ([operator[]]).  Within the size the subscript returns the address
    of the element, [begin() + index], nothing else changing; at or past
    the size the assertion fails. *)
Theorem Vector_at_checks_the_index w this buf cap l i :
  vec_inv w this buf cap l →
  match l !! i with
  | Some x => Vector_at this i w = Ok (Ptr buf i) w ∧ load (Ptr buf i) w = Ok x w
  | None => Vector_at this i w = Fault AssertFailed
  end.
Proof.
  intros Hinv. destruct (l !! i) as [x|] eqn:Hi.
  - split; [|by eapply load_inv].
    eapply Vector_at_run; [done|]. by eapply lookup_lt_Some.
  - eapply Vector_at_out; [done|]. by apply lookup_ge_None.
Qed.

(** X6 ([Vector::Swap], [RawMemory::Swap]).  Swapping two well-formed
    vectors exchanges buffer, capacity and size, hence the elements,
    without touching the heap, running any constructor or destructor, or
    being able to throw; swapping again gives the first state back. *)
Theorem Swap_exchanges_the_vectors w a b bufa capa la bufb capb lb :
  a ≠ b → vec_inv w a bufa capa la → vec_inv w b bufb capb lb →
  ∃ w', Swap a b w = Ok () w'
    ∧ vec_inv w' a bufb capb lb ∧ vec_inv w' b bufa capa la
    ∧ heap w' = heap w ∧ log w' = log w ∧ oracle w' = oracle w
    ∧ Swap a b w' = Ok () w.
Proof.
  intros Hne Ha Hb. pose proof Ha as [Hoa _ _ _]. pose proof Hb as [Hob _ _ _].
  pose proof (Swap_twice w a b _ _ Hne Hoa Hob) as Htwice.
  destruct w as [h nb o no orc lg]. cbn [heap next_block objs next_obj oracle log] in *.
  rewrite bind_run in Htwice. erewrite Swap_run in Htwice |- * by done.
  eexists. split; [done|]. split; [|split; [|done]].
  - destruct Hb as [_ Hl Hblk Hfr]. split; cbn [heap next_block objs]; try done.
    by rewrite lookup_insert_ne, lookup_insert_eq.
  - destruct Ha as [_ Hl Hblk Hfr]. split; cbn [heap next_block objs]; try done.
    by rewrite lookup_insert_eq.
Qed.
End Lifetime.

Section Sizes.
Context {T : Type} `{!Elem T}.
Implicit Types (w : world T) (l lr vs : list T).

Lemma Reserve_inv w this buf cap l c :
  vec_inv w this buf cap l →
  fails_within (oracle w) (Reserve_ticks cap (length l) c) = None →
  ∃ w' buf', Reserve this c w = Ok () w'
    ∧ vec_inv w' this buf' (cap `max` c) l
    ∧ buf' = (if decide (c ≤ cap) then buf else Some (next_block w))
    ∧ oracle w' = tick (Reserve_ticks cap (length l) c) (oracle w)
    ∧ (∀ other, other ≠ this → objs w' !! other = objs w !! other).
Proof.
  intros Hinv Hf. pose proof Hinv as [Ho Hl Hb Hfr]. unfold Reserve_ticks in *.
  destruct (decide (c ≤ cap)) as [Hle|Hgt].
  - exists w, buf. rewrite Nat.max_l by lia. rewrite tick_0.
    split; [by eapply Reserve_noop|]. done.
  - rewrite (Reserve_run w this buf cap l c Hinv) by (done || lia).
    eexists _, _. split; [done|]. rewrite Nat.max_r by lia.
    split; [|split; [done|split; [done|]]].
    + split; cbn [heap next_block objs].
      * apply lookup_insert_eq.
      * lia.
      * apply lookup_insert_eq.
      * intros b' Hb'. cbn [heap next_block] in *. rewrite lookup_insert_ne by lia.
        destruct buf as [b0|]; cbn [released].
        -- destruct (decide (b' = b0)) as [->|]; [by rewrite lookup_delete_eq|].
           rewrite lookup_delete_ne by done. apply Hfr. lia.
        -- apply Hfr. lia.
    + intros other Hne. cbn [objs]. by rewrite lookup_insert_ne.
Qed.

(** X7 ([Resize], not growing).  [Resize(n)] with [n] at most the size
    never throws: it destroys exactly the elements behind the first [n],
    keeps buffer and capacity, and leaves the first [n] elements; with [n]
    equal to the size nothing is destroyed. *)
Theorem Resize_down_destroys_the_tail w this buf cap l n :
  vec_inv w this buf cap l → n ≤ length l →
  ∃ w', Resize this n w = Ok () w'
    ∧ vec_inv w' this buf cap (take n l)
    ∧ log w' = replicate (length l - n) EvDtor ++ log w
    ∧ oracle w' = oracle w
    ∧ (∀ other, other ≠ this → objs w' !! other = objs w !! other).
Proof.
  intros Hinv Hn. destruct (decide (n = length l)) as [->|Hne].
  - exists w. rewrite (Resize_same _ _ _ _ _ Hinv), firstn_all, Nat.sub_diag. done.
  - destruct (Resize_shrink w this buf cap l n Hinv) as (b & -> & Hrun); [lia|].
    rewrite Hrun. eexists. split; [done|].
    split; [|split; [done|split; [done|]]].
    + eapply vec_inv_insert; [exact Hinv|done|]. rewrite length_take.
      destruct Hinv. lia.
    + intros other Hother. cbn [objs]. by rewrite lookup_insert_ne.
Qed.

(** X8 ([Resize], growing).  [Resize(n)] beyond the size, for [n] with a
    byte count representable in [size_t], reserves [n] when the capacity
    is smaller and appends value-initialised elements up to size [n], the
    old elements unchanged and, when the capacity sufficed, in the same
    block.  When the allocation, a relocation or a
    constructor throws, the vector keeps its size and its elements (for a
    type relocated by copy or by a move that cannot throw), though it may
    already own the larger block. *)
Theorem Resize_up_appends_value_initialised w this buf cap l n :
  vec_inv w this buf cap l → length l < n → representable n →
  match fails_within (oracle w) (Resize_ticks cap (length l) n) with
  | None =>
      ∃ w' buf', Resize this n w = Ok () w'
        ∧ vec_inv w' this buf' (cap `max` n) (l ++ replicate (n - length l) value_init)
        ∧ contents w' this = Some (l ++ replicate (n - length l) value_init)
        ∧ buf' = (if decide (n ≤ cap) then buf else Some (next_block w))
  | Some k =>
      nothrow_move_constructible || copy_constructible = true →
      ∃ w' buf' cap', Resize this n w = Throw w'
        ∧ vec_inv w' this buf' cap' l
        ∧ contents w' this = Some l
  end.
Proof.
  intros Hinv Hn _. pose proof (Resize_grow w this buf cap l n Hinv Hn) as Hrun.
  destruct (fails_within _ _) as [k|].
  - intros Hstrong. destruct (Hrun Hstrong) as (w' & buf' & cap' & Hr & Hinv' & _).
    exists w', buf', cap'. split; [done|]. split; [done|]. by eapply vec_inv_contents.
  - destruct Hrun as (w' & buf' & Hr & Hinv' & Hbuf & _).
    exists w', buf'. split; [done|]. split; [done|]. split; [|done].
    by eapply vec_inv_contents.
Qed.

(** X9 ([Resize] up, then down again).  When nothing throws, growing a
    vector by [Resize] to a size with a byte count representable in
    [size_t] and resizing it back to its former size restores its
    elements, in a block at least as large. *)
Theorem Resize_up_then_down_restores w this buf cap l n :
  vec_inv w this buf cap l → length l ≤ n → representable n → oracle w = None →
  ∃ w' buf', (Resize this n;; Resize this (length l)) w = Ok () w'
    ∧ vec_inv w' this buf' (cap `max` n) l
    ∧ contents w' this = Some l.
Proof.
  intros Hinv Hn _ Horc. rewrite bind_run.
  destruct (decide (n = length l)) as [->|Hne].
  - rewrite (Resize_same _ _ _ _ _ Hinv), (Resize_same _ _ _ _ _ Hinv).
    exists w, buf. split; [done|]. rewrite Nat.max_l by (destruct Hinv; lia).
    split; [done|]. by eapply vec_inv_contents.
  - pose proof (Resize_grow w this buf cap l n Hinv) as Hrun.
    rewrite Horc in Hrun. cbn [fails_within] in Hrun.
    destruct Hrun as (w1 & buf1 & -> & Hinv1 & _); [lia|].
    destruct (Resize_shrink w1 this buf1 _ _ (length l) Hinv1) as (b & -> & Hrun).
    { rewrite length_app, length_replicate. lia. }
    rewrite Hrun. eexists _, _. split; [done|].
    assert (take (length l) (l ++ replicate (n - length l) value_init) = l) as Htake
      by by rewrite take_app_length.
    rewrite Htake.
    assert (vec_inv
              (World (<[b:=slots_of l (cap `max` n)]> (heap w1)) (next_block w1)
                     (<[this:=mkVector (mkRawMemory (Some b) (cap `max` n)) (length l)]>
                        (objs w1))
                     (next_obj w1) (oracle w1)
                     (replicate (length (l ++ replicate (n - length l) value_init) - length l)
                        EvDtor ++ log w1))
              this (Some b) (cap `max` n) l) as Hinv'.
    { eapply vec_inv_insert; [exact Hinv1|done|]. destruct Hinv. lia. }
    split; [exact Hinv'|]. by eapply vec_inv_contents.
Qed.

(** X10 ([PopBack]).  [PopBack] never throws.  On an empty vector it does
    nothing; otherwise it destroys the last element, the one at index
    [size - 1], and only that one, and the vector is well formed again
    with the same buffer and capacity. *)
Theorem PopBack_removes_the_last w this buf cap l :
  vec_inv w this buf cap l →
  ∃ w', PopBack this w = Ok () w'
    ∧ vec_inv w' this buf cap (take (length l - 1) l)
    ∧ log w' = match l with [] => log w | _ :: _ => EvDtor :: log w end
    ∧ oracle w' = oracle w
    ∧ (l = [] → w' = w)
    ∧ (∀ other, other ≠ this → objs w' !! other = objs w !! other).
Proof.
  intros Hinv. destruct (decide (l = [])) as [->|Hne].
  - exists w. rewrite (PopBack_empty _ _ _ _ Hinv). done.
  - destruct (exists_last Hne) as (l' & x & ->).
    destruct (PopBack_run w this buf cap l' x Hinv) as (b & -> & Hrun).
    rewrite Hrun. eexists. split; [done|].
    rewrite length_app. cbn [length].
    replace (length l' + 1 - 1) with (length l') by lia. rewrite take_app_length.
    split; [|split; [by destruct l'|split; [done|split; [by destruct l'|]]]].
    + eapply vec_inv_insert; [exact Hinv|done|]. destruct Hinv as [_ Hl _ _].
      rewrite length_app in Hl. lia.
    + intros other Hother. cbn [objs]. by rewrite lookup_insert_ne.
Qed.

(** X11 ([PushBack] followed by [PopBack]).  When the [PushBack] does not
    throw, popping the element again leaves a well-formed vector with the
    elements it had before: [PopBack] destroys the slot at index
    [size - 1], so no object is left outside the live range. *)
Theorem PushBack_then_PopBack_restores w this buf cap l v :
  copy_constructible = true → vec_inv w this buf cap l →
  fails_within (oracle w) (emplace_ticks (ByCopy v) (length l) 0 cap) = None →
  ∃ w' buf' cap', (PushBack this v;; PopBack this) w = Ok () w'
    ∧ vec_inv w' this buf' cap' l
    ∧ contents w' this = Some l
    ∧ cap ≤ cap'.
Proof.
  intros Hc Hinv Hf. pose proof (PushBack_run w this buf cap l v Hc Hinv) as Hpush.
  rewrite Hf in Hpush. destruct Hpush as (w1 & buf1 & cap1 & Hrun & Hinv1 & Hcap & _).
  destruct (PopBack_run w1 this buf1 cap1 l v Hinv1) as (b & -> & Hpop).
  rewrite bind_run, Hrun, Hpop. eexists _, (Some b), cap1. split; [done|].
  assert (vec_inv
            (World (<[b:=slots_of l cap1]> (heap w1)) (next_block w1)
                   (<[this:=mkVector (mkRawMemory (Some b) cap1) (length l)]> (objs w1))
                   (next_obj w1) (oracle w1) (EvDtor :: log w1))
            this (Some b) cap1 l) as Hinv'.
  { eapply vec_inv_insert; [exact Hinv1|done|]. destruct Hinv1 as [_ Hl _ _].
    rewrite length_app in Hl. lia. }
  split; [exact Hinv'|]. split; [by eapply vec_inv_contents|].
  subst cap1. case_decide; [|done]. pose proof (grown_capacity_gt cap). lia.
Qed.

(** X12 (a run of [PushBack]).  When nothing throws, pushing the values
    [vs] one after the other onto a well-formed vector holding [l] leaves
    a well-formed vector holding [l ++ vs]: the size is the old size plus
    the number of calls, each value is found at the index of its call,
    and the capacity never shrinks and covers the size. *)
Theorem PushBacks_append_in_order w this buf cap l vs :
  copy_constructible = true → vec_inv w this buf cap l → oracle w = None →
  ∃ w' buf' cap', push_all this vs w = Ok () w'
    ∧ vec_inv w' this buf' cap' (l ++ vs)
    ∧ contents w' this = Some (l ++ vs)
    ∧ Size this w' = Ok (length l + length vs) w'
    ∧ cap ≤ cap' ∧ length l + length vs ≤ cap'.
Proof.
  intros Hc Hinv Horc.
  destruct (push_all_run this vs w buf cap l Hc Hinv Horc)
    as (w' & buf' & cap' & Hrun & Hinv' & _ & Hle & _).
  exists w', buf', cap'. split; [done|]. split; [done|].
  split; [by eapply vec_inv_contents|].
  split; [by rewrite (Size_inv _ _ _ _ _ Hinv'), length_app|].
  split; [done|]. destruct Hinv' as [_ Hl _ _]. by rewrite length_app in Hl.
Qed.

(** X13 ([Reserve] before a run of [PushBack]).  After [Reserve(c)], for
    [c] with a byte count representable in [size_t], as long as the
    elements pushed fit in [c], no [PushBack] reallocates:
    [begin()] and the capacity after the pushes are those right after
    [Reserve], and every element that was in the vector is still read at
    the same address. *)
Theorem Reserve_then_PushBacks_keep_the_block w this buf cap l vs c :
  copy_constructible = true → vec_inv w this buf cap l → oracle w = None →
  length l + length vs ≤ c → representable c →
  ∃ w1 w' buf1,
    Reserve this c w = Ok () w1
    ∧ begin_ this w1 = Ok (Ptr buf1 0) w1
    ∧ push_all this vs w1 = Ok () w'
    ∧ begin_ this w' = Ok (Ptr buf1 0) w'
    ∧ Capacity this w' = Ok (cap `max` c) w'
    ∧ contents w' this = Some (l ++ vs)
    ∧ (∀ i x, l !! i = Some x → load (Ptr buf1 i) w' = Ok x w').
Proof.
  intros Hc Hinv Horc Hfit _.
  destruct (Reserve_inv w this buf cap l c Hinv) as (w1 & buf1 & Hres & Hinv1 & _ & Horc1 & _).
  { by rewrite Horc. }
  rewrite Horc in Horc1.
  destruct (push_all_run this vs w1 buf1 _ l Hc Hinv1 Horc1)
    as (w' & buf' & cap' & Hrun & Hinv' & _ & _ & Hstay & _).
  destruct Hstay as [-> ->]; [lia|].
  exists w1, w', buf1. split; [done|]. split; [by eapply begin_inv|].
  split; [done|]. split; [by eapply begin_inv|]. split.
  { destruct Hinv' as [Ho _ _ _]. unfold Capacity. rewrite bind_run.
    destruct w' as [h' nb' o' no' orc' lg']. cbn [objs] in Ho.
    by erewrite get_vec_run by done. }
  split; [by eapply vec_inv_contents|].
  intros i x Hi. eapply load_inv; [exact Hinv'|]. by apply lookup_app_l_Some.
Qed.
End Sizes.

Section EraseThrows.
Context {T : Type} `{!Elem T}.
Implicit Types (h : gmap nat (list (slot T))) (o : gmap nat Vector)
  (orc : option nat) (lg : list event) (blk pre post : list (slot T))
  (l vs : list T) (w : world T).

Lemma Erase_throws w this b cap l1 x l2 k :
  vec_inv w this (Some b) cap (l1 ++ x :: l2) →
  fails_within (oracle w) (ticks_unless nothrow_move_assignable (length l2)) = Some k →
  ∃ x' vs' lg', length vs' = length l2
    ∧ Erase this (Ptr (Some b) (length l1)) w =
        Throw (World (<[b := slots_of (l1 ++ x' :: vs') cap]> (heap w)) (next_block w)
                     (objs w) (next_obj w) None lg').
Proof.
  intros [Ho Hlen Hblk Hfresh] Hf. destruct w as [h nb o no orc lg].
  cbn [heap next_block objs next_obj oracle log] in *.
  set (n := length (l1 ++ x :: l2)) in *.
  assert (Hn : n = length l1 + S (length l2)) by (unfold n; by rewrite length_app).
  unfold slots_of in Hblk. fold n in Hblk.
  rewrite fmap_app, fmap_cons, <-(assoc_L (++)), <-app_comm_cons in Hblk.
  destruct (move_n_throws b nb o no (replicate (cap - n) Raw) l2 h orc lg (Live <$> l1) x
              (length l1) k Hblk) as (x' & vs' & lg' & Hlen' & Hmv); [by rewrite length_fmap|done|].
  exists x', vs', lg'. split; [done|].
  unfold Erase, cbegin.
  rewrite bind_run. erewrite begin_run by done. cbn [data_ buffer_].
  rewrite bind_run, distance_run by (cbn [base off]; done || lia). cbn [off].
  rewrite Nat.sub_0_r.
  rewrite bind_run. erewrite begin_run by done. cbn [data_ buffer_].
  rewrite bind_run. erewrite end_run by done. cbn [data_ buffer_ size_].
  rewrite bind_run. unfold std_move. rewrite bind_run.
  unfold ptr_add. cbn [base off]. rewrite Nat.add_0_l.
  rewrite distance_run by (cbn [base off]; done || lia). cbn [off].
  replace (n - (length l1 + 1)) with (length l2) by lia.
  rewrite Hmv. do 3 f_equal. unfold slots_of.
  rewrite fmap_app, fmap_cons, <-(assoc_L (++)), <-app_comm_cons.
  do 4 f_equal. unfold n. rewrite !length_app. simpl. lia.
Qed.
End EraseThrows.

Section Positions.
Context {T : Type} `{!Elem T}.
Implicit Types (w : world T) (l lo lr vs : list T).

(** X14 ([EmplaceBack], [PushBack] when the constructor or the relocation
    throws).  For a type relocated by copy or by a move that cannot throw,
    an [EmplaceBack] that throws, on either path, leaves the heap and all
    vectors as they were: the vector is well formed with the elements it
    had. *)
Theorem EmplaceBack_commits_or_rolls_back w this buf cap l a k :
  nothrow_move_constructible || copy_constructible = true →
  vec_inv w this buf cap l → args_ok a →
  fails_within (oracle w) (emplace_ticks a (length l) 0 cap) = Some k →
  ∃ w', EmplaceBack this a w = Throw w'
    ∧ heap w' = heap w ∧ objs w' = objs w
    ∧ vec_inv w' this buf cap l
    ∧ contents w' this = Some l.
Proof.
  intros Hstrong Hinv Hok Hf.
  destruct (EmplaceBack_fail w this buf cap l a k Hstrong Hinv Hok Hf) as (nb & lg & Hrun & Hnb).
  assert (vec_inv (World (heap w) nb (objs w) (next_obj w) None lg) this buf cap l) as Hinv'.
  { destruct Hinv as [Ho Hl Hb Hfr]. split; try done.
    intros b Hb'. cbn [heap next_block] in *. apply Hfr. lia. }
  eexists. split; [exact Hrun|]. split; [done|]. split; [done|].
  split; [exact Hinv'|]. by eapply vec_inv_contents.
Qed.

(** X16 ([Erase]).  Erasing the element at index [p] of a well-formed
    vector move-assigns each later element one slot toward the front and
    then calls the destructor on the slot at index [size], one past the
    last element, which holds no object.  For a trivially destructible
    element type that call does nothing and [Erase] decrements the size:
    the elements are the old ones without the one at [p], buffer and
    capacity are unchanged, and the iterator returned is [begin() + p],
    where the element that followed the erased one is now read.  For
    every other element type the call is undefined and [Erase] has no
    result.  When a move assignment throws, nothing has been destroyed:
    the vector is well formed with its size, the elements before [p]
    untouched, those from [p] on possibly shifted or moved from. *)
Theorem Erase_removes_the_element w this buf cap l p :
  vec_inv w this buf cap l → p < length l →
  match fails_within (oracle w) (ticks_unless nothrow_move_assignable (length l - S p)) with
  | None =>
      if trivially_destructible (T:=T) then
        ∃ w', Erase this (Ptr buf p) w = Ok (Ptr buf p) w'
          ∧ contents w' this = Some (take p l ++ drop (S p) l)
          ∧ objs w' !! this = Some (mkVector (mkRawMemory buf cap) (length l - 1))
          ∧ (∀ x, l !! S p = Some x → load (Ptr buf p) w' = Ok x w')
          ∧ log w' = EvStrayDtor (Ptr buf (length l))
                       :: replicate (length l - S p) EvMoveAssign ++ log w
          ∧ next_block w' = next_block w
      else Erase this (Ptr buf p) w = Fault NoObjectThere
  | Some _ =>
      ∃ w' l', Erase this (Ptr buf p) w = Throw w'
        ∧ length l' = length l ∧ take p l' = take p l
        ∧ vec_inv w' this buf cap l'
  end.
Proof.
  intros Hinv Hp.
  assert (is_Some (l !! p)) as [x Hx] by by apply lookup_lt_is_Some.
  pose proof (take_drop_middle l p x Hx) as Hsplit.
  destruct (vec_inv_buffer _ _ _ _ _ Hinv) as (b & -> & _); [by destruct l|].
  assert (Hinv' : vec_inv w this (Some b) cap (take p l ++ x :: drop (S p) l))
    by by rewrite Hsplit.
  assert (Hlp : length (take p l) = p) by (rewrite length_take; lia).
  destruct (fails_within _ _) as [k|] eqn:Hf.
  - rewrite <-length_drop in Hf.
    destruct (Erase_throws w this b cap (take p l) x (drop (S p) l) k Hinv' Hf)
      as (x' & vs' & lg' & Hlen' & Hrun).
    rewrite Hlp in Hrun. rewrite Hrun.
    assert (length (take p l ++ x' :: vs') = length l) as Hlen.
    { rewrite length_app, Hlp. cbn [length]. rewrite Hlen', length_drop. lia. }
    eexists _, (take p l ++ x' :: vs'). split; [done|]. split; [exact Hlen|].
    split; [by rewrite take_app_length' by done|].
    destruct Hinv as [Ho Hle Hblk Hfresh]. split; cbn [heap next_block objs].
    + by rewrite Hlen.
    + by rewrite Hlen.
    + apply lookup_insert_eq.
    + intros b' Hb'. cbn [heap next_block] in *.
      rewrite lookup_insert_ne; [by apply Hfresh|]. intros <-.
      rewrite Hfresh in Hblk by done. done.
  - rewrite <-length_drop in Hf.
    destruct (trivially_destructible (T:=T)) eqn:Htriv; last first.
    { pose proof (Erase_no_object w this b cap (take p l) x (drop (S p) l)
                    Htriv Hinv' Hf) as Hrun.
      by rewrite Hlp in Hrun. }
    pose proof (Erase_run w this b cap (take p l) x (drop (S p) l) Htriv Hinv') as Hrun.
    rewrite Hf, Hlp, Hsplit in Hrun. rewrite length_drop in Hrun.
    eexists. split; [exact Hrun|].
    split; [|split; [|split; [|done]]].
    + eapply contents_run; cbn [heap objs]; [apply lookup_insert_eq|].
      apply lookup_insert_eq.
    + cbn [objs]. rewrite lookup_insert_eq. do 2 f_equal.
      rewrite length_app, Hlp, length_drop. lia.
    + intros y Hy. eapply load_run; [apply lookup_insert_eq|].
      rewrite <-(Nat.add_0_r (S p)), <-lookup_drop in Hy.
      destruct (drop (S p) l) as [|y' l2]; [done|]. injection Hy as ->.
      rewrite fmap_app, <-(assoc_L (++)), fmap_cons, <-app_comm_cons.
      apply list_lookup_middle. by rewrite length_fmap.
Qed.

(** X17 ([Emplace] and the other vectors).  A successful [Emplace] into
    one vector, on either path, leaves every other well-formed vector that
    owns a different block with its buffer, capacity and elements. *)
Theorem Emplace_leaves_other_vectors_alone w this buf cap l p a other obuf ocap lo :
  vec_inv w this buf cap l → p ≤ length l → args_ok a →
  other ≠ this → vec_inv w other obuf ocap lo → (∀ b, obuf = Some b → buf ≠ Some b) →
  fails_within (oracle w) (emplace_ticks a p (length l - p) cap) = None →
  ∃ r w', Emplace this (Ptr buf p) a w = Ok r w'
    ∧ vec_inv w' other obuf ocap lo
    ∧ contents w' other = Some lo
    ∧ contents w' this = Some (take p l ++ args_value a :: drop p l).
Proof.
  intros Hinv Hp Hok Hne Hoinv Hdisj Hf.
  assert (Hinv' : vec_inv w this buf cap (take p l ++ drop p l)) by by rewrite take_drop.
  pose proof (Emplace_run w this buf cap (take p l) (drop p l) a Hinv' Hok) as Hrun.
  rewrite length_take_le, length_drop in Hrun by lia. rewrite Hf in Hrun.
  destruct Hrun as (w' & buf' & cap' & Hrun & Hinv1 & _).
  assert (vec_inv w' other obuf ocap lo) as Hoinv'.
  { eapply (Emplace_other w this buf cap (take p l) (drop p l)); try done.
    - by rewrite length_take_le, length_drop by lia.
    - by rewrite length_take_le by lia. }
  eexists _, w'. split; [exact Hrun|]. split; [done|].
  split; by eapply vec_inv_contents.
Qed.

(** X18 (a copy and its source).  A vector copy-constructed from another
    shares no storage with it: inserting into the copy, at any position,
    leaves the source well formed with its buffer, capacity and elements,
    while the copy holds the source's elements with the new one at the
    position. *)
Theorem copy_shares_nothing_with_its_source w a b abuf acap la p v :
  copy_constructible = true → vec_inv w a abuf acap la → objs w !! b = None →
  p ≤ length la → oracle w = None →
  ∃ w', (Vector_copy_ctor b a;; bg ← begin_ b; Emplace b (bg +ₚ p) (ByArgs v);; mret ()) w
        = Ok () w'
    ∧ vec_inv w' a abuf acap la
    ∧ contents w' a = Some la
    ∧ contents w' b = Some (take p la ++ v :: drop p la).
Proof.
  intros Hc Hinv Hb Hp Horc.
  assert (b ≠ a) as Hne by (intros ->; destruct Hinv; congruence).
  pose proof (Vector_copy_ctor_any w b a abuf acap la Hc Hinv Hb) as Hcopy.
  rewrite Horc in Hcopy. cbn [fails_within] in Hcopy.
  set (w1 := World _ _ _ _ _ _) in Hcopy.
  pose proof Hinv as [Ho Hl Hblk Hfresh].
  assert (heap w !! next_block w = None) as Hnb by (by apply Hfresh).
  assert (heap_fresh w1) as Hfresh1.
  { intros b' Hb'. subst w1. cbn [heap next_block] in *. destruct la; cbn in Hb'.
    - by apply Hfresh.
    - rewrite lookup_insert_ne by lia. apply Hfresh. lia. }
  assert (vec_inv w1 b (allocated (length la) (next_block w)) (length la) la) as Hinvb.
  { split; [by subst w1; cbn [objs]; rewrite lookup_insert_eq|done| |done].
    subst w1. cbn [heap]. destruct la; [done|]. apply lookup_insert_eq. }
  assert (vec_inv w1 a abuf acap la) as Hinva.
  { eapply vec_inv_transfer; [exact Hinv| | |done]; subst w1; cbn [heap objs].
    - by rewrite lookup_insert_ne.
    - intros b' ->. destruct la; [done|]. rewrite lookup_insert_ne; [done|].
      intros <-. congruence. }
  assert (oracle w1 = None) as Horc1 by (subst w1; reflexivity).
  assert (∀ b', abuf = Some b' → allocated (length la) (next_block w) ≠ Some b') as Hdisj.
  { intros b' -> Hal. destruct la; [done|]. injection Hal as <-. congruence. }
  assert (Hinvb' : vec_inv w1 b (allocated (length la) (next_block w)) (length la)
                     (take p la ++ drop p la)) by by rewrite take_drop.
  pose proof (Emplace_run w1 b _ _ (take p la) (drop p la) (ByArgs v) Hinvb' I) as Hrun.
  rewrite Horc1 in Hrun. cbn [fails_within] in Hrun.
  destruct Hrun as (w' & buf' & cap' & Hrun & Hinv2 & _).
  rewrite length_take_le in Hrun by lia.
  assert (vec_inv w' a abuf acap la) as Hinva'.
  { eapply (Emplace_other w1 b _ _ (take p la) (drop p la) (ByArgs v)); try done.
    rewrite length_take_le by lia. exact Hrun. }
  exists w'. rewrite bind_run, Hcopy, bind_run, (begin_inv _ _ _ _ _ Hinvb).
  change (Ptr (allocated (length la) (next_block w)) 0 +ₚ p)
    with (Ptr (allocated (length la) (next_block w)) (0 + p)).
  rewrite Nat.add_0_l, bind_run, Hrun.
  split; [done|]. split; [done|]. split; by eapply vec_inv_contents.
Qed.

(** X19 (copy assignment when the right-hand side fits in the capacity).
    With [rhs.size] at most the capacity of the left-hand side, copy
    assignment allocates nothing: it copy-assigns over the common prefix,
    then destroys the surplus elements or copy-constructs the missing
    ones, and the left-hand side holds the elements of [rhs] in the block
    and with the capacity it had; [rhs] is unchanged.  When a copy throws
    at operation [k], both vectors are still well formed and the
    left-hand side keeps its size: its first elements have been
    overwritten with those of [rhs], the others are the old ones. *)
Theorem copy_assignment_within_capacity w this rhs buf cap l rbuf rcap lr :
  copy_constructible = true → this ≠ rhs →
  vec_inv w this buf cap l → vec_inv w rhs rbuf rcap lr →
  (∀ b, buf = Some b → rbuf ≠ Some b) → length lr ≤ cap →
  match fails_within (oracle w) (length lr) with
  | None =>
      ∃ w', Vector_copy_assign this rhs w = Ok () w'
        ∧ vec_inv w' this buf cap lr
        ∧ vec_inv w' rhs rbuf rcap lr
        ∧ contents w' this = Some lr
        ∧ log w' = replicate (length lr - length l) EvCopyCtor
                     ++ replicate (length l - length lr) EvDtor
                     ++ replicate (length l `min` length lr) EvCopyAssign ++ log w
  | Some k =>
      ∃ w', Vector_copy_assign this rhs w = Throw w'
        ∧ vec_inv w' this buf cap (take (k `min` length l) lr ++ drop (k `min` length l) l)
        ∧ vec_inv w' rhs rbuf rcap lr
        ∧ Size this w' = Ok (length l) w'
  end.
Proof.
  intros Hc Hne Hinv Hrinv Hdisj Hfit.
  pose proof (Vector_copy_assign_inplace w this rhs buf cap l rbuf rcap lr
                Hc Hne Hinv Hrinv Hdisj Hfit) as Hrun.
  destruct (fails_within _ _) as [k|] eqn:Hf.
  - destruct Hrun as (w' & Hrun & Hinv' & Hrinv').
    exists w'. split; [done|]. split; [done|]. split; [done|].
    rewrite (Size_inv _ _ _ _ _ Hinv'). f_equal.
    apply fails_within_lt in Hf as [Hk _].
    rewrite length_app, length_take, length_drop. lia.
  - destruct Hrun as (w' & Hrun & Hinv' & Hrinv' & Hlog & _).
    exists w'. split; [done|]. split; [done|]. split; [done|].
    split; [by eapply vec_inv_contents|done].
Qed.

(** X20 (a moved-from vector).  After [Vector b(std::move(a))] the
    moved-from vector owns nothing: destroying it runs no destructor and
    releases no block, and destroying [b] afterwards destroys each element
    once and releases the block once, empty. *)
Theorem moved_from_vector_owns_nothing w a b buf cap l :
  b ≠ a → vec_inv w a buf cap l →
  ∃ w1 w2 w3,
    Vector_move_ctor b a w = Ok () w1
    ∧ Vector_dtor a w1 = Ok () w2
    ∧ heap w2 = heap w ∧ log w2 = log w
    ∧ vec_inv w2 b buf cap l
    ∧ Vector_dtor b w2 = Ok () w3
    ∧ heap w3 = released buf (heap w)
    ∧ log w3 = release_log buf 0 ++ replicate (length l) EvDtor ++ log w
    ∧ objs w3 !! a = None ∧ objs w3 !! b = None.
Proof.
  intros Hne Hinv. pose proof Hinv as [Ho Hl Hb Hfr].
  rewrite (Vector_move_ctor_run w b a _ Hne Ho).
  destruct w as [h nb o no orc lg]. cbn [heap next_block objs next_obj oracle log] in *.
  eexists _, _, _. split; [done|].
  split.
  { eapply (Vector_dtor_run _ _ _ _ _ _ a None 0 []); [apply lookup_insert_eq|done]. }
  cbn [released release_log replicate app length].
  split; [done|]. split; [done|].
  assert (delete a (<[a:=mkVector (mkRawMemory None 0) 0]>
                      (<[b:=mkVector (mkRawMemory buf cap) (length l)]> o)) !! b
          = Some (mkVector (mkRawMemory buf cap) (length l))) as Hob.
  { rewrite lookup_delete_ne by done. rewrite lookup_insert_ne by done.
    apply lookup_insert_eq. }
  split; [by split|]. split.
  { eapply Vector_dtor_run; [exact Hob|]. destruct buf; [done|].
    subst cap. destruct l; [done|simpl in Hl; lia]. }
  cbn [heap log objs]. split; [done|]. split; [done|].
  split; [|by rewrite lookup_delete_eq].
  rewrite lookup_delete_ne by done. by rewrite lookup_delete_eq.
Qed.

(** X21 ([RawMemory(size_t)], [Allocate], [Deallocate], [~RawMemory]).
    For [n] with a byte count representable in [size_t],
    [RawMemory(n)] owns a null buffer exactly when [n] is zero, in which
    case nothing is allocated and nothing can throw; otherwise it owns a
    block that did not exist before, of [n] slots of raw storage, none
    holding an object.  Its destructor releases that block and gives the
    heap back as it was.  When the allocation throws, nothing has
    changed. *)
Theorem RawMemory_ctor_then_dtor w n :
  representable n → heap_fresh w →
  match fails_within (oracle w) (alloc_ticks n) with
  | None =>
      ∃ d w1 w2, RawMemory_ctor n w = Ok d w1
        ∧ capacity_ d = n ∧ (buffer_ d = None ↔ n = 0)
        ∧ (∀ b, buffer_ d = Some b → heap w !! b = None)
        ∧ (∀ i, i < n → slot_at w1 (GetAddress d +ₚ i) = Some Raw)
        ∧ RawMemory_dtor d w1 = Ok () w2
        ∧ heap w2 = heap w
        ∧ log w2 = release_log (buffer_ d) 0 ++ alloc_log n ++ log w
  | Some _ =>
      RawMemory_ctor n w =
        Throw (World (heap w) (next_block w) (objs w) (next_obj w) None (log w))
  end.
Proof.
  intros _ Hfresh. destruct w as [h nb o no orc lg].
  cbn [heap next_block objs next_obj oracle log] in *.
  assert (h !! nb = None) as Hnb by (by apply Hfresh).
  rewrite RawMemory_ctor_run. destruct (fails_within orc (alloc_ticks n)) as [k|]; [done|].
  destruct n as [|n].
  - eexists _, _, _. split; [done|]. cbn [capacity_ buffer_ allocated].
    split; [done|]. split; [done|]. split; [done|]. split; [intros i Hi; lia|].
    split; [done|]. done.
  - eexists _, _, _. split; [done|]. cbn [capacity_ buffer_ allocated].
    split; [done|]. split; [done|]. split; [by intros b [= <-]|].
    split.
    { intros i Hi. unfold GetAddress. cbn [buffer_].
      change (Ptr (Some nb) 0 +ₚ i) with (Ptr (Some nb) (0 + i)).
      rewrite slot_at_run, lookup_insert_eq.
      exact (lookup_replicate_2 (S n) Raw i Hi). }
    split.
    { unfold RawMemory_dtor. cbn [buffer_].
      eapply (Deallocate_run _ _ _ _ _ _ (Some nb)). apply lookup_insert_eq. }
    cbn [heap log released release_log alloc_log app].
    split; [by rewrite delete_insert_id|].
    change (Raw :: replicate n Raw) with (replicate (S n) (@Raw T)).
    by rewrite live_count_raw.
Qed.
(** [Insert] at a position [p] followed by [Erase] at [p], for a trivially
    destructible element type and either overload of [Insert] (or any
    [Emplace]): the pair gives back the same size and the same elements;
    when an element operation throws on the way, the pair of calls is left
    by the exception. *)
Lemma emplace_then_erase_run w this buf cap l1 l2 a :
  trivially_destructible = true → args_ok a → vec_inv w this buf cap (l1 ++ l2) →
  match fails_within (oracle w)
          (emplace_ticks a (length l1) (length l2) cap
           + ticks_unless nothrow_move_assignable (length l2)) with
  | None =>
      ∃ it w', emplace_then_erase this (length l1) a w = Ok it w'
               ∧ contents w' this = Some (l1 ++ l2)
               ∧ Size this w' = Ok (length (l1 ++ l2)) w'
  | Some _ => ∃ w', emplace_then_erase this (length l1) a w = Throw w'
  end.
Proof.
  intros Htriv Hok Hinv.
  pose proof (Emplace_run w this buf cap l1 l2 a Hinv Hok) as Hins.
  unfold emplace_then_erase.
  rewrite bind_run, (begin_inv _ _ _ _ _ Hinv).
  change (Ptr buf 0 +ₚ length l1) with (Ptr buf (length l1)). rewrite bind_run.
  rewrite fails_within_split.
  destruct (fails_within (oracle w) (emplace_ticks _ _ _ _)) as [k|].
  { destruct Hins as [w' ->]. by eexists. }
  destruct Hins as (w1 & buf' & cap' & -> & Hinv1 & _ & _ & Horc & _).
  destruct (vec_inv_nonempty _ _ _ _ _ Hinv1) as [b' ->]; [by destruct l1|].
  rewrite bind_run, (begin_inv _ _ _ _ _ Hinv1).
  change (Ptr (Some b') 0 +ₚ length l1) with (Ptr (Some b') (length l1)).
  pose proof (Erase_run w1 this b' cap' l1 (args_value a) l2 Htriv Hinv1) as Her.
  rewrite Horc in Her.
  destruct (fails_within (tick _ (oracle w)) _) as [k|]; cbn [fmap option_fmap option_map].
  { destruct Her as [w' ->]. by eexists. }
  rewrite Her. eexists _, _. split; [done|]. split.
  - eapply contents_run; cbn [objs heap]; [apply lookup_insert_eq|].
    cbn. by rewrite lookup_insert_eq.
  - unfold Size. rewrite bind_run. erewrite get_vec_run by apply lookup_insert_eq. done.
Qed.

(** X26 ([Insert], then [Erase] at the same position).  For a trivially
    destructible element type, [Insert] at a position [p ≤ size] of a
    well-formed vector followed by [Erase] at [p] gives back the same size
    and the same elements, for [Insert(pos, const T&)] (of a copyable
    type) and for [Insert(pos, T&&)] alike, on the relocating path and in
    place; when an element operation throws on the way, the pair of calls
    is left by the exception. *)
Theorem Insert_then_Erase_restores w this buf cap l p value :
  trivially_destructible = true → vec_inv w this buf cap l → p ≤ length l →
  (copy_constructible = true →
   match fails_within (oracle w)
           (emplace_ticks (ByCopy value) p (length l - p) cap
            + ticks_unless nothrow_move_assignable (length l - p)) with
   | None =>
       ∃ it w', insert_then_erase this p value w = Ok it w'
                ∧ contents w' this = Some l
                ∧ Size this w' = Ok (length l) w'
   | Some _ => ∃ w', insert_then_erase this p value w = Throw w'
   end)
  ∧ match fails_within (oracle w)
            (emplace_ticks (ByMove value) p (length l - p) cap
             + ticks_unless nothrow_move_assignable (length l - p)) with
    | None =>
        ∃ it w', insert_rvalue_then_erase this p value w = Ok it w'
                 ∧ contents w' this = Some l
                 ∧ Size this w' = Ok (length l) w'
    | Some _ => ∃ w', insert_rvalue_then_erase this p value w = Throw w'
    end.
Proof.
  intros Htriv Hinv Hp.
  assert (Hinv' : vec_inv w this buf cap (take p l ++ drop p l)) by by rewrite take_drop.
  assert (Hlp : length (take p l) = p) by (rewrite length_take; lia).
  split; [intros Hc|].
  - pose proof (emplace_then_erase_run w this buf cap (take p l) (drop p l) (ByCopy value)
                  Htriv Hc Hinv') as Hrun.
    by rewrite take_drop, Hlp, length_drop in Hrun.
  - pose proof (emplace_then_erase_run w this buf cap (take p l) (drop p l) (ByMove value)
                  Htriv I Hinv') as Hrun.
    by rewrite take_drop, Hlp, length_drop in Hrun.
Qed.
End Positions.

(** ** Instances *)

Lemma world_of_fresh {T} (l : list T) cap orc : heap_fresh (world_of l cap orc).
Proof. intros b Hb. simpl in *. rewrite lookup_insert_ne by lia. done. Qed.

Lemma no_vector_no_block_fresh {T} orc : heap_fresh (World (T:=T) ∅ 0 ∅ 1 orc []).
Proof. intros b _. done. Qed.

Lemma Vector_sized_all_or_nothing_witness :
  let w : world Tracked := World ∅ 0 ∅ 1 (Some 2) [] in
  representable (T:=Tracked) 3 ∧ heap_fresh w ∧ objs w !! 0 = None
  ∧ ∃ w', Vector_sized 0 3 w = Throw w'
          ∧ heap w' = heap w ∧ objs w' = objs w
          ∧ log w' = [EvFree 0; EvDtor; EvCtor; EvAlloc 3].
Proof.
  intros w.
  assert (Hr : representable (T:=Tracked) 3) by (by vm_compute).
  assert (H1 : heap_fresh w) by apply no_vector_no_block_fresh.
  assert (H2 : objs w !! 0 = None) by reflexivity.
  split; [exact Hr|]. split; [exact H1|]. split; [exact H2|].
  exact (Vector_sized_all_or_nothing w 0 3 Hr H1 H2).
Defined.

Lemma Vector_copy_ctor_all_or_nothing_witness :
  let w := world_of [tracked 7; tracked 8] 2 (Some 1) in
  copy_constructible (T:=Tracked) = true
  ∧ vec_inv w 0 (Some 0) 2 [tracked 7; tracked 8]
  ∧ objs w !! 5 = None
  ∧ ∃ w', Vector_copy_ctor 5 0 w = Throw w'
          ∧ heap w' = heap w ∧ objs w' = objs w
          ∧ log w' = [EvFree 0; EvAlloc 2].
Proof.
  intros w.
  assert (H1 : copy_constructible (T:=Tracked) = true) by reflexivity.
  assert (H2 : vec_inv w 0 (Some 0) 2 [tracked 7; tracked 8])
    by (apply world_of_inv; simpl; lia).
  assert (H3 : objs w !! 5 = None) by reflexivity.
  split; [exact H1|]. split; [exact H2|]. split; [exact H3|].
  exact (Vector_copy_ctor_all_or_nothing w 5 0 (Some 0) 2 [tracked 7; tracked 8] H1 H2 H3).
Defined.

Lemma Vector_dtor_destroys_then_releases_witness :
  let w := world_of [1; 2; 3]%Z 4 None in
  vec_inv w 0 (Some 0) 4 [1; 2; 3]%Z
  ∧ Vector_dtor 0 w =
      Ok () (World (delete 0 (heap w)) 1 (delete 0 (objs w)) 1 None
                   [EvFree 0; EvDtor; EvDtor; EvDtor]).
Proof.
  intros w.
  assert (H1 : vec_inv w 0 (Some 0) 4 [1; 2; 3]%Z) by (apply world_of_inv; simpl; lia).
  split; [exact H1|].
  exact (Vector_dtor_destroys_then_releases w 0 (Some 0) 4 [1; 2; 3]%Z H1).
Defined.

Lemma Vector_sized_then_dtor_witness :
  let w : world Z := World ∅ 0 ∅ 1 None [] in
  representable (T:=Z) 3 ∧ heap_fresh w ∧ objs w !! 0 = None
  ∧ fails_within (oracle w) (construction_ticks 3) = None
  ∧ ∃ w', (Vector_sized 0 3;; Vector_dtor 0) w = Ok () w'
          ∧ heap w' = heap w ∧ objs w' = objs w
          ∧ log w' = [EvFree 0; EvDtor; EvDtor; EvDtor; EvCtor; EvCtor; EvCtor; EvAlloc 3].
Proof.
  intros w.
  assert (Hr : representable (T:=Z) 3) by (by vm_compute).
  assert (H1 : heap_fresh w) by apply no_vector_no_block_fresh.
  assert (H2 : objs w !! 0 = None) by reflexivity.
  assert (H3 : fails_within (oracle w) (construction_ticks 3) = None) by reflexivity.
  split; [exact Hr|]. split; [exact H1|]. split; [exact H2|]. split; [exact H3|].
  exact (Vector_sized_then_dtor w 0 3 Hr H1 H2 H3).
Defined.

Lemma Vector_at_checks_the_index_witness :
  let w := world_of [1; 2; 3]%Z 4 None in
  vec_inv w 0 (Some 0) 4 [1; 2; 3]%Z
  ∧ (Vector_at 0 1 w = Ok (Ptr (Some 0) 1) w ∧ load (Ptr (Some 0) 1) w = Ok 2%Z w)
  ∧ Vector_at 0 3 w = Fault AssertFailed.
Proof.
  intros w.
  assert (H1 : vec_inv w 0 (Some 0) 4 [1; 2; 3]%Z) by (apply world_of_inv; simpl; lia).
  split; [exact H1|]. split.
  - exact (Vector_at_checks_the_index w 0 (Some 0) 4 [1; 2; 3]%Z 1 H1).
  - exact (Vector_at_checks_the_index w 0 (Some 0) 4 [1; 2; 3]%Z 3 H1).
Defined.

Lemma Swap_exchanges_the_vectors_witness :
  let w := world_of2 [1; 2]%Z 2 [3]%Z 1 None in
  0 ≠ 1 ∧ vec_inv w 0 (Some 0) 2 [1; 2]%Z ∧ vec_inv w 1 (Some 1) 1 [3]%Z
  ∧ ∃ w', Swap 0 1 w = Ok () w'
          ∧ vec_inv w' 0 (Some 1) 1 [3]%Z ∧ vec_inv w' 1 (Some 0) 2 [1; 2]%Z
          ∧ heap w' = heap w ∧ log w' = log w ∧ oracle w' = oracle w
          ∧ Swap 0 1 w' = Ok () w.
Proof.
  intros w.
  assert (H1 : 0 ≠ 1) by lia.
  assert (H2 : vec_inv w 0 (Some 0) 2 [1; 2]%Z) by (apply world_of2_inv0; simpl; lia).
  assert (H3 : vec_inv w 1 (Some 1) 1 [3]%Z) by (apply world_of2_inv1; simpl; lia).
  split; [exact H1|]. split; [exact H2|]. split; [exact H3|].
  exact (Swap_exchanges_the_vectors w 0 1 (Some 0) 2 [1; 2]%Z (Some 1) 1 [3]%Z H1 H2 H3).
Defined.

Lemma Resize_down_destroys_the_tail_witness :
  let w := world_of [1; 2; 3]%Z 4 None in
  vec_inv w 0 (Some 0) 4 [1; 2; 3]%Z ∧ 1 ≤ 3
  ∧ ∃ w', Resize 0 1 w = Ok () w'
          ∧ vec_inv w' 0 (Some 0) 4 [1]%Z
          ∧ log w' = [EvDtor; EvDtor]
          ∧ oracle w' = oracle w
          ∧ (∀ other, other ≠ 0 → objs w' !! other = objs w !! other).
Proof.
  intros w.
  assert (H1 : vec_inv w 0 (Some 0) 4 [1; 2; 3]%Z) by (apply world_of_inv; simpl; lia).
  assert (H2 : 1 ≤ length [1; 2; 3]%Z) by (simpl; lia).
  split; [exact H1|]. split; [lia|].
  exact (Resize_down_destroys_the_tail w 0 (Some 0) 4 [1; 2; 3]%Z 1 H1 H2).
Defined.

Lemma Resize_up_appends_value_initialised_witness :
  let w := world_of [tracked 7] 1 (Some 2) in
  vec_inv w 0 (Some 0) 1 [tracked 7] ∧ 1 < 3 ∧ representable (T:=Tracked) 3
  ∧ (nothrow_move_constructible (T:=Tracked) || copy_constructible (T:=Tracked) = true)
  ∧ ∃ w' buf' cap', Resize 0 3 w = Throw w'
          ∧ vec_inv w' 0 buf' cap' [tracked 7]
          ∧ contents w' 0 = Some [tracked 7].
Proof.
  intros w.
  assert (H1 : vec_inv w 0 (Some 0) 1 [tracked 7]) by (apply world_of_inv; simpl; lia).
  assert (H2 : length [tracked 7] < 3) by (simpl; lia).
  assert (Hr : representable (T:=Tracked) 3) by (by vm_compute).
  assert (H3 : @nothrow_move_constructible Tracked _ || @copy_constructible Tracked _ = true)
    by reflexivity.
  split; [exact H1|]. split; [lia|]. split; [exact Hr|]. split; [exact H3|].
  exact (Resize_up_appends_value_initialised w 0 (Some 0) 1 [tracked 7] 3 H1 H2 Hr H3).
Defined.

Lemma Resize_up_then_down_restores_witness :
  let w := world_of [1; 2]%Z 2 None in
  vec_inv w 0 (Some 0) 2 [1; 2]%Z ∧ 2 ≤ 5 ∧ representable (T:=Z) 5 ∧ oracle w = None
  ∧ ∃ w' buf', (Resize 0 5;; Resize 0 2) w = Ok () w'
          ∧ vec_inv w' 0 buf' 5 [1; 2]%Z
          ∧ contents w' 0 = Some [1; 2]%Z.
Proof.
  intros w.
  assert (H1 : vec_inv w 0 (Some 0) 2 [1; 2]%Z) by (apply world_of_inv; simpl; lia).
  assert (H2 : length [1; 2]%Z ≤ 5) by (simpl; lia).
  assert (Hr : representable (T:=Z) 5) by (by vm_compute).
  assert (H3 : oracle w = None) by reflexivity.
  split; [exact H1|]. split; [lia|]. split; [exact Hr|]. split; [exact H3|].
  exact (Resize_up_then_down_restores w 0 (Some 0) 2 [1; 2]%Z 5 H1 H2 Hr H3).
Defined.

Lemma PopBack_removes_the_last_witness :
  let w := world_of [1; 2; 3]%Z 4 None in
  vec_inv w 0 (Some 0) 4 [1; 2; 3]%Z
  ∧ ∃ w', PopBack 0 w = Ok () w'
          ∧ vec_inv w' 0 (Some 0) 4 [1; 2]%Z
          ∧ log w' = [EvDtor]
          ∧ oracle w' = oracle w
          ∧ ([1; 2; 3]%Z = [] → w' = w)
          ∧ (∀ other, other ≠ 0 → objs w' !! other = objs w !! other).
Proof.
  intros w.
  assert (H1 : vec_inv w 0 (Some 0) 4 [1; 2; 3]%Z) by (apply world_of_inv; simpl; lia).
  split; [exact H1|].
  exact (PopBack_removes_the_last w 0 (Some 0) 4 [1; 2; 3]%Z H1).
Defined.

Lemma PushBack_then_PopBack_restores_witness :
  let w := world_of [1; 2]%Z 2 None in
  copy_constructible (T:=Z) = true
  ∧ vec_inv w 0 (Some 0) 2 [1; 2]%Z
  ∧ fails_within (oracle w) (emplace_ticks (ByCopy 3%Z) 2 0 2) = None
  ∧ ∃ w' buf' cap', (PushBack 0 3%Z;; PopBack 0) w = Ok () w'
          ∧ vec_inv w' 0 buf' cap' [1; 2]%Z
          ∧ contents w' 0 = Some [1; 2]%Z
          ∧ 2 ≤ cap'.
Proof.
  intros w.
  assert (H1 : copy_constructible (T:=Z) = true) by reflexivity.
  assert (H2 : vec_inv w 0 (Some 0) 2 [1; 2]%Z) by (apply world_of_inv; simpl; lia).
  assert (H3 : fails_within (oracle w) (emplace_ticks (ByCopy 3%Z) (length [1; 2]%Z) 0 2) = None)
    by reflexivity.
  split; [exact H1|]. split; [exact H2|]. split; [exact H3|].
  exact (PushBack_then_PopBack_restores w 0 (Some 0) 2 [1; 2]%Z 3%Z H1 H2 H3).
Defined.

Lemma PushBacks_append_in_order_witness :
  let w := world_of [1]%Z 1 None in
  copy_constructible (T:=Z) = true
  ∧ vec_inv w 0 (Some 0) 1 [1]%Z ∧ oracle w = None
  ∧ ∃ w' buf' cap', push_all 0 [2; 3; 4]%Z w = Ok () w'
          ∧ vec_inv w' 0 buf' cap' [1; 2; 3; 4]%Z
          ∧ contents w' 0 = Some [1; 2; 3; 4]%Z
          ∧ Size 0 w' = Ok 4 w'
          ∧ 1 ≤ cap' ∧ 4 ≤ cap'.
Proof.
  intros w.
  assert (H1 : copy_constructible (T:=Z) = true) by reflexivity.
  assert (H2 : vec_inv w 0 (Some 0) 1 [1]%Z) by (apply world_of_inv; simpl; lia).
  assert (H3 : oracle w = None) by reflexivity.
  split; [exact H1|]. split; [exact H2|]. split; [exact H3|].
  exact (PushBacks_append_in_order w 0 (Some 0) 1 [1]%Z [2; 3; 4]%Z H1 H2 H3).
Defined.

Lemma Reserve_then_PushBacks_keep_the_block_witness :
  let w := world_of [1]%Z 1 None in
  copy_constructible (T:=Z) = true
  ∧ vec_inv w 0 (Some 0) 1 [1]%Z ∧ oracle w = None ∧ 1 + 2 ≤ 4
  ∧ representable (T:=Z) 4
  ∧ ∃ w1 w' buf1,
      Reserve 0 4 w = Ok () w1
      ∧ begin_ 0 w1 = Ok (Ptr buf1 0) w1
      ∧ push_all 0 [2; 3]%Z w1 = Ok () w'
      ∧ begin_ 0 w' = Ok (Ptr buf1 0) w'
      ∧ Capacity 0 w' = Ok 4 w'
      ∧ contents w' 0 = Some [1; 2; 3]%Z
      ∧ (∀ i x, [1]%Z !! i = Some x → load (Ptr buf1 i) w' = Ok x w').
Proof.
  intros w.
  assert (H1 : copy_constructible (T:=Z) = true) by reflexivity.
  assert (H2 : vec_inv w 0 (Some 0) 1 [1]%Z) by (apply world_of_inv; simpl; lia).
  assert (H3 : oracle w = None) by reflexivity.
  assert (H4 : length [1]%Z + length [2; 3]%Z ≤ 4) by (simpl; lia).
  assert (Hr : representable (T:=Z) 4) by (by vm_compute).
  split; [exact H1|]. split; [exact H2|]. split; [exact H3|]. split; [lia|].
  split; [exact Hr|].
  exact (Reserve_then_PushBacks_keep_the_block w 0 (Some 0) 1 [1]%Z [2; 3]%Z 4
           H1 H2 H3 H4 Hr).
Defined.

Lemma EmplaceBack_commits_or_rolls_back_witness :
  let w := world_of [tracked 7; tracked 8] 2 (Some 2) in
  (nothrow_move_constructible (T:=Tracked) || copy_constructible (T:=Tracked) = true)
  ∧ vec_inv w 0 (Some 0) 2 [tracked 7; tracked 8]
  ∧ args_ok (ByCopy (tracked 9))
  ∧ fails_within (oracle w) (emplace_ticks (ByCopy (tracked 9)) 2 0 2) = Some 2
  ∧ ∃ w', EmplaceBack 0 (ByCopy (tracked 9)) w = Throw w'
          ∧ heap w' = heap w ∧ objs w' = objs w
          ∧ vec_inv w' 0 (Some 0) 2 [tracked 7; tracked 8]
          ∧ contents w' 0 = Some [tracked 7; tracked 8].
Proof.
  intros w.
  assert (H1 : @nothrow_move_constructible Tracked _ || @copy_constructible Tracked _ = true)
    by reflexivity.
  assert (H2 : vec_inv w 0 (Some 0) 2 [tracked 7; tracked 8])
    by (apply world_of_inv; simpl; lia).
  assert (H3 : args_ok (ByCopy (tracked 9))) by reflexivity.
  assert (H4 : fails_within (oracle w)
                 (emplace_ticks (ByCopy (tracked 9)) (length [tracked 7; tracked 8]) 0 2)
               = Some 2) by reflexivity.
  split; [exact H1|]. split; [exact H2|]. split; [exact H3|]. split; [exact H4|].
  exact (EmplaceBack_commits_or_rolls_back w 0 (Some 0) 2 [tracked 7; tracked 8]
           (ByCopy (tracked 9)) 2 H1 H2 H3 H4).
Defined.

Lemma Erase_removes_the_element_witness :
  let w := world_of [1; 2; 3]%Z 4 None in
  vec_inv w 0 (Some 0) 4 [1; 2; 3]%Z ∧ 0 < 3
  ∧ ∃ w', Erase 0 (Ptr (Some 0) 0) w = Ok (Ptr (Some 0) 0) w'
          ∧ contents w' 0 = Some [2; 3]%Z
          ∧ objs w' !! 0 = Some (mkVector (mkRawMemory (Some 0) 4) 2)
          ∧ (∀ x, [1; 2; 3]%Z !! 1 = Some x → load (Ptr (Some 0) 0) w' = Ok x w')
          ∧ log w' = [EvStrayDtor (Ptr (Some 0) 3); EvMoveAssign; EvMoveAssign]
          ∧ next_block w' = next_block w.
Proof.
  intros w.
  assert (H1 : vec_inv w 0 (Some 0) 4 [1; 2; 3]%Z) by (apply world_of_inv; simpl; lia).
  assert (H2 : 0 < length [1; 2; 3]%Z) by (simpl; lia).
  split; [exact H1|]. split; [lia|].
  exact (Erase_removes_the_element w 0 (Some 0) 4 [1; 2; 3]%Z 0 H1 H2).
Defined.

Lemma Insert_then_Erase_restores_witness :
  let w := world_of [1; 2; 3]%Z 3 None in
  trivially_destructible (T:=Z) = true ∧ vec_inv w 0 (Some 0) 3 [1; 2; 3]%Z ∧ 1 ≤ 3
  ∧ copy_constructible (T:=Z) = true
  ∧ (∃ it w', insert_then_erase 0 1 9%Z w = Ok it w'
              ∧ contents w' 0 = Some [1; 2; 3]%Z ∧ Size 0 w' = Ok 3 w')
  ∧ (∃ it w', insert_rvalue_then_erase 0 1 9%Z w = Ok it w'
              ∧ contents w' 0 = Some [1; 2; 3]%Z ∧ Size 0 w' = Ok 3 w').
Proof.
  intros w.
  assert (H1 : trivially_destructible (T:=Z) = true) by reflexivity.
  assert (H2 : vec_inv w 0 (Some 0) 3 [1; 2; 3]%Z) by (apply world_of_inv; simpl; lia).
  assert (H3 : 1 ≤ length [1; 2; 3]%Z) by (simpl; lia).
  assert (H4 : copy_constructible (T:=Z) = true) by reflexivity.
  split; [exact H1|]. split; [exact H2|]. split; [lia|]. split; [exact H4|].
  pose proof (Insert_then_Erase_restores w 0 (Some 0) 3 [1; 2; 3]%Z 1 9%Z H1 H2 H3) as H.
  split; [exact (proj1 H H4)|exact (proj2 H)].
Defined.

Lemma Emplace_leaves_other_vectors_alone_witness :
  let w := world_of2 [1; 2]%Z 2 [3]%Z 1 None in
  vec_inv w 0 (Some 0) 2 [1; 2]%Z ∧ 1 ≤ 2 ∧ args_ok (ByArgs 9%Z) ∧ 1 ≠ 0
  ∧ vec_inv w 1 (Some 1) 1 [3]%Z
  ∧ (∀ b, Some 1 = Some b → Some 0 ≠ Some b)
  ∧ fails_within (oracle w) (emplace_ticks (ByArgs 9%Z) 1 (2 - 1) 2) = None
  ∧ ∃ r w', Emplace 0 (Ptr (Some 0) 1) (ByArgs 9%Z) w = Ok r w'
          ∧ vec_inv w' 1 (Some 1) 1 [3]%Z
          ∧ contents w' 1 = Some [3]%Z
          ∧ contents w' 0 = Some [1; 9; 2]%Z.
Proof.
  intros w.
  assert (H1 : vec_inv w 0 (Some 0) 2 [1; 2]%Z) by (apply world_of2_inv0; simpl; lia).
  assert (H2 : 1 ≤ length [1; 2]%Z) by (simpl; lia).
  assert (H3 : args_ok (ByArgs 9%Z)) by exact I.
  assert (H4 : 1 ≠ 0) by lia.
  assert (H5 : vec_inv w 1 (Some 1) 1 [3]%Z) by (apply world_of2_inv1; simpl; lia).
  assert (H6 : ∀ b, Some 1 = Some b → Some 0 ≠ Some b) by (intros b [= <-]; discriminate).
  assert (H7 : fails_within (oracle w)
                 (emplace_ticks (ByArgs 9%Z) 1 (length [1; 2]%Z - 1) 2) = None)
    by reflexivity.
  split; [exact H1|]. split; [lia|]. split; [exact H3|]. split; [exact H4|].
  split; [exact H5|]. split; [exact H6|]. split; [exact H7|].
  exact (Emplace_leaves_other_vectors_alone w 0 (Some 0) 2 [1; 2]%Z 1 (ByArgs 9%Z)
           1 (Some 1) 1 [3]%Z H1 H2 H3 H4 H5 H6 H7).
Defined.

Lemma copy_shares_nothing_with_its_source_witness :
  let w := world_of [1; 2]%Z 2 None in
  copy_constructible (T:=Z) = true
  ∧ vec_inv w 0 (Some 0) 2 [1; 2]%Z ∧ objs w !! 5 = None ∧ 1 ≤ 2 ∧ oracle w = None
  ∧ ∃ w', (Vector_copy_ctor 5 0;; bg ← begin_ 5; Emplace 5 (bg +ₚ 1) (ByArgs 9%Z);; mret ()) w
          = Ok () w'
          ∧ vec_inv w' 0 (Some 0) 2 [1; 2]%Z
          ∧ contents w' 0 = Some [1; 2]%Z
          ∧ contents w' 5 = Some [1; 9; 2]%Z.
Proof.
  intros w.
  assert (H1 : copy_constructible (T:=Z) = true) by reflexivity.
  assert (H2 : vec_inv w 0 (Some 0) 2 [1; 2]%Z) by (apply world_of_inv; simpl; lia).
  assert (H3 : objs w !! 5 = None) by reflexivity.
  assert (H4 : 1 ≤ length [1; 2]%Z) by (simpl; lia).
  assert (H5 : oracle w = None) by reflexivity.
  split; [exact H1|]. split; [exact H2|]. split; [exact H3|]. split; [lia|].
  split; [exact H5|].
  exact (copy_shares_nothing_with_its_source w 0 5 (Some 0) 2 [1; 2]%Z 1 9%Z H1 H2 H3 H4 H5).
Defined.

Lemma copy_assignment_within_capacity_witness :
  let w := world_of2 [tracked 1; tracked 2; tracked 3] 4 [tracked 7; tracked 8] 2 (Some 1) in
  copy_constructible (T:=Tracked) = true ∧ 0 ≠ 1
  ∧ vec_inv w 0 (Some 0) 4 [tracked 1; tracked 2; tracked 3]
  ∧ vec_inv w 1 (Some 1) 2 [tracked 7; tracked 8]
  ∧ (∀ b, Some 0 = Some b → Some 1 ≠ Some b) ∧ 2 ≤ 4
  ∧ ∃ w', Vector_copy_assign 0 1 w = Throw w'
          ∧ vec_inv w' 0 (Some 0) 4 [tracked 7; tracked 2; tracked 3]
          ∧ vec_inv w' 1 (Some 1) 2 [tracked 7; tracked 8]
          ∧ Size 0 w' = Ok 3 w'.
Proof.
  intros w.
  assert (H1 : copy_constructible (T:=Tracked) = true) by reflexivity.
  assert (H2 : 0 ≠ 1) by lia.
  assert (H3 : vec_inv w 0 (Some 0) 4 [tracked 1; tracked 2; tracked 3])
    by (apply world_of2_inv0; simpl; lia).
  assert (H4 : vec_inv w 1 (Some 1) 2 [tracked 7; tracked 8])
    by (apply world_of2_inv1; simpl; lia).
  assert (H5 : ∀ b, Some 0 = Some b → Some 1 ≠ Some b) by (intros b [= <-]; discriminate).
  assert (H6 : length [tracked 7; tracked 8] ≤ 4) by (simpl; lia).
  split; [exact H1|]. split; [exact H2|]. split; [exact H3|]. split; [exact H4|].
  split; [exact H5|]. split; [lia|].
  exact (copy_assignment_within_capacity w 0 1 (Some 0) 4 [tracked 1; tracked 2; tracked 3]
           (Some 1) 2 [tracked 7; tracked 8] H1 H2 H3 H4 H5 H6).
Defined.

Lemma moved_from_vector_owns_nothing_witness :
  let w := world_of [1; 2]%Z 2 None in
  5 ≠ 0 ∧ vec_inv w 0 (Some 0) 2 [1; 2]%Z
  ∧ ∃ w1 w2 w3,
      Vector_move_ctor 5 0 w = Ok () w1
      ∧ Vector_dtor 0 w1 = Ok () w2
      ∧ heap w2 = heap w ∧ log w2 = log w
      ∧ vec_inv w2 5 (Some 0) 2 [1; 2]%Z
      ∧ Vector_dtor 5 w2 = Ok () w3
      ∧ heap w3 = delete 0 (heap w)
      ∧ log w3 = [EvFree 0; EvDtor; EvDtor]
      ∧ objs w3 !! 0 = None ∧ objs w3 !! 5 = None.
Proof.
  intros w.
  assert (H1 : 5 ≠ 0) by lia.
  assert (H2 : vec_inv w 0 (Some 0) 2 [1; 2]%Z) by (apply world_of_inv; simpl; lia).
  split; [exact H1|]. split; [exact H2|].
  exact (moved_from_vector_owns_nothing w 0 5 (Some 0) 2 [1; 2]%Z H1 H2).
Defined.

Lemma RawMemory_ctor_then_dtor_witness :
  let w := world_of [1]%Z 1 None in
  representable (T:=Z) 3 ∧ heap_fresh w
  ∧ ∃ d w1 w2, RawMemory_ctor 3 w = Ok d w1
      ∧ capacity_ d = 3 ∧ (buffer_ d = None ↔ 3 = 0)
      ∧ (∀ b, buffer_ d = Some b → heap w !! b = None)
      ∧ (∀ i, i < 3 → slot_at w1 (GetAddress d +ₚ i) = Some Raw)
      ∧ RawMemory_dtor d w1 = Ok () w2
      ∧ heap w2 = heap w
      ∧ log w2 = release_log (buffer_ d) 0 ++ [EvAlloc 3].
Proof.
  intros w.
  assert (Hr : representable (T:=Z) 3) by (by vm_compute).
  assert (H1 : heap_fresh w) by apply world_of_fresh.
  split; [exact Hr|]. split; [exact H1|].
  exact (RawMemory_ctor_then_dtor w 3 Hr H1).
Defined.

Section InPlace.
Context {T : Type} `{!Elem T}.
Implicit Types (w : world T) (l : list T).

Lemma count_app (f : event → bool) evs1 evs2 :
  count f (evs1 ++ evs2) = count f evs1 + count f evs2.
Proof. unfold count. by rewrite filter_app, length_app. Qed.

Lemma count_replicate (f : event → bool) e n :
  count f (replicate n e) = if f e then n else 0.
Proof.
  unfold count. induction n as [|n IH]; [by destruct (f e)|]. cbn [replicate].
  destruct (f e) eqn:Hfe.
  - rewrite filter_cons_True by (simpl; by rewrite Hfe). cbn [length]. by rewrite IH.
  - rewrite filter_cons_False by (simpl; rewrite Hfe; cbn; tauto). done.
Qed.

Lemma Emplace_inplace_world w this b cap l1 l2 a :
  vec_inv w this (Some b) cap (l1 ++ l2) → length (l1 ++ l2) < cap → args_ok a →
  fails_within (oracle w) (inplace_ticks a (length l2)) = None →
  Emplace this (Ptr (Some b) (length l1)) a w =
    Ok (Ptr (Some b) (length l1))
       (World (<[b := slots_of (l1 ++ args_value a :: l2) cap]> (heap w)) (next_block w)
              (<[this := mkVector (mkRawMemory (Some b) cap) (S (length (l1 ++ l2)))]> (objs w))
              (next_obj w) (tick (inplace_ticks a (length l2)) (oracle w))
              (inplace_log a (length l2) ++ log w)).
Proof.
  intros Hinv Hlt Hok Hf. pose proof Hinv as [Ho Hlen Hblk Hfresh].
  pose proof (EmplaceWithoutRelocate_run w this b cap l1 l2 a Hinv Hlt Hok) as Hrun.
  rewrite Hf in Hrun.
  assert (Hn : length (l1 ++ l2) = length l1 + length l2) by by rewrite length_app.
  destruct w as [h nb o no orc lg]. cbn [heap next_block objs next_obj oracle log] in *.
  unfold Emplace, cbegin.
  rewrite bind_run. erewrite begin_run by done. cbn [data_ buffer_].
  rewrite bind_run, distance_run by (cbn [base off]; done || lia). cbn [off].
  rewrite Nat.sub_0_r.
  rewrite bind_run. erewrite get_vec_run by done. cbn [size_ data_ capacity_].
  rewrite bind_run, assert_run by (apply bool_decide_eq_true_2; lia).
  rewrite decide_False by lia. rewrite bind_run, Hrun.
  rewrite bind_run. erewrite get_vec_run by done.
  rewrite bind_run. erewrite set_size_run by done.
  rewrite bind_run. erewrite begin_run by apply lookup_insert_eq.
  cbn [data_ buffer_ size_]. rewrite ret_run.
  change (Ptr (Some b) 0 +ₚ length l1) with (Ptr (Some b) (0 + length l1)).
  by rewrite Nat.add_0_l.
Qed.

(** X22 ([Emplace] with spare capacity, [EmplaceWithoutRelocate]).  When
    the size is below the capacity, a successful [Emplace] at index [p]
    allocates nothing and keeps the block.  At the end it runs the new
    element's constructor and nothing else.  Before the end it constructs
    a temporary, move-constructs the last element one slot further,
    move-assigns the [size - p - 1] elements before it one slot toward
    the back, move-assigns the temporary into slot [p] and destroys the
    temporary: [size - p] move assignments in all. *)
Theorem Emplace_in_place_cost w this buf cap l p a :
  vec_inv w this buf cap l → length l < cap → p ≤ length l → args_ok a →
  fails_within (oracle w) (inplace_ticks a (length l - p)) = None →
  ∃ w', Emplace this (Ptr buf p) a w = Ok (Ptr buf p) w'
    ∧ vec_inv w' this buf cap (take p l ++ args_value a :: drop p l)
    ∧ next_block w' = next_block w
    ∧ log w' = inplace_log a (length l - p) ++ log w
    ∧ count is_move_assign (inplace_log a (length l - p)) = length l - p
    ∧ count is_ctor (inplace_log a (length l - p))
      = S (count is_dtor (inplace_log a (length l - p))).
Proof.
  intros Hinv Hlt Hp Hok Hf.
  destruct buf as [b|]; [|destruct Hinv as [_ _ Hb _]; simpl in Hb; lia].
  assert (Hinv' : vec_inv w this (Some b) cap (take p l ++ drop p l)) by by rewrite take_drop.
  assert (Hlt' : length (take p l ++ drop p l) < cap) by by rewrite take_drop.
  pose proof (Emplace_inplace_world w this b cap (take p l) (drop p l) a Hinv' Hlt' Hok) as Hrun.
  rewrite length_take_le, length_drop in Hrun by lia.
  rewrite Hrun by done. eexists. split; [done|].
  split; [|split; [done|split; [done|]]].
  - rewrite take_drop.
    replace (S (length l)) with (length (take p l ++ args_value a :: drop p l)).
    2:{ rewrite length_app. cbn [length]. rewrite length_take_le, length_drop by lia. lia. }
    eapply vec_inv_insert; [exact Hinv|done|].
    rewrite length_app. cbn [length]. rewrite length_take_le, length_drop by lia. lia.
  - destruct (length l - p) as [|m]; [by destruct a|].
    cbn [inplace_log].
    change (EvDtor :: EvMoveAssign :: replicate m EvMoveAssign ++ [EvMoveCtor; args_event a])
      with ([EvDtor; EvMoveAssign] ++ replicate m EvMoveAssign ++ [EvMoveCtor; args_event a]).
    rewrite !count_app, !count_replicate. by destruct a.
Qed.

(** X23 ([PushBack(T&&)]).  Pushing an rvalue needs no copy constructor:
    the new element is move-constructed.  On success the vector holds the
    old elements followed by the value; with spare capacity the one
    constructor call is the move constructor and buffer and capacity are
    kept.  The call can throw only when the move constructor may throw or
    when the vector is full and has to reallocate. *)
Theorem PushBack_rvalue_moves_the_value w this buf cap l v :
  vec_inv w this buf cap l →
  match fails_within (oracle w) (emplace_ticks (ByMove v) (length l) 0 cap) with
  | None =>
      ∃ w' buf' cap', PushBack_rvalue this v w = Ok () w'
        ∧ vec_inv w' this buf' cap' (l ++ [v])
        ∧ contents w' this = Some (l ++ [v])
        ∧ (length l < cap → log w' = EvMoveCtor :: log w ∧ buf' = buf ∧ cap' = cap)
  | Some _ =>
      (nothrow_move_constructible = false ∨ length l = cap)
      ∧ ∃ w', PushBack_rvalue this v w = Throw w'
  end.
Proof.
  intros Hinv.
  assert (vec_inv w this buf cap (l ++ [])) as Hinv' by by rewrite app_nil_r.
  pose proof (Emplace_run w this buf cap l [] (ByMove v) Hinv' I) as Hrun.
  cbn [length] in Hrun.
  unfold PushBack_rvalue, EmplaceBack. rewrite bind_run, bind_run, (end_inv _ _ _ _ _ Hinv).
  destruct (fails_within _ _) as [k|] eqn:Hf.
  - split; [|destruct Hrun as [w' ->]; by eexists].
    destruct nothrow_move_constructible eqn:Hnmc; [|by left]. right.
    destruct (decide (length l = cap)) as [|Hne]; [done|].
    unfold emplace_ticks in Hf. rewrite decide_False in Hf by lia.
    cbn [inplace_ticks args_ticks] in Hf. rewrite Hnmc in Hf.
    cbn [ticks_unless] in Hf. by rewrite fails_within_0 in Hf.
  - destruct Hrun as (w' & buf' & cap' & Hrun & Hinv1 & Hcap & Hbuf & _).
    rewrite Hrun. exists w', buf', cap'. split; [done|]. split; [done|].
    split; [by eapply vec_inv_contents|].
    intros Hlt. rewrite Nat.add_0_r in Hcap, Hbuf.
    rewrite decide_False in Hcap by lia. rewrite decide_False in Hbuf by lia.
    split; [|done].
    destruct buf as [b|]; [|destruct Hinv as [_ _ Hb _]; simpl in Hb; lia].
    assert (Hlt' : length (l ++ []) < cap) by by rewrite app_nil_r.
    unfold emplace_ticks in Hf. rewrite decide_False in Hf by lia.
    pose proof (Emplace_inplace_world w this b cap l [] (ByMove v) Hinv' Hlt' I Hf) as Hw.
    rewrite Hw in Hrun. by injection Hrun as _ <-.
Qed.

End InPlace.

Lemma Emplace_in_place_cost_witness :
  let w := world_of [1; 2; 3]%Z 4 None in
  vec_inv w 0 (Some 0) 4 [1; 2; 3]%Z ∧ 3 < 4 ∧ 1 ≤ 3 ∧ args_ok (ByArgs 9%Z)
  ∧ fails_within (oracle w) (inplace_ticks (ByArgs 9%Z) (3 - 1)) = None
  ∧ ∃ w', Emplace 0 (Ptr (Some 0) 1) (ByArgs 9%Z) w = Ok (Ptr (Some 0) 1) w'
          ∧ vec_inv w' 0 (Some 0) 4 [1; 9; 2; 3]%Z
          ∧ next_block w' = next_block w
          ∧ log w' = [EvDtor; EvMoveAssign; EvMoveAssign; EvMoveCtor; EvCtor]
          ∧ count is_move_assign (inplace_log (ByArgs 9%Z) (3 - 1)) = 3 - 1
          ∧ count is_ctor (inplace_log (ByArgs 9%Z) (3 - 1))
            = S (count is_dtor (inplace_log (ByArgs 9%Z) (3 - 1))).
Proof.
  intros w.
  assert (H1 : vec_inv w 0 (Some 0) 4 [1; 2; 3]%Z) by (apply world_of_inv; simpl; lia).
  assert (H2 : length [1; 2; 3]%Z < 4) by (simpl; lia).
  assert (H3 : 1 ≤ length [1; 2; 3]%Z) by (simpl; lia).
  assert (H4 : args_ok (ByArgs 9%Z)) by exact I.
  assert (H5 : fails_within (oracle w) (inplace_ticks (ByArgs 9%Z) (length [1; 2; 3]%Z - 1))
               = None) by reflexivity.
  split; [exact H1|]. split; [lia|]. split; [lia|]. split; [exact H4|]. split; [exact H5|].
  exact (Emplace_in_place_cost w 0 (Some 0) 4 [1; 2; 3]%Z 1 (ByArgs 9%Z) H1 H2 H3 H4 H5).
Defined.

Lemma PushBack_rvalue_moves_the_value_witness :
  let w := world_of [token 1] 2 (Some 5) in
  vec_inv w 0 (Some 0) 2 [token 1]
  ∧ ∃ w' buf' cap', PushBack_rvalue 0 (token 2) w = Ok () w'
      ∧ vec_inv w' 0 buf' cap' [token 1; token 2]
      ∧ contents w' 0 = Some [token 1; token 2]
      ∧ (1 < 2 → log w' = EvMoveCtor :: log w ∧ buf' = Some 0 ∧ cap' = 2).
Proof.
  intros w.
  assert (H1 : vec_inv w 0 (Some 0) 2 [token 1]) by (apply world_of_inv; simpl; lia).
  split; [exact H1|].
  exact (PushBack_rvalue_moves_the_value w 0 (Some 0) 2 [token 1] (token 2) H1).
Defined.

Section InPlaceThrows.
Context {T : Type} `{!Elem T}.
Implicit Types (h : gmap nat (list (slot T))) (o : gmap nat Vector)
  (orc : option nat) (lg : list event) (blk pre post : list (slot T))
  (l vs : list T) (w : world T).

Lemma EmplaceWithoutRelocate_throws w this b cap l1 l2 z a k :
  vec_inv w this (Some b) cap (l1 ++ l2 ++ [z]) → length (l1 ++ l2 ++ [z]) < cap →
  args_ok a →
  fails_within (oracle w) (inplace_ticks a (S (length l2))) = Some k →
  ∃ h' lg',
    EmplaceWithoutRelocate this (length l1) a w
      = Throw (World h' (next_block w) (objs w) (next_obj w) None lg')
    ∧ (k < args_ticks a + ticks_unless nothrow_move_constructible 1 → h' = heap w)
    ∧ (args_ticks a + ticks_unless nothrow_move_constructible 1 ≤ k →
       k < args_ticks a + ticks_unless nothrow_move_constructible 1
             + ticks_unless nothrow_move_assignable (length l2) →
       ∃ vs' y', length vs' = length l2
         ∧ h' = <[b := slots_of (l1 ++ vs' ++ [y']) cap]> (heap w))
    ∧ (args_ticks a + ticks_unless nothrow_move_constructible 1
         + ticks_unless nothrow_move_assignable (length l2) ≤ k →
       h' = <[b := (Live <$> l1) ++ Live (shifted_head (moved_from z) l2) :: (Live <$> l2)
                     ++ Live z :: replicate (cap - length (l1 ++ l2 ++ [z]) - 1) Raw]> (heap w)).
Proof.
  intros [Ho Hlen Hblk Hfresh] Hcap Hok Hf. destruct w as [h nb o no orc lg].
  cbn [heap next_block objs next_obj oracle log] in *.
  remember (EmplaceWithoutRelocate this (length l1) a (World h nb o no orc lg)) as r eqn:Hr.
  unfold EmplaceWithoutRelocate in Hr. rewrite bind_run in Hr.
  erewrite get_vec_run in Hr by done. cbn [data_ capacity_ size_ buffer_] in Hr.
  rewrite decide_True in Hr by (rewrite !length_app; simpl; lia).
  cbn [inplace_ticks] in Hf.
  rewrite bind_run, construct_local_run in Hr by done.
  rewrite fails_within_split in Hf.
  destruct (fails_within orc (args_ticks a)) as [k1|] eqn:Hf1.
  { injection Hf as <-. apply fails_within_lt in Hf1 as [Hk1 _].
    subst r. exists h, lg. split; [done|]. split; [done|]. split; intros; lia. }
  destruct (fails_within (tick (args_ticks a) orc) _) as [k'|] eqn:Hf'; [|done].
  cbn [fmap option_fmap option_map] in Hf. injection Hf as <-.
  unfold with_local_T in Hr. rewrite bind_run, on_throw_run in Hr.
  rewrite bind_run in Hr. erewrite begin_run in Hr by done. cbn [data_ buffer_] in Hr.
  rewrite bind_run, RawMemory_at_run in Hr by (cbn [capacity_]; lia). cbn [buffer_] in Hr.
  unfold ptr_add in Hr. cbn [base off] in Hr. rewrite !Nat.add_0_l in Hr.
  set (n := length (l1 ++ l2 ++ [z])) in *.
  assert (Hn : n = length l1 + length l2 + 1)
    by (unfold n; rewrite !length_app; simpl; lia).
  assert (Hb0 : slots_of (l1 ++ l2 ++ [z]) cap
                = ((Live <$> l1) ++ (Live <$> l2)) ++ Live z :: Raw :: replicate (cap - n - 1) Raw).
  { unfold slots_of. fold n. rewrite !fmap_app, <-!(assoc_L (++)).
    replace (cap - n) with (S (cap - n - 1)) at 1 by lia. done. }
  rewrite Hb0 in Hblk.
  rewrite bind_run in Hr.
  erewrite move_construct_same_run in Hr; [|exact Hblk| |].
  2:{ apply list_lookup_middle. rewrite length_app, !length_fmap. lia. }
  2:{ rewrite (cons_middle (Live z)), (assoc_L (++)). apply list_lookup_middle.
      rewrite !length_app, !length_fmap. simpl. lia. }
  rewrite fails_within_split in Hf'.
  destruct (fails_within (tick (args_ticks a) orc) (ticks_unless nothrow_move_constructible 1))
    as [k2|] eqn:Hf2.
  { injection Hf' as <-. apply fails_within_lt in Hf2 as [Hk2 _].
    subst r. eexists h, _. split; [reflexivity|]. split; [done|]. split; intros; lia. }
  destruct (fails_within (tick _ (tick (args_ticks a) orc)) _) as [k''|] eqn:Hf''; [|done].
  cbn [fmap option_fmap option_map] in Hf'. injection Hf' as <-.
  rewrite (cons_middle (Live z)), (assoc_L (++) _ [Live z]) in Hr.
  rewrite insert_middle in Hr by (rewrite !length_app, !length_fmap; simpl; lia).
  rewrite <-(assoc_L (++) _ [Live z]) in Hr. cbn [app] in Hr.
  rewrite insert_middle in Hr by (rewrite !length_app, !length_fmap; simpl; lia).
  rewrite <-(assoc_L (++)) in Hr.
  rewrite bind_run, on_throw_run in Hr.
  rewrite bind_run in Hr. erewrite end_run in Hr by done. cbn [data_ buffer_ size_] in Hr.
  unfold move_backward in Hr.
  rewrite bind_run, distance_run in Hr by (cbn [base off ptr_sub]; done || lia).
  unfold ptr_sub in Hr. cbn [base off] in Hr.
  replace (n - 1 - length l1) with (length l2) in Hr by lia.
  rewrite fails_within_split in Hf''.
  destruct (fails_within (tick _ (tick (args_ticks a) orc))
              (ticks_unless nothrow_move_assignable (length l2))) as [k3|] eqn:Hf3.
  - (* the shift throws *)
    injection Hf'' as <-. pose proof (fails_within_lt _ _ _ Hf3) as [Hk3 _].
    destruct (move_backward_n_throws b nb o no (Live <$> l1) l2
                (<[b := (Live <$> l1) ++ (Live <$> l2)
                         ++ Live (moved_from z) :: Live z :: replicate (cap - n - 1) Raw]> h)
                (tick (ticks_unless nothrow_move_constructible 1) (tick (args_ticks a) orc))
                (EvMoveCtor :: args_event a :: lg)
                (Live z :: replicate (cap - n - 1) Raw) (moved_from z)
                (length l1) n k3) as (vs' & y' & lg' & Hlen' & Hmb).
    { by rewrite lookup_insert_eq. }
    { by rewrite length_fmap. }
    { rewrite length_fmap. lia. }
    { done. }
    rewrite Hmb in Hr. rewrite insert_insert_eq in Hr.
    pose proof (destroy_n_run [z] (<[b := (Live <$> l1) ++ (Live <$> vs') ++ Live y'
                                          :: Live z :: replicate (cap - n - 1) Raw]> h)
                  nb o no None lg' b n ((Live <$> l1) ++ (Live <$> vs') ++ [Live y'])
                  (replicate (cap - n - 1) Raw)) as Hd.
    cbn [length] in Hd. rewrite Hd in Hr; clear Hd.
    2:{ rewrite lookup_insert_eq. f_equal. by rewrite <-!(assoc_L (++)). }
    2:{ rewrite !length_app, !length_fmap. simpl. lia. }
    rewrite insert_insert_eq in Hr.
    subst r. eexists _, _. split; [reflexivity|].
    split; [intros; lia|]. split; [|intros; lia].
    intros _ _. exists vs', y'. split; [done|]. f_equal. unfold slots_of.
    rewrite !fmap_app, <-!(assoc_L (++)). cbn [fmap list_fmap replicate app].
    do 3 f_equal. rewrite !length_app. cbn [length].
    replace (cap - (length l1 + (length vs' + 1))) with (S (cap - n - 1)) by lia. done.
  - (* the assignment of the temporary throws *)
    destruct (fails_within _ (ticks_unless nothrow_move_assignable 1)) as [k4|] eqn:Hf4;
      [|done].
    cbn [fmap option_fmap option_map] in Hf''. injection Hf'' as <-.
    pose proof (move_backward_n_run b nb o no (Live <$> l1) l2
                  (<[b := (Live <$> l1) ++ (Live <$> l2)
                           ++ Live (moved_from z) :: Live z :: replicate (cap - n - 1) Raw]> h)
                  (tick (ticks_unless nothrow_move_constructible 1) (tick (args_ticks a) orc))
                  (EvMoveCtor :: args_event a :: lg)
                  (Live z :: replicate (cap - n - 1) Raw) (moved_from z)
                  (length l1) n) as Hmb.
    rewrite lookup_insert_eq, length_fmap in Hmb.
    specialize (Hmb eq_refl eq_refl Hn). rewrite Hf3 in Hmb.
    rewrite Hmb in Hr. rewrite insert_insert_eq in Hr.
    rewrite bind_run, RawMemory_at_run in Hr by (cbn [capacity_]; lia). cbn [buffer_] in Hr.
    rewrite bind_run, may_throw_unless_run, Hf4 in Hr.
    subst r. eexists _, _. split; [reflexivity|].
    split; [intros; lia|]. split; [intros; lia|]. done.
Qed.

(** X25 ([Emplace] before the end with spare capacity, when it throws).
    What is left depends on the operation that throws.  When the
    constructor of the temporary or the move construction of the last
    element throws, heap and vector are unchanged.  When a move assignment
    of the shift throws, the element moved past the end is destroyed
    again and the vector is well formed with its size, the elements before
    the position untouched, those behind possibly moved from.  When the
    last operation, the move assignment of the temporary into the
    position, throws, the size is not incremented although the former last
    element now lives in the slot at index [size]: an object is left
    outside the live range and the vector is no longer well formed. *)
Theorem Emplace_in_place_when_it_throws w this buf cap l p a k :
  vec_inv w this buf cap l → length l < cap → p < length l → args_ok a →
  fails_within (oracle w) (inplace_ticks a (length l - p)) = Some k →
  ∃ w', Emplace this (Ptr buf p) a w = Throw w'
    ∧ objs w' = objs w ∧ next_block w' = next_block w
    ∧ (k < args_ticks a + ticks_unless nothrow_move_constructible 1 → heap w' = heap w)
    ∧ (args_ticks a + ticks_unless nothrow_move_constructible 1 ≤ k →
       k < args_ticks a + ticks_unless nothrow_move_constructible 1
             + ticks_unless nothrow_move_assignable (length l - p - 1) →
       ∃ l', length l' = length l ∧ take p l' = take p l ∧ vec_inv w' this buf cap l')
    ∧ (args_ticks a + ticks_unless nothrow_move_constructible 1
         + ticks_unless nothrow_move_assignable (length l - p - 1) ≤ k →
       ∃ x, last l = Some x
         ∧ slot_at w' (Ptr buf (length l)) = Some (Live x)
         ∧ ∀ l', ¬ vec_inv w' this buf cap l').
Proof.
  intros Hinv Hlt Hp Hok Hf.
  destruct buf as [b|]; [|destruct Hinv as [_ _ Hb _]; simpl in Hb; lia].
  assert (drop p l ≠ []) as Hne.
  { intros Hnil. apply (f_equal length) in Hnil. rewrite length_drop in Hnil. simpl in Hnil. lia. }
  destruct (exists_last Hne) as (l2 & z & Hdrop).
  assert (l = take p l ++ l2 ++ [z]) as Hl by (by rewrite <-Hdrop, take_drop).
  set (l1 := take p l) in *.
  assert (length l1 = p) as Hl1 by (unfold l1; rewrite length_take; lia).
  assert (length l = p + length l2 + 1) as Hlen.
  { rewrite Hl at 1. rewrite !length_app, Hl1. simpl. lia. }
  replace (length l - p) with (S (length l2)) in Hf by lia.
  replace (length l - p - 1) with (length l2) by lia.
  rewrite Hl in Hinv, Hlt.
  destruct (EmplaceWithoutRelocate_throws w this b cap l1 l2 z a k Hinv Hlt Hok Hf)
    as (h' & lg' & Hrun & Hcase1 & Hcase2 & Hcase3).
  pose proof Hinv as [Ho Hle Hblk Hfresh].
  assert (Emplace this (Ptr (Some b) (length l1)) a w
          = Throw (World h' (next_block w) (objs w) (next_obj w) None lg')) as HE.
  { destruct w as [h nb o no orc lg].
    cbn [heap next_block objs next_obj oracle log] in *.
    unfold Emplace, cbegin.
    rewrite bind_run. erewrite begin_run by done. cbn [data_ buffer_].
    rewrite bind_run, distance_run by (cbn [base off]; done || lia). cbn [off].
    rewrite Nat.sub_0_r.
    rewrite bind_run. erewrite get_vec_run by done. cbn [size_ data_ capacity_].
    rewrite bind_run, assert_run by (apply bool_decide_eq_true_2; rewrite !length_app; lia).
    rewrite decide_False by lia. by rewrite bind_run, Hrun. }
  rewrite Hl1 in HE.
  eexists. split; [exact HE|]. cbn [objs next_block heap].
  split; [done|]. split; [done|]. split; [exact Hcase1|]. split.
  - intros Hge Hlt'. destruct (Hcase2 Hge Hlt') as (vs' & y' & Hvs' & ->).
    exists (l1 ++ vs' ++ [y']).
    assert (length (l1 ++ vs' ++ [y']) = length l) as Hlen'.
    { rewrite !length_app, Hl1, Hvs'. simpl. lia. }
    split; [exact Hlen'|]. split.
    { by rewrite take_app_length' by done. }
    split; cbn [heap next_block objs].
    + rewrite Ho. do 2 f_equal. rewrite <-Hl. by rewrite Hlen'.
    + rewrite Hlen'. rewrite <-Hl in Hlt. lia.
    + apply lookup_insert_eq.
    + intros b' Hb'. cbn [heap next_block] in *.
      rewrite lookup_insert_ne; [by apply Hfresh|]. intros <-.
      rewrite Hfresh in Hblk by done. done.
  - intros Hge. rewrite (Hcase3 Hge). exists z.
    assert (((Live <$> l1) ++ Live (shifted_head (moved_from z) l2) :: (Live <$> l2)
               ++ Live z :: replicate (cap - length (l1 ++ l2 ++ [z]) - 1) Raw) !! length l
            = Some (Live z)) as Hslot.
    { rewrite (cons_middle (Live (shifted_head _ _))), !(assoc_L (++)).
      apply list_lookup_middle. rewrite !length_app, !length_fmap, Hl1. simpl. lia. }
    split; [rewrite Hl, (assoc_L (++)); apply last_snoc|].
    split.
    { destruct w as [h nb o no orc lg]. rewrite slot_at_run. cbn [heap].
      rewrite lookup_insert_eq. exact Hslot. }
    intros l' [Ho' Hle' Hblk' _]. cbn [heap objs] in *.
    rewrite Ho in Ho'. injection Ho' as Hsz. rewrite <-Hl in Hsz.
    rewrite lookup_insert_eq in Hblk'. injection Hblk' as Hblk'.
    rewrite Hblk' in Hslot. rewrite <-Hl in Hlt.
    rewrite slots_of_lookup_raw in Hslot by lia. done.
Qed.
End InPlaceThrows.

Lemma Emplace_in_place_when_it_throws_witness :
  let w := world_of [tracked 1; tracked 2; tracked 3] 4 (Some 3) in
  vec_inv w 0 (Some 0) 4 [tracked 1; tracked 2; tracked 3] ∧ 3 < 4 ∧ 1 < 3
  ∧ args_ok (ByArgs (tracked 9))
  ∧ fails_within (oracle w) (inplace_ticks (ByArgs (tracked 9)) (3 - 1)) = Some 3
  ∧ ∃ w', Emplace 0 (Ptr (Some 0) 1) (ByArgs (tracked 9)) w = Throw w'
      ∧ objs w' = objs w ∧ next_block w' = next_block w
      ∧ (3 < 1 + 1 → heap w' = heap w)
      ∧ (1 + 1 ≤ 3 → 3 < 1 + 1 + 1 →
         ∃ l', length l' = 3 ∧ take 1 l' = [tracked 1]
               ∧ vec_inv w' 0 (Some 0) 4 l')
      ∧ (1 + 1 + 1 ≤ 3 →
         ∃ x, last [tracked 1; tracked 2; tracked 3] = Some x
           ∧ slot_at w' (Ptr (Some 0) 3) = Some (Live x)
           ∧ ∀ l', ¬ vec_inv w' 0 (Some 0) 4 l').
Proof.
  intros w.
  assert (H1 : vec_inv w 0 (Some 0) 4 [tracked 1; tracked 2; tracked 3])
    by (apply world_of_inv; simpl; lia).
  assert (H2 : length [tracked 1; tracked 2; tracked 3] < 4) by (simpl; lia).
  assert (H3 : 1 < length [tracked 1; tracked 2; tracked 3]) by (simpl; lia).
  assert (H4 : args_ok (ByArgs (tracked 9))) by exact I.
  assert (H5 : fails_within (oracle w)
                 (inplace_ticks (ByArgs (tracked 9))
                    (length [tracked 1; tracked 2; tracked 3] - 1)) = Some 3)
    by reflexivity.
  split; [exact H1|]. split; [lia|]. split; [lia|]. split; [exact H4|]. split; [exact H5|].
  exact (Emplace_in_place_when_it_throws w 0 (Some 0) 4 [tracked 1; tracked 2; tracked 3] 1
           (ByArgs (tracked 9)) 3 H1 H2 H3 H4 H5).
Defined.
